(** * spotify-import.py: the Spotify Web API client and its login server

    A shallow embedding of [src/spotify-import.py]: the class [SpotifyAPI]
    (request building, the retry loop of [get] and [post], the pagination
    walker [list], the browser login [authorize] with its one-shot local HTTP
    server), [chunks] and [main].

    Python objects live in a heap of mutable lists and dicts, effects are
    threaded through a state-and-outcome monad, and the network, the clock
    and the browser are parts of the state that the program can only read. *)

From Stdlib Require Import ZArith QArith Ascii DecimalString Lia.
From Stdlib Require String.
From stdpp Require Import base tactics option list strings.

Local Open Scope Z_scope.

(** ** Python text

    A Python [str] is kept as its UTF-8 bytes. Prefix tests, substring tests
    and concatenation agree with Python's on well-formed text, and
    percent-encoding works on these bytes anyway. *)

(** [s.startswith(pre)] *)
Fixpoint startswith (s pre : string) : bool :=
  match pre, s with
  | EmptyString, _ => true
  | String a pre', String b s' => Ascii.eqb a b && startswith s' pre'
  | String _ _, EmptyString => false
  end.

(** [sub in s] *)
Fixpoint str_in (sub s : string) : bool :=
  startswith s sub ||
  match s with
  | EmptyString => false
  | String _ rest => str_in sub rest
  end.

(** [s.replace(a, b)] for single characters. *)
Fixpoint replace_char (a b : ascii) (s : string) : string :=
  match s with
  | EmptyString => EmptyString
  | String c rest => String (if Ascii.eqb c a then b else c) (replace_char a b rest)
  end.

(** [sep.join(parts)] *)
Fixpoint join (sep : string) (parts : list string) : string :=
  match parts with
  | [] => ""
  | [p] => p
  | p :: rest => p +:+ sep +:+ join sep rest
  end.

(** [str(n)] for an [int]. *)
Definition str_int (z : Z) : string := NilZero.string_of_int (Z.to_int z).

(** The code points of a text: a byte [10xxxxxx] continues the character
    before it. Used where Python iterates over a [str] or takes its [len]. *)
Definition is_continuation (c : ascii) : bool :=
  let n := N_of_ascii c in (128 <=? n)%N && (n <? 192)%N.

Fixpoint take_continuation (s : string) : string * string :=
  match s with
  | String c rest =>
      if is_continuation c
      then let '(t, r) := take_continuation rest in (String c t, r)
      else ("", s)
  | EmptyString => ("", "")
  end.

Fixpoint chars_fuel (n : nat) (s : string) : list string :=
  match n, s with
  | S n', String c rest =>
      let '(t, r) := take_continuation rest in String c t :: chars_fuel n' r
  | _, _ => []
  end.

Definition chars (s : string) : list string := chars_fuel (String.length s) s.

(** ** [urllib.parse]: [quote], [quote_plus], [urlencode]

    Library code, written out from CPython's [Lib/urllib/parse.py]. *)

Definition ALWAYS_SAFE : string :=
  "ABCDEFGHIJKLMNOPQRSTUVWXYZabcdefghijklmnopqrstuvwxyz0123456789_.-~".

Fixpoint char_in (c : ascii) (s : string) : bool :=
  match s with
  | EmptyString => false
  | String d rest => Ascii.eqb c d || char_in c rest
  end.

Definition hex_digit (n : N) : ascii :=
  match n with
  | 0%N => "0" | 1%N => "1" | 2%N => "2" | 3%N => "3" | 4%N => "4"
  | 5%N => "5" | 6%N => "6" | 7%N => "7" | 8%N => "8" | 9%N => "9"
  | 10%N => "A" | 11%N => "B" | 12%N => "C" | 13%N => "D" | 14%N => "E"
  | _ => "F"
  end%char.

(** ['%{:02X}'.format(byte)] *)
Definition percent (c : ascii) : string :=
  let n := N_of_ascii c in
  String "%"%char (String (hex_digit (n / 16)) (String (hex_digit (n mod 16)) "")).

Fixpoint quote (safe : string) (s : string) : string :=
  match s with
  | EmptyString => ""
  | String c rest =>
      (if char_in c ALWAYS_SAFE || char_in c safe then String c "" else percent c)
      +:+ quote safe rest
  end.

Definition quote_plus (s : string) : string :=
  if negb (str_in " " s) then quote "" s
  else replace_char " "%char "+"%char (quote " " s).

(** ** Python values

    Scalars are immutable; lists and dicts are objects in the heap and a
    value only refers to them. JSON numbers are kept to the integers (no
    field this client reads is a float). *)

Inductive atom :=
  | ANone
  | ABool (b : bool)
  | AInt (z : Z)
  | AStr (s : string).

Abbreviation loc := nat (only parsing).

Inductive val :=
  | VAtom (a : atom)
  | VRef (l : loc).

Coercion VAtom : atom >-> val.

Inductive obj :=
  | OList (xs : list val)
  | ODict (kvs : list (string * val)).

(** [str(a)] *)
Definition py_str (a : atom) : string :=
  match a with
  | ANone => "None"
  | ABool true => "True"
  | ABool false => "False"
  | AInt z => str_int z
  | AStr s => s
  end.

(** [urlencode(query)] over the items of a mapping whose values are scalars,
    in the mapping's (insertion) order. *)
Definition urlencode (query : list (string * atom)) : string :=
  join "&" (map (fun kv => quote_plus kv.1 +:+ "=" +:+ quote_plus (py_str kv.2)) query).

(** The items of a dict as scalars; [None] when some value is a list or a
    dict: the mappings that this client passes hold scalars only, and
    [urlencode_at] goes no further. *)
Fixpoint scalar_items (kvs : list (string * val)) : option (list (string * atom)) :=
  match kvs with
  | [] => Some []
  | (k, VAtom a) :: rest => option_map (cons (k, a)) (scalar_items rest)
  | (_, VRef _) :: _ => None
  end.

(** ** Dicts

    A dict keeps its items in insertion order and its keys are distinct:
    [d[k] = v] overwrites in place or appends. *)

Fixpoint dict_get {A} (k : string) (kvs : list (string * A)) : option A :=
  match kvs with
  | [] => None
  | (k', v) :: rest => if String.eqb k k' then Some v else dict_get k rest
  end.

Fixpoint dict_set {A} (k : string) (v : A) (kvs : list (string * A)) : list (string * A) :=
  match kvs with
  | [] => [(k, v)]
  | (k', v') :: rest =>
      if String.eqb k k' then (k', v) :: rest else (k', v') :: dict_set k v rest
  end.

(** The dict built by setting the members of [kvs] one after the other, as
    the JSON decoder does: of two members with one key the later wins. *)
Definition dict_of {A} (kvs : list (string * A)) : list (string * A) :=
  fold_left (fun d kv => dict_set kv.1 kv.2 d) kvs [].

(** ** JSON documents *)

#[warnings="-register-all"]
Inductive JSON :=
  | JAtom (a : atom)
  | JArr (js : list JSON)
  | JObj (kvs : list (string * JSON)).

Definition JNull : JSON := JAtom ANone.
Definition JStr (s : string) : JSON := JAtom (AStr s).
Definition JInt (z : Z) : JSON := JAtom (AInt z).

(** ** Exceptions, requests and the observable trace *)

Inductive exn :=
  | KeyError (key : string)
  | TypeError
  | AttributeError
  | ValueError
  | OSError (msg : string)           (* URLError, HTTPError, timeouts, a reset connection *)
  | _Authorization (access_token : string).

Record Request := {
  req_url : string;
  req_data : option JSON;            (* the document whose JSON text is the body *)
  req_headers : list (string * string)
}.

(** What one [urlopen] followed by [json.load] comes to. *)
Inductive Reply :=
  | Failure (err : exn)
  | Document (j : JSON).

(** One request to the local server. [hangup] is what writing the response
    to the client's socket comes to: [None] when the client is still there,
    the message of the [OSError] ([ConnectionResetError],
    [BrokenPipeError]) when it has gone. *)
Record HttpRequest := {
  command : string;
  path : string;
  hangup : option string
}.

Inductive Sent :=
  | Page (status : Z) (headers : list (string * string)) (body : string)
  | ErrorPage (status : Z).

Inductive LogMsg :=
  | CouldntLoad (url : string) (err : exn)
  | TryingAgain
  | Loaded (n : nat) (total : val)
  | LoggingIn (url : string)
  | ReceivedToken (access_token : string).

Inductive Event :=
  | Urlopen (r : Request)
  | LogInfo (m : LogMsg)
  | Sleep (secs : Z)
  | BrowserOpen (url : string)
  | Listen (host : string) (port : Z)
  | Respond (s : Sent).

(** ** The state of a run

    [heap] and [trace] are what the program changes; [transport], [clock]
    and [incoming] are its surroundings: the answer to the n-th [urlopen],
    the n-th reading of [time.time()], and the requests that will reach the
    local server. *)

Record World := {
  heap : list obj;
  trace : list Event;
  ticks : nat;
  incoming : list HttpRequest;
  transport : nat -> Request -> Reply;
  clock : nat -> Q
}.

Definition with_heap (h : list obj) (w : World) : World :=
  {| heap := h; trace := trace w; ticks := ticks w; incoming := incoming w;
     transport := transport w; clock := clock w |}.

Definition emit (e : Event) (w : World) : World :=
  {| heap := heap w; trace := trace w ++ [e]; ticks := ticks w; incoming := incoming w;
     transport := transport w; clock := clock w |}.

Definition tick (w : World) : World :=
  {| heap := heap w; trace := trace w; ticks := S (ticks w); incoming := incoming w;
     transport := transport w; clock := clock w |}.

Definition with_incoming (rs : list HttpRequest) (w : World) : World :=
  {| heap := heap w; trace := trace w; ticks := ticks w; incoming := rs;
     transport := transport w; clock := clock w |}.

Definition is_urlopen (e : Event) : bool :=
  match e with Urlopen _ => true | _ => false end.

(** The number of requests sent so far. *)
Definition attempts (t : list Event) : nat := length (filter is_urlopen t).

(** ** Outcomes and the monad of runs *)

Inductive Outcome (A : Type) :=
  | Ret (a : A)                      (* returns a *)
  | Raise (e : exn)                  (* an Exception propagates *)
  | Exit (code : Z)                  (* SystemExit: the process ends *)
  | Blocks                           (* waits for a connection that never comes *)
  | OutOfFuel                        (* the model's loop bound was reached *)
  | Unmodelled.                      (* left the modelled part of Python *)

Arguments Ret {A} a.
Arguments Raise {A} e.
Arguments Exit {A} code.
Arguments Blocks {A}.
Arguments OutOfFuel {A}.
Arguments Unmodelled {A}.

Definition M (A : Type) : Type := World -> Outcome A * World.

Definition ret {A} (a : A) : M A := fun w => (Ret a, w).

Definition bind {A B} (m : M A) (k : A -> M B) : M B := fun w =>
  match m w with
  | (Ret a, w') => k a w'
  | (Raise e, w') => (Raise e, w')
  | (Exit c, w') => (Exit c, w')
  | (Blocks, w') => (Blocks, w')
  | (OutOfFuel, w') => (OutOfFuel, w')
  | (Unmodelled, w') => (Unmodelled, w')
  end.

Notation "x <- m ;; k" := (bind m (fun x => k))
  (at level 100, m at next level, right associativity,
   format "'[v' x  <-  m  ;;  '/' k ']'").
Notation "m ;;; k" := (bind m (fun _ => k))
  (at level 100, right associativity).

Definition raise {A} (e : exn) : M A := fun w => (Raise e, w).
Definition unmodelled {A} : M A := fun w => (Unmodelled, w).
Definition out_of_fuel {A} : M A := fun w => (OutOfFuel, w).
Definition blocks {A} : M A := fun w => (Blocks, w).

(** [try: m  except Exception as err: h err]. [SystemExit] is not an
    [Exception] and passes through. *)
Definition try_except {A} (m : M A) (h : exn -> M A) : M A := fun w =>
  match m w with
  | (Raise e, w') => h e w'
  | r => r
  end.

(** [sys.exit(code)] *)
Definition sys_exit {A} (code : Z) : M A := fun w => (Exit code, w).

Definition logging_info (m : LogMsg) : M unit := fun w => (Ret tt, emit (LogInfo m) w).
Definition time_sleep (secs : Z) : M unit := fun w => (Ret tt, emit (Sleep secs) w).
Definition webbrowser_open (url : string) : M unit := fun w => (Ret tt, emit (BrowserOpen url) w).
Definition time_time : M Q := fun w => (Ret (clock w (ticks w)), tick w).

(** The local server: binding the port, and sending one response (status
    line, headers and body, or the page [send_error] makes) to the client
    of the request [self]. The writes to [self.wfile] raise when the client
    has gone; [Respond] records a response that was written in full. *)
Definition server_bind (host : string) (port : Z) : M unit :=
  fun w => (Ret tt, emit (Listen host port) w).
Definition respond (self : HttpRequest) (s : Sent) : M unit := fun w =>
  match hangup self with
  | None => (Ret tt, emit (Respond s) w)
  | Some msg => (Raise (OSError msg), w)
  end.

(** [urlopen(req)] and the reading half of [json.load]: the request goes
    out and either an exception comes back (no connection, an HTTP error, a
    body that is not JSON) or the document that was received. *)
Definition urlopen (r : Request) : M JSON := fun w =>
  match transport w (attempts (trace w)) r with
  | Failure e => (Raise e, emit (Urlopen r) w)
  | Document j => (Ret j, emit (Urlopen r) w)
  end.

(** ** Heap operations *)

Definition deref (l : loc) : M obj := fun w =>
  match heap w !! l with
  | Some o => (Ret o, w)
  | None => (Unmodelled, w)
  end.

Definition assign (l : loc) (o : obj) : M unit := fun w =>
  (Ret tt, with_heap (<[l := o]> (heap w)) w).

(** The decoder builds fresh objects, members before the object that holds
    them. *)
Fixpoint load (j : JSON) (h : list obj) : val * list obj :=
  match j with
  | JAtom a => (VAtom a, h)
  | JArr js =>
      let '(vs, h1) :=
        (fix go (js : list JSON) (h : list obj) : list val * list obj :=
           match js with
           | [] => ([], h)
           | j :: rest =>
               let '(v, h1) := load j h in
               let '(vs, h2) := go rest h1 in (v :: vs, h2)
           end) js h in
      (VRef (length h1), h1 ++ [OList vs])
  | JObj kvs =>
      let '(vs, h1) :=
        (fix go (kvs : list (string * JSON)) (h : list obj) : list (string * val) * list obj :=
           match kvs with
           | [] => ([], h)
           | (k, j) :: rest =>
               let '(v, h1) := load j h in
               let '(vs, h2) := go rest h1 in ((k, v) :: vs, h2)
           end) kvs h in
      (VRef (length h1), h1 ++ [ODict (dict_of vs)])
  end.

Definition json_load (j : JSON) : M val := fun w =>
  let '(v, h) := load j (heap w) in (Ret v, with_heap h w).

(** Reading a value back as a document, as [json.dumps] walks it. [None]: the
    structure is circular (or refers outside the heap, which Python cannot
    build). A walk that is not circular passes each object at most once, so
    [S (length h)] steps of depth are enough. *)
Fixpoint reify (depth : nat) (h : list obj) (v : val) : option JSON :=
  match v with
  | VAtom a => Some (JAtom a)
  | VRef l =>
      match depth with
      | O => None
      | S d =>
          match h !! l with
          | Some (OList xs) => JArr <$> mapM (reify d h) xs
          | Some (ODict kvs) =>
              JObj <$> mapM (fun kv => pair kv.1 <$> reify d h kv.2) kvs
          | None => None
          end
      end
  end.

Definition json_dumps (v : val) : M JSON := fun w =>
  match reify (S (length (heap w))) (heap w) v with
  | Some j => (Ret j, w)
  | None => (Raise ValueError, w)
  end.

(** [bool(v)] *)
Definition truthy (v : val) : M bool :=
  match v with
  | VAtom ANone => ret false
  | VAtom (ABool b) => ret b
  | VAtom (AInt z) => ret (negb (z =? 0))
  | VAtom (AStr s) => ret (negb (String.eqb s ""))
  | VRef l =>
      o <- deref l ;;
      match o with
      | OList xs => ret (negb (Nat.eqb (length xs) 0))
      | ODict kvs => ret (negb (Nat.eqb (length kvs) 0))
      end
  end.

(** [v[key]] for a text key. *)
Definition getitem (v : val) (key : string) : M val :=
  match v with
  | VAtom _ => raise TypeError
  | VRef l =>
      o <- deref l ;;
      match o with
      | OList _ => raise TypeError
      | ODict kvs =>
          match dict_get key kvs with
          | Some x => ret x
          | None => raise (KeyError key)
          end
      end
  end.

(** [len(v)] *)
Definition py_len (v : val) : M nat :=
  match v with
  | VAtom (AStr s) => ret (length (chars s))
  | VAtom _ => raise TypeError
  | VRef l =>
      o <- deref l ;;
      match o with
      | OList xs => ret (length xs)
      | ODict kvs => ret (length kvs)
      end
  end.

(** The elements [for x in v] goes through. *)
Definition iterate (v : val) : M (list val) :=
  match v with
  | VAtom (AStr s) => ret (map (fun c => VAtom (AStr c)) (chars s))
  | VAtom _ => raise TypeError
  | VRef l =>
      o <- deref l ;;
      match o with
      | OList xs => ret xs
      | ODict kvs => ret (map (fun kv => VAtom (AStr kv.1)) kvs)
      end
  end.

Definition int_of (a : atom) : option Z :=
  match a with
  | AInt z => Some z
  | ABool b => Some (if b then 1 else 0)
  | _ => None
  end.

(** [a += b]: a list is extended in place and stays the same object; text
    and numbers are rebuilt. *)
Definition iadd (a b : val) : M val :=
  match a with
  | VRef l =>
      o <- deref l ;;
      match o with
      | OList xs =>
          ys <- iterate b ;;
          assign l (OList (xs ++ ys)) ;;;
          ret (VRef l)
      | ODict _ => raise TypeError
      end
  | VAtom (AStr s) =>
      match b with
      | VAtom (AStr t) => ret (VAtom (AStr (s +:+ t)))
      | _ => raise TypeError
      end
  | VAtom ANone => raise TypeError
  | VAtom x =>
      match b with
      | VAtom y =>
          match int_of x, int_of y with
          | Some m, Some n => ret (VAtom (AInt (m + n)))
          | _, _ => raise TypeError
          end
      | VRef _ => raise TypeError
      end
  end.

(** ** The default arguments

    [params={}] in a [def] makes one dict when the class body runs; every
    call that leaves [params] out gets that same object. The three methods
    own one each, at the bottom of the heap. *)

Definition get_params_default : loc := 0%nat.
Definition list_params_default : loc := 1%nat.
Definition post_params_default : loc := 2%nat.

Definition boot_heap : list obj := [ODict []; ODict []; ODict []].

(** [urlencode(params)] for a mapping in the heap. *)
Definition urlencode_at (params : loc) : M string :=
  o <- deref params ;;
  match o with
  | ODict kvs =>
      match scalar_items kvs with
      | Some q => ret (urlencode q)
      | None => unmodelled
      end
  | OList [] => ret ""
  | OList _ => unmodelled
  end.

(** [for _ in range(n): try: return attempt  except Exception as err: ...]
    and then [sys.exit(1)]: lines 39-50 of [get] and 79-91 of [post], which
    differ in the request only. *)
Fixpoint retrying (n : nat) (url : string) (attempt : M val) : M val :=
  match n with
  | O => sys_exit 1
  | S n' =>
      try_except attempt (fun err =>
        logging_info (CouldntLoad url err) ;;;
        time_sleep 2 ;;;
        logging_info TryingAgain ;;;
        retrying n' url attempt)
  end.

(** [while True: body], for at most [n] rounds. *)
Fixpoint while_true {A} (n : nat) (body : M unit) : M A :=
  match n with
  | O => out_of_fuel
  | S n' => body ;;; while_true n' body
  end.

(** [re.search] for the text access_token= and, as group 1, the longest run
    of characters other than & that follows its leftmost occurrence. *)
Fixpoint strip_prefix (pre s : string) : option string :=
  match pre, s with
  | EmptyString, _ => Some s
  | String a pre', String b s' => if Ascii.eqb a b then strip_prefix pre' s' else None
  | String _ _, EmptyString => None
  end.

Fixpoint take_until (c : ascii) (s : string) : string :=
  match s with
  | EmptyString => EmptyString
  | String d rest => if Ascii.eqb d c then EmptyString else String d (take_until c rest)
  end.

Fixpoint re_search_access_token (s : string) : option string :=
  match strip_prefix "access_token=" s with
  | Some rest => Some (take_until "&"%char rest)
  | None =>
      match s with
      | EmptyString => None
      | String _ rest => re_search_access_token rest
      end
  end.

Definition dq : string := String (ascii_of_nat 34) EmptyString.

Module SpotifyAPI.

Definition BASE : string := "https://api.spotify.com/v1/".

(** [__init__] *)
Record t := new { _auth : string }.

(** Lines 33-36 and 71-74: the URL a request goes to. *)
Definition build_url (url : string) (params : loc) : M string :=
  let url := if negb (startswith url BASE) then BASE +:+ url else url in
  nonempty <- truthy (VRef params) ;;
  if nonempty
  then q <- urlencode_at params ;;
       ret (url +:+ (if str_in "?" url then "&" else "?") +:+ q)
  else ret url.

Definition get (self : t) (url : string) (params : loc) (tries : Z) : M val :=
  url <- build_url url params ;;
  retrying (Z.to_nat tries) url
    (let req := {| req_url := url; req_data := None;
                   req_headers := [("Authorization", "Bearer " +:+ _auth self)] |} in
     j <- urlopen req ;;
     json_load j).

(** [self.get(v)] where [v] was read from a response: text goes to [get];
    anything else has no [startswith]. *)
Definition get_at (self : t) (v : val) : M val :=
  match v with
  | VAtom (AStr url) => get self url get_params_default 3
  | _ => raise AttributeError
  end.

(** The [while response['next']] loop of [list]; [fuel] bounds the number
    of follow-up pages. *)
Fixpoint list_loop (fuel : nat) (self : t) (last_log_time : Q) (response items : val)
  : M val :=
  next <- getitem response "next" ;;
  more <- truthy next ;;
  if more then
    match fuel with
    | O => out_of_fuel
    | S fuel' =>
        now <- time_time ;;
        last_log_time <-
          (if negb (Qle_bool now (last_log_time + (15 # 1)))
           then t <- time_time ;;
                n <- py_len items ;;
                total <- getitem response "total" ;;
                logging_info (Loaded n total) ;;;
                ret t
           else ret last_log_time) ;;
        next <- getitem response "next" ;;
        response <- get_at self next ;;
        page <- getitem response "items" ;;
        items <- iadd items page ;;
        list_loop fuel' self last_log_time response items
    end
  else ret items.

Definition list (fuel : nat) (self : t) (url : string) (params : loc) : M val :=
  last_log_time <- time_time ;;
  response <- get self url params 3 ;;
  items <- getitem response "items" ;;
  list_loop fuel self last_log_time response items.

Definition post (self : t) (url : string) (params : loc) (data : val) (tries : Z)
  : M val :=
  url <- build_url url params ;;
  data <- match data with
          | VAtom ANone => ret None
          | _ => j <- json_dumps data ;; ret (Some j)
          end ;;
  retrying (Z.to_nat tries) url
    (let req := {| req_url := url; req_data := data;
                   req_headers := [("Authorization", "Bearer " +:+ _auth self);
                                   ("Content-Type", "application/json")] |} in
     j <- urlopen req ;;
     json_load j).

Definition _SERVER_PORT : Z := 43019.

(** [_AuthorizationHandler.do_GET] *)
Definition do_GET (self : HttpRequest) : M unit :=
  if startswith (path self) "/redirect" then
    respond self (Page 200 [("Content-Type", "text/html")]
      ("<script>location.replace(" +:+ dq +:+ "token?" +:+ dq +:+
       " + location.hash.slice(1));</script>"))
  else if startswith (path self) "/token?" then
    respond self (Page 200 [("Content-Type", "text/html")]
      "<script>close()</script>Thanks! You may now close this window.") ;;;
    match re_search_access_token (path self) with
    | None => raise AttributeError        (* [None.group] *)
    | Some access_token =>
        logging_info (ReceivedToken access_token) ;;;
        raise (_Authorization access_token)
    end
  else
    respond self (ErrorPage 404).

(** [BaseHTTPRequestHandler.handle_one_request]: the handler class has a
    method for GET only; any other command is answered 501. *)
Definition handle_one_request (r : HttpRequest) : M unit :=
  if String.eqb (command r) "GET" then do_GET r
  else respond r (ErrorPage 501).

(** [_AuthorizationServer.handle_error]: a bare [raise]. *)
Definition handle_error (err : exn) : M unit := raise err.

(** [server.handle_request()]: wait for the next request, run the handler
    and pass what it raises to [handle_error]. *)
Definition handle_request : M unit := fun w =>
  match incoming w with
  | [] => (Blocks, w)
  | r :: rest => try_except (handle_one_request r) handle_error (with_incoming rest w)
  end.

Definition authorize_url (client_id scope : string) : string :=
  "https://accounts.spotify.com/authorize?" +:+ urlencode [
    ("response_type", AStr "token");
    ("client_id", AStr client_id);
    ("scope", AStr scope);
    ("redirect_uri", AStr ("http://127.0.0.1:" +:+ str_int _SERVER_PORT +:+ "/redirect"))
  ].

(** The serving loop runs until a handler raises; each round takes one
    incoming request, so one round more than there are requests is never
    used up. *)
Definition authorize (client_id scope : string) : M t :=
  let url := authorize_url client_id scope in
  logging_info (LoggingIn url) ;;;
  webbrowser_open url ;;;
  server_bind "0.0.0.0" _SERVER_PORT ;;;
  try_except
    (fun w => while_true (S (length (incoming w))) handle_request w)
    (fun err =>
       match err with
       | _Authorization access_token => ret (new access_token)
       | _ => raise err
       end).

End SpotifyAPI.

(** ** [main], lines 186-193: logging in *)

Definition CLIENT_ID : string := "f273705a8fa44a1f9b962c355c5ee6e5".

Definition SCOPE : string :=
  "playlist-read-private playlist-read-collaborative " +:+
  "user-library-read playlist-modify-public " +:+
  "playlist-modify-private".

(** [token] is [args.token]: [None] when the option was not given. *)
Definition main_login (token : option string) : M SpotifyAPI.t :=
  match token with
  | Some tok =>
      if negb (String.eqb tok "") then ret (SpotifyAPI.new tok)
      else SpotifyAPI.authorize CLIENT_ID SCOPE
  | None => SpotifyAPI.authorize CLIENT_ID SCOPE
  end.

(** ** [chunks], lines 158-161, with [range] and slicing *)

(** [list(range(start, stop, step))]: [None] for the [ValueError] of a zero
    step. *)
Definition py_range (start stop step : Z) : option (list Z) :=
  if step =? 0 then None
  else
    let n :=
      if 0 <? step
      then (if start <? stop then (stop - start - 1) / step + 1 else 0)
      else (if stop <? start then (start - stop - 1) / (- step) + 1 else 0) in
    Some (map (fun k => start + Z.of_nat k * step) (seq 0 (Z.to_nat n))).

(** [slice(i, j).indices(len)]: a negative index counts from the end, and
    both ends are clamped to the list. *)
Definition slice_index (len i : Z) : Z :=
  if i <? 0 then Z.max 0 (i + len) else Z.min i len.

(** [l[i:j]] *)
Definition py_slice {A} (l : list A) (i j : Z) : list A :=
  let len := Z.of_nat (length l) in
  let a := slice_index len i in
  let b := slice_index len j in
  take (Z.to_nat (b - a)) (drop (Z.to_nat a) l).

(** [list(chunks(lst, n))], lines 158-161. The generator raises when its
    first chunk is asked for. *)
Definition chunks {A} (lst : list A) (n : Z) : exn + list (list A) :=
  match py_range 0 (Z.of_nat (length lst)) n with
  | None => inl ValueError
  | Some starts => inr (map (fun i => py_slice lst i (i + n)) starts)
  end.

(** ** Cleaning a title, line 203: [re.sub] and [str.strip] *)

Definition LF : ascii := ascii_of_nat 10.

(** A [)] comes before the end of the line: the lazy [.*?] runs up to the
    first one, and [.] does not match a line feed. *)
Fixpoint closes (s : string) : bool :=
  match s with
  | EmptyString => false
  | String c rest => Ascii.eqb c ")" || (negb (Ascii.eqb c LF) && closes rest)
  end.

(** The scan of [re.sub]: outside a match, a [(] that closes starts one and
    anything else is kept; [inside] a match everything up to the first [)] is
    dropped. *)
Fixpoint sub_parens (inside : bool) (s : string) : string :=
  match s with
  | EmptyString => EmptyString
  | String c rest =>
      if inside then sub_parens (negb (Ascii.eqb c ")")) rest
      else if Ascii.eqb c "(" && closes rest then sub_parens true rest
      else String c (sub_parens false rest)
  end.

Definition re_sub_parens (s : string) : string := sub_parens false s.

(** The code point of a character, from its UTF-8 bytes. *)
Definition ord (c : string) : N :=
  match map N_of_ascii (String.list_ascii_of_string c) with
  | [a] => a
  | [a; b] => (a mod 32) * 64 + b mod 64
  | [a; b; c] => (a mod 16) * 4096 + (b mod 64) * 64 + c mod 64
  | [a; b; c; d] => (a mod 8) * 262144 + (b mod 64) * 4096 + (c mod 64) * 64 + d mod 64
  | _ => 0
  end%N.

(** [c.isspace()] for one character. *)
Definition isspace (c : string) : bool :=
  let n := ord c in
  ((9 <=? n) && (n <=? 13) || (28 <=? n) && (n <=? 32) || (n =? 133) || (n =? 160) ||
   (n =? 5760) || (8192 <=? n) && (n <=? 8202) || (n =? 8232) || (n =? 8233) ||
   (n =? 8239) || (n =? 8287) || (n =? 12288))%N.

Fixpoint lstrip_chars (cs : list string) : list string :=
  match cs with
  | c :: rest => if isspace c then lstrip_chars rest else cs
  | [] => []
  end.

Definition strip_chars (cs : list string) : list string :=
  reverse (lstrip_chars (reverse (lstrip_chars cs))).

(** [s.strip()] *)
Definition py_strip (s : string) : string := join "" (strip_chars (chars s)).

(** Line 203: [re.sub(r'\(.*?\)', '', title).strip()] *)
Definition clean_title (title : string) : string := py_strip (re_sub_parens title).

(** ** [Levenshtein.distance]

    The library's edit distance with unit costs, over the characters of the
    two texts, row by row. *)

Module Levenshtein.

Fixpoint next_row (x : string) (b : list string) (prev : list nat) (diag left : nat)
  : list nat :=
  match b, prev with
  | y :: b', up :: prev' =>
      let cell :=
        Nat.min (Nat.min (up + 1) (left + 1)) (diag + (if String.eqb x y then 0 else 1)) in
      cell :: next_row x b' prev' up cell
  | _, _ => []
  end.

Definition distance (s t : string) : nat :=
  let b := chars t in
  let rows :=
    fold_left (fun row x =>
                 match row with
                 | d :: rest => S d :: next_row x b rest d (S d)
                 | [] => []
                 end) (chars s) (seq 0 (S (length b))) in
  default 0%nat (last rows).

End Levenshtein.

(** ** [main]

    Besides what [SpotifyAPI] does to the world, [main] writes rows to the
    CSV writer on [sys.stdout] and lines of its own to the log. They are
    kept, in order, next to the world; how they fall between the events of
    the world's trace is not recorded. [main] starts where [parse_args] has
    returned: the command line is given as [Args]. *)

Inductive Output :=
  | LogError (msg : string)          (* [logging.error] *)
  | Info (msg : string)              (* [logging.info], called by [main] *)
  | Row (fields : list val).         (* [writer.writerow] *)

Record Process := {
  world : World;
  console : list Output
}.

Definition Prog (A : Type) : Type := Process -> Outcome A * Process.

Definition pure {A} (a : A) : Prog A := fun p => (Ret a, p).

Definition and_then {A B} (m : Prog A) (k : A -> Prog B) : Prog B := fun p =>
  match m p with
  | (Ret a, p') => k a p'
  | (Raise e, p') => (Raise e, p')
  | (Exit c, p') => (Exit c, p')
  | (Blocks, p') => (Blocks, p')
  | (OutOfFuel, p') => (OutOfFuel, p')
  | (Unmodelled, p') => (Unmodelled, p')
  end.

Notation "x <~ m ;; k" := (and_then m (fun x => k))
  (at level 100, m at next level, right associativity,
   format "'[v' x  <~  m  ;;  '/' k ']'").
Notation "m ~;; k" := (and_then m (fun _ => k))
  (at level 100, right associativity).

(** A step of [SpotifyAPI], or any other step that leaves the console alone. *)
Definition run {A} (m : M A) : Prog A := fun p =>
  ((m (world p)).1, {| world := (m (world p)).2; console := console p |}).

Definition write (o : Output) : Prog unit := fun p =>
  (Ret tt, {| world := world p; console := console p ++ [o] |}).

(** A new object, as a list or dict display makes one. *)
Definition alloc (o : obj) : M loc := fun w =>
  (Ret (length (heap w)), with_heap (heap w ++ [o]) w).

(** ** [repr]

    The [str] of a list or a dict is its [repr], written out from CPython's
    [unicode_repr], [list_repr] and [dict_repr]. *)

Definition backslash : string := String (ascii_of_nat 92) EmptyString.

Definition hex_lower_digit (n : N) : ascii :=
  match n with
  | 0%N => "0" | 1%N => "1" | 2%N => "2" | 3%N => "3" | 4%N => "4"
  | 5%N => "5" | 6%N => "6" | 7%N => "7" | 8%N => "8" | 9%N => "9"
  | 10%N => "a" | 11%N => "b" | 12%N => "c" | 13%N => "d" | 14%N => "e"
  | _ => "f"
  end%char.

(** The last [width] hexadecimal digits of [n], as ['%02x'], ['%04x'] and
    ['%08x'] give them for a number that fits. *)
Fixpoint hex_lower (width : nat) (n : N) : string :=
  match width with
  | O => ""
  | S width' => hex_lower width' (n / 16) +:+ String (hex_lower_digit (n mod 16)) ""
  end.

(** The code point of one character, from its UTF-8 bytes. *)
Definition code_point (c : string) : N :=
  match c with
  | EmptyString => 0%N
  | String b rest =>
      let n := N_of_ascii b in
      fold_left (fun acc d => (acc * 64 + N_of_ascii d mod 64)%N)
        (String.list_ascii_of_string rest)
        (if (n <? 192)%N then n
         else if (n <? 224)%N then (n - 192)%N
         else if (n <? 240)%N then (n - 224)%N
         else (n - 240)%N)
  end.

Section Formatting.

(** [str.isprintable] of the character with this code point. It is asked
    for code points above 127 only, and the answer is that of the Unicode
    database of the interpreter. *)
Variable isprintable : N -> bool.

(** One character of a text between the quotes [quote]. *)
Definition repr_char (quote : ascii) (c : string) : string :=
  let n := code_point c in
  if (n =? N_of_ascii quote)%N || (n =? 92)%N then backslash +:+ c
  else if (n =? 9)%N then backslash +:+ "t"
  else if (n =? 10)%N then backslash +:+ "n"
  else if (n =? 13)%N then backslash +:+ "r"
  else if (n <? 32)%N || (n =? 127)%N then backslash +:+ "x" +:+ hex_lower 2 n
  else if (n <? 127)%N then c
  else if isprintable n then c
  else if (n <=? 255)%N then backslash +:+ "x" +:+ hex_lower 2 n
  else if (n <=? 65535)%N then backslash +:+ "u" +:+ hex_lower 4 n
  else backslash +:+ "U" +:+ hex_lower 8 n.

(** [repr(s)] for a text: single quotes, unless the text holds one and no
    double quote. *)
Definition repr_str (s : string) : string :=
  let quote := if char_in "'" s && negb (char_in (ascii_of_nat 34) s)
               then ascii_of_nat 34 else "'"%char in
  String quote (join "" (map (repr_char quote) (chars s))) +:+ String quote "".

Definition repr_atom (a : atom) : string :=
  match a with
  | AStr s => repr_str s
  | _ => py_str a
  end.

(** [repr(v)]. [visiting] holds the lists and dicts that are being
    written: one of them met again is written as [[...]] or [{...}]. An
    object is entered only when it is not among them, so [length h] levels
    are never used up. [None]: a reference out of the heap, which Python
    cannot build. *)
Fixpoint py_repr (fuel : nat) (h : list obj) (visiting : list loc) (v : val)
  : option string :=
  match v with
  | VAtom a => Some (repr_atom a)
  | VRef l =>
      match h !! l with
      | None => None
      | Some o =>
          if existsb (Nat.eqb l) visiting then
            Some (match o with OList _ => "[...]" | ODict _ => "{...}" end)
          else
            match fuel with
            | O => None
            | S fuel' =>
                match o with
                | OList xs =>
                    (fun parts => "[" +:+ join ", " parts +:+ "]") <$>
                      mapM (py_repr fuel' h (l :: visiting)) xs
                | ODict kvs =>
                    (fun parts => "{" +:+ join ", " parts +:+ "}") <$>
                      mapM (fun kv =>
                              (fun r => repr_str kv.1 +:+ ": " +:+ r) <$>
                                py_repr fuel' h (l :: visiting) kv.2) kvs
                end
            end
      end
  end.

(** [format(v, '')], as [str.format] and f-strings apply it to a field:
    [str(v)], which for a list or a dict is its [repr]. *)
Definition format_value (v : val) : M string :=
  match v with
  | VAtom a => ret (py_str a)
  | VRef _ => fun w =>
      match py_repr (S (length (heap w))) (heap w) [] v with
      | Some s => (Ret s, w)
      | None => (Unmodelled, w)
      end
  end.

(** Line 198: the text ['Logged in as {display_name} ({id})'], formatted
    with the items of [me] as keyword arguments. *)
Definition format_logged_in (me : val) : M string :=
  match me with
  | VAtom _ => raise TypeError       (* not a mapping *)
  | VRef l =>
      o <- deref l ;;
      match o with
      | OList _ => raise TypeError
      | ODict _ =>
          display_name <- getitem me "display_name" ;;
          a <- format_value display_name ;;
          id <- getitem me "id" ;;
          b <- format_value id ;;
          ret ("Logged in as " +:+ a +:+ " (" +:+ b +:+ ")")
      end
  end.

(** Line 203 for the value of [song['title']]: [re.sub] wants text. *)
Definition clean (v : val) : M string :=
  match v with
  | VAtom (AStr s) => ret (clean_title s)
  | _ => raise TypeError
  end.

(** What the library does with a second argument that is not text depends
    on its version. *)
Definition Levenshtein_distance (title : string) (v : val) : M val :=
  match v with
  | VAtom (AStr name) => ret (VAtom (AInt (Z.of_nat (Levenshtein.distance title name))))
  | _ => unmodelled
  end.

(** [v[0]]. On an empty list or text Python raises [IndexError], and on a
    decoded dict [KeyError(0)]; neither is among the exceptions named here. *)
Definition getitem_0 (v : val) : M val :=
  match v with
  | VAtom (AStr s) =>
      match chars s with
      | c :: _ => ret (VAtom (AStr c))
      | [] => unmodelled
      end
  | VAtom _ => raise TypeError
  | VRef l =>
      o <- deref l ;;
      match o with
      | OList (x :: _) => ret x
      | OList [] => unmodelled
      | ODict _ => unmodelled
      end
  end.

(** Lines 203-208: the search for one song. *)
Definition search (spotify : SpotifyAPI.t) (song : val) (title : string) : M val :=
  artist <- getitem song "artist" ;;
  artist <- format_value artist ;;
  params <- alloc (ODict [("q", VAtom (AStr (artist +:+ " " +:+ title)));
                          ("type", VAtom (AStr "track"));
                          ("limit", VAtom (AInt 1))]) ;;
  SpotifyAPI.get spotify "search" params 3.

(** Lines 210-221: what the loop does with the result of the search. One
    row is written; the URI of the track that was found, if any, is what
    [to_import] grows by. *)
Definition record_track (song : val) (title : string) (res : val) : Prog (option val) :=
  found <~ run (tracks <- getitem res "tracks" ;;
                items <- getitem tracks "items" ;;
                truthy items) ;;
  if negb found then
    artist <~ run (getitem song "artist") ;;
    write (Row [VAtom (AStr title); artist; VAtom (AStr ""); VAtom (AStr "")]) ~;;
    pure None
  else
    track <~ run (tracks <- getitem res "tracks" ;;
                  items <- getitem tracks "items" ;;
                  getitem_0 items) ;;
    row <~ run (artist <- getitem song "artist" ;;
                name <- getitem track "name" ;;
                artists <- getitem track "artists" ;;
                first <- getitem_0 artists ;;
                artist_name <- getitem first "name" ;;
                name' <- getitem track "name" ;;
                distance <- Levenshtein_distance title name' ;;
                ret [VAtom (AStr title); artist; name; artist_name; distance]) ;;
    write (Row row) ~;;
    uri <~ run (getitem track "uri") ;;
    pure (Some uri).

(** The body of the loop, lines 203-221. *)
Definition import_song (spotify : SpotifyAPI.t) (song : val) : Prog (option val) :=
  title <~ run (title <- getitem song "title" ;; clean title) ;;
  res <~ run (search spotify song title) ;;
  record_track song title res.

(** [for song in data], with [to_import] as it stands. *)
Fixpoint search_all (spotify : SpotifyAPI.t) (songs : list val) (to_import : list val)
  : Prog (list val) :=
  match songs with
  | [] => pure to_import
  | song :: rest =>
      uri <~ import_song spotify song ;;
      search_all spotify rest
        (match uri with Some uri => to_import ++ [uri] | None => to_import end)
  end.

(** Line 225 for each of the chunks that are still to come: a chunk is a
    new list, and it is sent as [{'uris': tracks}]. *)
Fixpoint post_chunks (spotify : SpotifyAPI.t) (playlist : string) (cs : list (list val))
  : M unit :=
  match cs with
  | [] => ret tt
  | tracks :: rest =>
      tracks <- alloc (OList tracks) ;;
      data <- alloc (ODict [("uris", VRef tracks)]) ;;
      SpotifyAPI.post spotify ("playlists/" +:+ playlist +:+ "/tracks")
        post_params_default (VRef data) 3 ;;;
      post_chunks spotify playlist rest
  end.

(** Lines 224-225: [for tracks in chunks(to_import, 100): spotify.post(...)] *)
Definition import_tracks (spotify : SpotifyAPI.t) (playlist : string) (to_import : list val)
  : M unit :=
  match chunks to_import 100 with
  | inl err => raise err
  | inr cs => post_chunks spotify playlist cs
  end.

(** The command line, as [parse_args] returns it. [file] is what
    [json.loads(args.file.read())] gives: [None] when it raises. *)
Record Args := {
  token : option string;
  import : bool;
  playlist : string;
  file : option JSON
}.

Definition main (args : Args) : Prog unit :=
  data <~ match file args with
          | Some j => run (json_load j)
          | None =>
              write (LogError "Invalid JSON file provided.") ~;;
              run (sys_exit 1)
          end ;;
  spotify <~ run (main_login (token args)) ;;
  write (Info "Loading user info...") ~;;
  me <~ run (SpotifyAPI.get spotify "me" get_params_default 3) ;;
  line <~ run (format_logged_in me) ;;
  write (Info line) ~;;
  songs <~ run (iterate data) ;;
  to_import <~ search_all spotify songs [] ;;
  if import args then run (import_tracks spotify (playlist args) to_import)
  else pure tt.

End Formatting.

(** * The vocabulary of the properties *)

(** ** Reading a URL back: [urllib.parse.unquote_plus] and the value of a
    query field *)

Definition hex_value (c : ascii) : option N :=
  let n := N_of_ascii c in
  if (48 <=? n)%N && (n <=? 57)%N then Some (n - 48)%N
  else if (65 <=? n)%N && (n <=? 70)%N then Some (n - 55)%N
  else if (97 <=? n)%N && (n <=? 102)%N then Some (n - 87)%N
  else None.

Fixpoint unquote (s : string) : string :=
  match s with
  | EmptyString => EmptyString
  | String c rest =>
      if Ascii.eqb c "%" then
        match rest with
        | String a (String b rest') =>
            match hex_value a, hex_value b with
            | Some x, Some y => String (ascii_of_N (16 * x + y)) (unquote rest')
            | _, _ => String c (unquote rest)
            end
        | _ => String c (unquote rest)
        end
      else String c (unquote rest)
  end.

Definition unquote_plus (s : string) : string :=
  unquote (replace_char "+" " " s).

Fixpoint split_on (c : ascii) (s : string) : list string :=
  match s with
  | EmptyString => [EmptyString]
  | String d rest =>
      if Ascii.eqb d c then EmptyString :: split_on c rest
      else match split_on c rest with
           | x :: xs => String d x :: xs
           | [] => [String d EmptyString]
           end
  end.

Fixpoint drop_until (c : ascii) (s : string) : string :=
  match s with
  | EmptyString => EmptyString
  | String d rest => if Ascii.eqb d c then rest else drop_until c rest
  end.

(** The decoded value of the first field [name=...] of the query of [url]. *)
Definition query_param (name url : string) : option string :=
  head (omap (fun field => unquote_plus <$> strip_prefix (name +:+ "=") field)
          (split_on "&" (drop_until "?" url))).

(** The fields of a query string, decoded: for each part between [&]s the
    text before its first [=] and the text behind it. *)
Definition query_fields (qs : string) : list (string * string) :=
  map (fun field => (unquote_plus (take_until "=" field),
                     unquote_plus (drop_until "=" field)))
      (split_on "&" qs).

(** ** Mappings, URLs and requests *)

(** A mapping in the heap that [urlencode] can read: a dict whose values are
    scalars. *)
Definition query_at (h : list obj) (params : loc) (q : list (string * atom)) : Prop :=
  exists kvs, h !! params = Some (ODict kvs) /\ scalar_items kvs = Some q.

(** The URL that lines 33-36 compute from [url] and the items [q]. *)
Definition prefixed (url : string) : string :=
  if startswith url SpotifyAPI.BASE then url else SpotifyAPI.BASE +:+ url.

Definition with_query (url : string) (q : list (string * atom)) : string :=
  match q with
  | [] => url
  | _ => url +:+ (if str_in "?" url then "&" else "?") +:+ urlencode q
  end.

Definition get_request (self : SpotifyAPI.t) (url : string) : Request :=
  {| req_url := url; req_data := None;
     req_headers := [("Authorization", "Bearer " +:+ SpotifyAPI._auth self)] |}.

Definition post_request (self : SpotifyAPI.t) (url : string) (body : option JSON) : Request :=
  {| req_url := url; req_data := body;
     req_headers := [("Authorization", "Bearer " +:+ SpotifyAPI._auth self);
                     ("Content-Type", "application/json")] |}.

(** The body [post] sends for [data]: none for [None], else the document
    [json.dumps] reads; undefined when [json.dumps] raises. *)
Definition body_of (h : list obj) (data : val) : option (option JSON) :=
  match data with
  | VAtom ANone => Some None
  | _ => Some <$> reify (S (length h)) h data
  end.

(** The requests in a trace, oldest first. *)
Definition requests (t : list Event) : list Request :=
  omap (fun e => match e with Urlopen r => Some r | _ => None end) t.

(** ** The network *)

(** What the program cannot change. *)
Definition surroundings_kept (w w' : World) : Prop :=
  transport w' = transport w /\ clock w' = clock w /\ incoming w' = incoming w.

(** The world after one failed attempt: the request, the two log lines and
    the pause between them. *)
Definition after_failure (url : string) (req : Request) (err : exn) (w : World) : World :=
  emit (LogInfo TryingAgain)
    (emit (Sleep 2) (emit (LogInfo (CouldntLoad url err)) (emit (Urlopen req) w))).

(** [arrives net base f p]: from request number [base] on, the network
    fails [f] times, fewer than the three tries of [get], and then answers
    with the document [p]. *)
Definition arrives (net : nat -> Request -> Reply) (base f : nat) (p : JSON) : Prop :=
  (f < 3)%nat /\
  (forall i r, (i < f)%nat -> exists err, net (base + i)%nat r = Failure err) /\
  (forall r, net (base + f)%nat r = Document p).

(** The network delivers the pages of [sched] in turn, each after the
    number of failures given with it. *)
Fixpoint serves (net : nat -> Request -> Reply) (base : nat) (sched : list (nat * JSON))
  : Prop :=
  match sched with
  | [] => True
  | (f, p) :: rest => arrives net base f p /\ serves net (base + S f) rest
  end.

(** The number of requests that [sched] takes. *)
Definition requests_for (sched : list (nat * JSON)) : nat :=
  sum_list (map (fun fp => S fp.1) sched).

(** ** Documents in the heap *)

Fixpoint JSON_ind' (P : JSON -> Prop)
    (Hatom : forall a, P (JAtom a))
    (Harr : forall js, Forall P js -> P (JArr js))
    (Hobj : forall kvs, Forall (fun kv => P kv.2) kvs -> P (JObj kvs))
    (j : JSON) : P j :=
  match j with
  | JAtom a => Hatom a
  | JArr js =>
      Harr js
        ((fix go (js : list JSON) : Forall P js :=
            match js with
            | [] => List.Forall_nil P
            | j :: rest => @List.Forall_cons _ P j rest (JSON_ind' P Hatom Harr Hobj j) (go rest)
            end) js)
  | JObj kvs =>
      Hobj kvs
        ((fix go (kvs : list (string * JSON)) : Forall (fun kv => P kv.2) kvs :=
            match kvs with
            | [] => List.Forall_nil _
            | kv :: rest =>
                @List.Forall_cons _ (fun kv => P kv.2) kv rest
                  (JSON_ind' P Hatom Harr Hobj kv.2) (go rest)
            end) kvs)
  end.

(** [rep h lo hi v j]: in heap [h] the value [v] is the decoded document
    [j], built from objects at locations in [lo, hi), each object above the
    ones it holds. *)
#[warnings="-register-all"]
Inductive rep (h : list obj) : nat -> nat -> val -> JSON -> Prop :=
  | rep_atom lo hi a : rep h lo hi (VAtom a) (JAtom a)
  | rep_arr lo hi l vs js :
      (lo <= l < hi)%nat ->
      h !! l = Some (OList vs) ->
      Forall2 (rep h lo l) vs js ->
      rep h lo hi (VRef l) (JArr js)
  | rep_obj lo hi l dkvs kvs :
      (lo <= l < hi)%nat ->
      h !! l = Some (ODict dkvs) ->
      Forall2 (fun d m => d.1 = m.1 /\ rep h lo l d.2 m.2) dkvs (dict_of kvs) ->
      rep h lo hi (VRef l) (JObj kvs).

(** [v] is the decoded document [j]. *)
Definition represents (h : list obj) (v : val) (j : JSON) : Prop :=
  exists lo hi, rep h lo hi v j.

(** The member of an object that the decoder keeps under [key]. *)
Definition json_get (key : string) (j : JSON) : option JSON :=
  match j with
  | JObj kvs => dict_get key (dict_of kvs)
  | _ => None
  end.

Definition load_list : list JSON -> list obj -> list val * list obj :=
  fix go (js : list JSON) (h : list obj) : list val * list obj :=
    match js with
    | [] => ([], h)
    | j :: rest =>
        let '(v, h1) := load j h in
        let '(vs, h2) := go rest h1 in (v :: vs, h2)
    end.

Definition load_members : list (string * JSON) -> list obj -> list (string * val) * list obj :=
  fix go (kvs : list (string * JSON)) (h : list obj) : list (string * val) * list obj :=
    match kvs with
    | [] => ([], h)
    | (k, j) :: rest =>
        let '(v, h1) := load j h in
        let '(vs, h2) := go rest h1 in ((k, v) :: vs, h2)
    end.

(** An element of the list being built: a decoded document that lies wholly
    below or wholly above the list itself. *)
Definition elem (li : nat) (h : list obj) (v : val) (j : JSON) : Prop :=
  exists lo hi, rep h lo hi v j /\ (hi <= length h)%nat /\ (hi <= li \/ li < lo)%nat.

(** ** Pages *)

(** A page that is followed by another one: its [next] is a non-empty text
    (and it has the [total] that the progress line prints). *)
Definition leads_on (p : JSON) : Prop :=
  (exists u, json_get "next" p = Some (JStr u) /\ u <> "") /\ json_get "total" p <> None.

(** Pages that all lead on: each has an [items] array and a [next]. *)
Definition open_page (p : JSON) : Prop :=
  (exists its, json_get "items" p = Some (JArr its)) /\ leads_on p.

(** [chain p later last rest]: the pages [later] follow [p], each reached
    through the [next] of the one before; [last] is the final one and [rest]
    the items of [later]. *)
Inductive chain : JSON -> list JSON -> JSON -> list JSON -> Prop :=
  | chain_end p : chain p [] p []
  | chain_next p p' later last its' rest :
      leads_on p ->
      json_get "items" p' = Some (JArr its') ->
      chain p' later last rest ->
      chain p (p' :: later) last (its' ++ rest).

(** [paged pages all]: a listing in pages. Every page has an [items] array;
    every page but the last leads on, the last has [next] null; [all] is the
    items of the pages, in page order. *)
Inductive paged : list JSON -> list JSON -> Prop :=
  | paged_last p its :
      json_get "items" p = Some (JArr its) ->
      json_get "next" p = Some JNull ->
      paged [p] its
  | paged_more p its pages rest :
      json_get "items" p = Some (JArr its) ->
      leads_on p ->
      paged pages rest ->
      paged (p :: pages) (its ++ rest).

(** The state of the walk at the head of the loop: [response] is the page
    [p], the list at [li] holds the items [acc] gathered so far, and the
    default mapping of [get] can be read. *)
Definition walking (w : World) (response : val) (p : JSON) (li : nat) (acc : list JSON)
  : Prop :=
  (exists lo hi, rep (heap w) lo hi response p) /\
  (exists vs, heap w !! li = Some (OList vs) /\ Forall2 (elem li (heap w)) vs acc) /\
  (exists q0, query_at (heap w) get_params_default q0).

(** ** The login server *)

(** The requests that end the serving loop: one whose client has gone
    before the response is written, whatever it asks for, and a GET of
    [/token?...]. *)
Definition stops (r : HttpRequest) : bool :=
  match hangup r with
  | Some _ => true
  | None => String.eqb (command r) "GET" && startswith (path r) "/token?"
  end.

Definition redirect_page : Sent :=
  Page 200 [("Content-Type", "text/html")]
    ("<script>location.replace(" +:+ dq +:+ "token?" +:+ dq +:+
     " + location.hash.slice(1));</script>").

Definition thanks_page : Sent :=
  Page 200 [("Content-Type", "text/html")]
    "<script>close()</script>Thanks! You may now close this window.".

(** What the server sends back for a request whose client is still there. *)
Definition answer (r : HttpRequest) : Sent :=
  if negb (String.eqb (command r) "GET") then ErrorPage 501
  else if startswith (path r) "/redirect" then redirect_page
  else if startswith (path r) "/token?" then thanks_page
  else ErrorPage 404.

(** The responses in a trace, oldest first. *)
Definition responses (t : list Event) : list Sent :=
  omap (fun e => match e with Respond s => Some s | _ => None end) t.

(** The world after the requests [rs], none of which stops the loop, have
    been taken and answered, with [rest] still to come. *)
Definition answered (rs rest : list HttpRequest) (w : World) : World :=
  {| heap := heap w; trace := trace w ++ map (fun r => Respond (answer r)) rs;
     ticks := ticks w; incoming := rest; transport := transport w; clock := clock w |}.

(** The world in which the serving loop starts. *)
Definition listening (client_id scope : string) (w : World) : World :=
  emit (Listen "0.0.0.0" SpotifyAPI._SERVER_PORT)
    (emit (BrowserOpen (SpotifyAPI.authorize_url client_id scope))
       (emit (LogInfo (LoggingIn (SpotifyAPI.authorize_url client_id scope))) w)).

(** ** What a run keeps *)

(** [triple P m I R]: from a world in [P], the run [m] ends in a world in
    [I] whatever its outcome, and in [R a] when it returns [a]. *)
Definition triple {A} (P : World -> Prop) (m : M A) (I : World -> Prop)
    (R : A -> World -> Prop) : Prop :=
  forall w, P w -> I (m w).2 /\ forall a, (m w).1 = Ret a -> R a (m w).2.

(** The objects of [h0] are all still there, unchanged. *)
Definition kept (h0 : list obj) (w : World) : Prop :=
  (length h0 <= length (heap w))%nat /\
  forall l o, h0 !! l = Some o -> heap w !! l = Some o.

(** A value made after [h0]: a scalar, or an object above [h0]. *)
Definition fresh (h0 : list obj) (v : val) : Prop :=
  match v with
  | VAtom _ => True
  | VRef l => (length h0 <= l)%nat
  end.

(** Steps that read the world only. *)
Definition reads {A} (m : M A) : Prop := forall w, (m w).2 = w.

(** What [get] returns is a decoded document above the old heap, and the
    old heap is as it was. *)
Definition returned (h0 : list obj) (v : val) (w : World) : Prop :=
  kept h0 w /\ exists j lo hi, rep (heap w) lo hi v j /\ (length h0 <= lo)%nat.

(** ** Worlds to run the program in *)

(** The world right after the class body has run: the three default
    mappings and nothing else. *)
Definition boot (net : nat -> Request -> Reply) (reqs : list HttpRequest) : World :=
  {| heap := boot_heap; trace := []; ticks := 0; incoming := reqs;
     transport := net; clock := fun n => inject_Z (Z.of_nat n) |}.

(** A network on which every request fails. *)
Definition dead_net : nat -> Request -> Reply := fun _ _ => Failure (OSError "unreachable").

(** A network that fails twice and then answers. *)
Definition flaky_net (j : JSON) : nat -> Request -> Reply := fun n _ =>
  if (n <? 2)%nat then Failure (OSError "reset") else Document j.

(** The heap of [boot] with the mapping [{a: 1, b: 2}] on top. *)
Definition with_ab (w : World) : World :=
  with_heap (heap w ++ [ODict [("a", VAtom (AInt 1)); ("b", VAtom (AInt 2))]]) w.

(** The heap of [boot] with the mapping [{q: "AC/DC b&w=?", limit: 1}] on
    top. *)
Definition with_search_params (w : World) : World :=
  with_heap (heap w ++ [ODict [("q", VAtom (AStr "AC/DC b&w=?")); ("limit", VAtom (AInt 1))]])
    w.

(** A GET from a client that stays for the response. *)
Definition GET (p : string) : HttpRequest :=
  {| command := "GET"; path := p; hangup := None |}.

(** The browser's requests during a login: the redirect, a stray request,
    the token, and one that comes too late. *)
Definition login_requests : list HttpRequest :=
  [GET "/redirect"; GET "/favicon.ico";
   GET "/token?access_token=ABC123&token_type=Bearer"; GET "/late"].

(** A login during which the tab is closed while the redirect page is on
    its way; the token request that follows is never looked at. *)
Definition closed_tab_requests : list HttpRequest :=
  [{| command := "GET"; path := "/redirect"; hangup := Some "Connection reset by peer" |};
   GET "/token?access_token=ABC123&token_type=Bearer"].

Definition page_one : JSON :=
  JObj [("items", JArr [JStr "a"; JStr "b"]);
        ("next", JStr "https://api.spotify.com/v1/me/tracks?offset=2");
        ("total", JInt 3)].

Definition page_two : JSON :=
  JObj [("items", JArr [JStr "c"]); ("next", JNull); ("total", JInt 3)].

(** The pages of a listing in two parts. *)
Definition two_pages : nat -> Request -> Reply := fun n _ =>
  match n with
  | 0%nat => Document page_one
  | 1%nat => Document page_two
  | _ => Failure (OSError "no more")
  end.

(** A page without a [next] member, and a first page whose [next] is the
    empty text. *)
Definition no_next_net : nat -> Request -> Reply := fun n _ =>
  match n with
  | 0%nat => Document (JObj [("items", JArr [JStr "a"]); ("total", JInt 1)])
  | _ => Failure (OSError "no more")
  end.

Definition empty_next_net : nat -> Request -> Reply := fun n _ =>
  match n with
  | 0%nat => Document (JObj [("items", JArr [JStr "a"]); ("next", JStr ""); ("total", JInt 2)])
  | 1%nat => Document (JObj [("items", JArr [JStr "b"]); ("next", JNull); ("total", JInt 2)])
  | _ => Failure (OSError "no more")
  end.

(** The first page arrives, then the network is gone. *)
Definition one_page_net : nat -> Request -> Reply := fun n _ =>
  match n with
  | 0%nat => Document page_one
  | _ => Failure (OSError "unreachable")
  end.

(** ** Titles *)

(** Somewhere in [s] a [(] is closed by a [)] on the same line: what the
    pattern of line 203 matches. *)

Fixpoint has_group (s : string) : bool :=
  match s with
  | EmptyString => false
  | String c rest => (Ascii.eqb c "(" && closes rest) || has_group rest
  end.

(** Every byte is a continuation byte. *)
Fixpoint continues (s : string) : bool :=
  match s with
  | EmptyString => true
  | String c rest => is_continuation c && continues rest
  end.

(** One character: a byte and the continuation bytes that belong to it. *)
Definition is_char (c : string) : Prop :=
  match c with
  | EmptyString => False
  | String _ t => continues t = true
  end.

(** A character that starts with a leading byte. *)
Definition leading (c : string) : Prop :=
  match c with
  | EmptyString => False
  | String b _ => is_continuation b = false
  end.

(** [s] neither starts nor ends with a whitespace character. *)
Definition outer_space_free (s : string) : Prop :=
  (forall c, head (chars s) = Some c -> isspace c = false) /\
  (forall c, last (chars s) = Some c -> isspace c = false).

(** ** What a run adds to the trace *)

(** [emits E m]: whatever the world and the outcome, the events that [m]
    adds to the trace are all in [E], and no earlier event is lost. *)
Definition emits {A} (E : Event -> Prop) (m : M A) : Prop :=
  forall w, exists tr, trace (m w).2 = trace w ++ tr /\ Forall E tr.

(** The events of the retry loop and of the progress line. *)
Definition loop_event (e : Event) : Prop :=
  match e with
  | LogInfo (CouldntLoad _ _) | LogInfo TryingAgain | LogInfo (Loaded _ _) => True
  | Sleep secs => secs = 2
  | _ => False
  end.

(** A request to the API: the URL lies under [BASE] and the session's token
    is sent as a bearer token; [get] sends no body and no other header,
    [post] declares its body to be JSON. *)
Definition api_request (self : SpotifyAPI.t) (body : bool) (r : Request) : Prop :=
  startswith (req_url r) SpotifyAPI.BASE = true /\
  req_headers r =
    ("Authorization", "Bearer " +:+ SpotifyAPI._auth self) ::
    (if body then [("Content-Type", "application/json")] else []) /\
  (body = false -> req_data r = None).

Definition api_event (self : SpotifyAPI.t) (body : bool) (e : Event) : Prop :=
  match e with
  | Urlopen r => api_request self body r
  | _ => loop_event e
  end.

(** What one failed attempt leaves in the trace: the request, the line with
    the error, the pause and the line that announces the next try. *)
Definition failed_attempt (url : string) (req : Request) (err : exn) : list Event :=
  [Urlopen req; LogInfo (CouldntLoad url err); Sleep 2; LogInfo TryingAgain].

(** [retried n req errs r w w']: from [w] the loop sent [req] and got the
    errors [errs] one after the other; then either the network answered, within
    the [n] tries, and [r] is the decoded document, or the [n] tries were
    used up and [r] is exit status 1. *)
Definition retried (n : nat) (url : string) (req : Request) (errs : list exn)
    (r : Outcome val) (w w' : World) : Prop :=
  (forall i err, errs !! i = Some err ->
     transport w (attempts (trace w) + i)%nat req = Failure err) /\
  ((exists v j,
      r = Ret v /\ (length errs < n)%nat /\
      transport w (attempts (trace w) + length errs)%nat req = Document j /\
      represents (heap w') v j /\
      trace w' = trace w ++ flat_map (failed_attempt url req) errs ++ [Urlopen req]) \/
   (r = Exit 1 /\ length errs = n /\
    trace w' = trace w ++ flat_map (failed_attempt url req) errs)).

(** ** The login and [main] *)

(** What the local server adds to the trace while it serves: its responses
    and, at the end, the line about the token. *)
Definition serving_event (e : Event) : Prop :=
  match e with
  | Respond _ | LogInfo (ReceivedToken _) => True
  | _ => False
  end.

(** [Emits E m]: [emits] for a run of [main]. *)
Definition Emits {A} (E : Event -> Prop) (m : Prog A) : Prop :=
  forall p, exists tr, trace (world (m p).2) = trace (world p) ++ tr /\ Forall E tr.

(** An event that is not a request with a body. *)
Definition no_body (e : Event) : Prop :=
  match e with
  | Urlopen r => req_data r = None
  | _ => True
  end.

(** ** Runs of [main] to look at

    A file of two songs; a network that answers every request at once (the
    user, a track for the first song, nothing for the second, and a snapshot
    id for whatever comes then); the command lines of a dry run and of an
    import, both with a token. *)

Definition two_songs : list JSON :=
  [JObj [("title", JStr "Hey Jude (Remastered) "); ("artist", JStr "The Beatles")];
   JObj [("title", JStr "Nope"); ("artist", JStr "No body")]].

Definition shop (n : nat) : JSON :=
  match n with
  | 0%nat => JObj [("display_name", JStr "Ann"); ("id", JStr "ann")]
  | 1%nat =>
      JObj [("tracks", JObj [("items", JArr [
        JObj [("name", JStr "Hey Jude");
              ("artists", JArr [JObj [("name", JStr "Beatles")]]);
              ("uri", JStr "spotify:track:1")]])])]
  | 2%nat => JObj [("tracks", JObj [("items", JArr [])])]
  | _ => JObj [("snapshot_id", JStr "x")]
  end.

Definition shop_net : nat -> Request -> Reply := fun n _ => Document (shop n).

Definition dry_args : Args :=
  {| token := Some "T"; import := false; playlist := "PL"; file := Some (JArr two_songs) |}.

Definition import_args : Args :=
  {| token := Some "T"; import := true; playlist := "PL"; file := Some (JArr two_songs) |}.

Definition no_file : Args :=
  {| token := None; import := true; playlist := "PL"; file := None |}.

Definition at_start : Process := {| world := boot shop_net []; console := [] |}.

(** The texts of these runs are ASCII: the Unicode database is never asked. *)
Definition ascii_only : N -> bool := fun _ => false.

(** A file whose one song gives its artists as a list. *)
Definition band_songs : list JSON :=
  [JObj [("title", JStr "Hey Jude");
         ("artist", JArr [JStr "The Beatles"; JStr "Paul's band"])]].

Definition band_args : Args :=
  {| token := Some "T"; import := false; playlist := "PL"; file := Some (JArr band_songs) |}.

(** A value that lies in the heap [h], and a heap whose references all
    do: what Python's objects always are. *)
Definition in_heap (h : list obj) (v : val) : Prop :=
  match v with
  | VAtom _ => True
  | VRef l => (l < length h)%nat
  end.

Definition closed (h : list obj) : Prop :=
  forall l o, h !! l = Some o ->
    match o with
    | OList xs => Forall (in_heap h) xs
    | ODict kvs => Forall (fun kv => in_heap h kv.2) kvs
    end.


(** The URL of the search for [artist] and the cleaned [title], lines 204-208. *)
Definition search_url (artist title : string) : string :=
  "https://api.spotify.com/v1/search?q=" +:+ quote_plus (artist +:+ " " +:+ title) +:+
  "&type=track&limit=1".

(** The URL and the body of the request that adds the tracks [uris] to
    [playlist]; [q] is what the default [params] of [post] holds. *)
Definition tracks_url (playlist : string) (q : list (string * atom)) : string :=
  with_query ("https://api.spotify.com/v1/playlists/" +:+ playlist +:+ "/tracks") q.

Definition tracks_request (spotify : SpotifyAPI.t) (playlist : string)
    (q : list (string * atom)) (uris : list atom) : Request :=
  post_request spotify (tracks_url playlist q) (Some (JObj [("uris", JArr (map JAtom uris))])).

(** ** A whole run of [main] *)

(** A song of the input file, with its title and artist. *)
Definition is_song (j : JSON) (song : string * atom) : Prop :=
  json_get "title" j = Some (JStr song.1) /\ json_get "artist" j = Some (JAtom song.2).

(** What a search gave: nothing, or the name of the first track, the name
    of its first artist and its URI. *)
Definition Hit : Type := option (string * atom * atom).

Definition result (doc : JSON) (hit : Hit) : Prop :=
  exists tracks,
    json_get "tracks" doc = Some tracks /\
    match hit with
    | None => json_get "items" tracks = Some (JArr [])
    | Some (name, artist_name, uri) =>
        exists track rest artist others,
          json_get "items" tracks = Some (JArr (track :: rest)) /\
          json_get "name" track = Some (JStr name) /\
          json_get "artists" track = Some (JArr (artist :: others)) /\
          json_get "name" artist = Some (JAtom artist_name) /\
          json_get "uri" track = Some (JAtom uri)
    end.

(** The row and the request of a song, and the URIs that were found. *)
Definition row_for (song : string * atom) (hit : Hit) : list val :=
  match hit with
  | None =>
      [VAtom (AStr (clean_title song.1)); VAtom song.2; VAtom (AStr ""); VAtom (AStr "")]
  | Some (name, artist_name, _) =>
      [VAtom (AStr (clean_title song.1)); VAtom song.2; VAtom (AStr name); VAtom artist_name;
       VAtom (AInt (Z.of_nat (Levenshtein.distance (clean_title song.1) name)))]
  end.

Definition search_for (spotify : SpotifyAPI.t) (song : string * atom) : Request :=
  get_request spotify (search_url (py_str song.2) (clean_title song.1)).

Definition found_uris (hits : list Hit) : list atom :=
  omap (fun hit : Hit => match hit with Some (_, _, uri) => Some uri | None => None end) hits.

(** The line that line 198 logs for the user [display_name] with [id]. *)
Definition logged_in_as (display_name id : atom) : string :=
  "Logged in as " +:+ py_str display_name +:+ " (" +:+ py_str id +:+ ")".

(** ** A server that answers by the URL *)

(** [follows site p urls rest]: on a server that holds the document
    [site u] at the URL [u], the listing goes on after the page [p] with the
    pages at [urls], whose items are [rest]. Each page names the next one in
    its [next] (and has the [total] that the progress line prints); the last
    one has [next] null. *)
Inductive follows (site : string -> option JSON) : JSON -> list string -> list JSON -> Prop :=
  | follows_end p :
      json_get "next" p = Some JNull -> follows site p [] []
  | follows_next p v p' its' urls rest :
      json_get "next" p = Some (JStr v) -> v <> "" -> json_get "total" p <> None ->
      site (prefixed v) = Some p' ->
      json_get "items" p' = Some (JArr its') ->
      follows site p' urls rest ->
      follows site p (prefixed v :: urls) (its' ++ rest).

(** A site of two pages, the second named by the first with a relative URL. *)
Definition two_page_site (u : string) : option JSON :=
  if String.eqb u "https://api.spotify.com/v1/me/tracks" then
    Some (JObj [("items", JArr [JStr "a"; JStr "b"]); ("next", JStr "me/tracks?offset=2");
                ("total", JInt 3)])
  else if String.eqb u "https://api.spotify.com/v1/me/tracks?offset=2" then
    Some (JObj [("items", JArr [JStr "c"]); ("next", JNull); ("total", JInt 3)])
  else None.

Definition site_net (site : string -> option JSON) : nat -> Request -> Reply := fun _ r =>
  match site (req_url r) with
  | Some p => Document p
  | None => Failure (OSError "not found")
  end.

(** * Properties *)

(** ** The library functions on examples *)

Example quote_plus_space : quote_plus "a b" = "a+b".
Proof. reflexivity. Qed.

Example quote_plus_uri :
  quote_plus "http://127.0.0.1:43019/redirect" = "http%3A%2F%2F127.0.0.1%3A43019%2Fredirect".
Proof. reflexivity. Qed.

Example urlencode_ab : urlencode [("a", AInt 1); ("b", AInt 2)] = "a=1&b=2".
Proof. reflexivity. Qed.

Example str_int_neg : str_int (-50) = "-50" /\ str_int 0 = "0".
Proof. split; reflexivity. Qed.

Example chars_utf8 : chars "añb" = ["a"; "ñ"; "b"] /\ quote_plus "ñ" = "%C3%B1".
Proof. split; reflexivity. Qed.

Example dict_of_twice :
  dict_of [("a", 1); ("b", 2); ("a", 3)] = [("a", 3); ("b", 2)].
Proof. reflexivity. Qed.

Example extend_in_place :
  (iadd (VRef 0%nat) (VRef 1%nat)
     {| heap := [OList [VAtom (AInt 1)]; OList [VAtom (AInt 2)]]; trace := []; ticks := 0;
        incoming := []; transport := fun _ _ => Failure TypeError;
        clock := fun _ => 0%Q |}).1 = Ret (VRef 0%nat).
Proof. reflexivity. Qed.

(** ** Runs of the primitive steps *)

Lemma attempts_app (t u : list Event) : attempts (t ++ u) = (attempts t + attempts u)%nat.
Proof. unfold attempts. by rewrite filter_app, length_app. Qed.

Lemma requests_app t u : requests (t ++ u) = requests t ++ requests u.
Proof. apply omap_app. Qed.

Lemma attempts_emit_urlopen (w : World) (r : Request) :
  attempts (trace (emit (Urlopen r) w)) = S (attempts (trace w)).
Proof. simpl. rewrite attempts_app. unfold attempts at 2. simpl. lia. Qed.

Lemma bind_Ret {A B} (m : M A) (k : A -> M B) (w w' : World) (a : A) :
  m w = (Ret a, w') -> bind m k w = k a w'.
Proof. unfold bind. by intros ->. Qed.

(** Take the first step of a run, whose result [H] gives. *)
Ltac step H := rewrite (bind_Ret _ _ _ _ _ H).

(** The reading of the clock. *)
Ltac step_clock w :=
  rewrite (bind_Ret time_time _ w (tick w) (clock w (ticks w)) eq_refl).

Lemma scalar_items_length kvs q : scalar_items kvs = Some q -> length q = length kvs.
Proof.
  revert q. induction kvs as [|[k [a|l]] kvs IH]; simpl; intros q H; simplify_eq; auto.
  destruct (scalar_items kvs) as [q'|]; simplify_eq/=. f_equal. auto.
Qed.

Lemma build_url_run (w : World) (url : string) (params : loc) (q : list (string * atom)) :
  query_at (heap w) params q ->
  SpotifyAPI.build_url url params w = (Ret (with_query (prefixed url) q), w).
Proof.
  intros (kvs & Hp & Hq). pose proof (scalar_items_length _ _ Hq) as Hlen.
  unfold prefixed, with_query.
  cbv [SpotifyAPI.build_url bind truthy deref urlencode_at ret].
  rewrite Hp.
  destruct kvs as [|kv kvs], q as [|x q]; try discriminate; cbn [length Nat.eqb negb].
  - by destruct (startswith url SpotifyAPI.BASE).
  - rewrite Hp, Hq. by destruct (startswith url SpotifyAPI.BASE).
Qed.

(** ** The retry loop *)

Lemma surroundings_kept_refl w : surroundings_kept w w.
Proof. by repeat split. Qed.

Lemma surroundings_kept_trans w1 w2 w3 :
  surroundings_kept w1 w2 -> surroundings_kept w2 w3 -> surroundings_kept w1 w3.
Proof. unfold surroundings_kept. intros (?&?&?) (?&?&?). repeat split; congruence. Qed.

Lemma after_failure_attempts url req err w :
  attempts (trace (after_failure url req err w)) = S (attempts (trace w)).
Proof.
  unfold after_failure. simpl. rewrite !attempts_app. unfold attempts. simpl. lia.
Qed.

Lemma retrying_step_fail n url req err w :
  transport w (attempts (trace w)) req = Failure err ->
  retrying (S n) url (j <- urlopen req ;; json_load j) w =
  retrying n url (j <- urlopen req ;; json_load j) (after_failure url req err w).
Proof.
  intros H. cbn [retrying]. unfold try_except at 1, bind at 1, urlopen at 1.
  rewrite H. reflexivity.
Qed.

Lemma retrying_step_ok n url req j w :
  transport w (attempts (trace w)) req = Document j ->
  retrying (S n) url (j <- urlopen req ;; json_load j) w =
  (Ret (load j (heap w)).1, with_heap (load j (heap w)).2 (emit (Urlopen req) w)).
Proof.
  intros H. cbn [retrying]. unfold try_except at 1, bind at 1, urlopen at 1.
  rewrite H. unfold json_load. simpl heap. by destruct (load j (heap w)).
Qed.

(** Every attempt fails: [n] times the same request, then [sys.exit(1)]. *)
Lemma retrying_all_fail n url req w :
  (forall i, (i < n)%nat ->
     exists err, transport w (attempts (trace w) + i)%nat req = Failure err) ->
  exists w',
    retrying n url (j <- urlopen req ;; json_load j) w = (Exit 1, w') /\
    attempts (trace w') = (attempts (trace w) + n)%nat /\
    heap w' = heap w /\ ticks w' = ticks w /\ surroundings_kept w w' /\
    exists tr, trace w' = trace w ++ tr /\ requests tr = replicate n req.
Proof.
  revert w. induction n as [|n IH]; intros w Hfail.
  - exists w. simpl. repeat split; auto with lia. exists []. by rewrite app_nil_r.
  - destruct (Hfail 0%nat) as [err Herr]; [lia|]. rewrite Nat.add_0_r in Herr.
    rewrite (retrying_step_fail _ _ _ _ _ Herr).
    destruct (IH (after_failure url req err w))
      as (w' & Hrun & Hatt & Hh & Ht & Hs & tr & Htr & Hreq).
    { intros i Hi. rewrite after_failure_attempts. simpl transport.
      destruct (Hfail (S i)) as [e He]; [lia|]. exists e. rewrite <- He. f_equal. lia. }
    exists w'. rewrite Hrun, Hatt, after_failure_attempts, Hh, Ht.
    repeat split; auto with lia; try apply Hs.
    exists ([Urlopen req; LogInfo (CouldntLoad url err); Sleep 2; LogInfo TryingAgain] ++ tr).
    split.
    + rewrite Htr. unfold after_failure. simpl. by rewrite <- !app_assoc.
    + rewrite requests_app, Hreq. reflexivity.
Qed.

(** The first [m] attempts fail and the next one is answered: the answer is
    decoded and returned. *)
Lemma retrying_answered n m url req j w :
  (m < n)%nat ->
  (forall i, (i < m)%nat ->
     exists err, transport w (attempts (trace w) + i)%nat req = Failure err) ->
  transport w (attempts (trace w) + m)%nat req = Document j ->
  exists w',
    retrying n url (j <- urlopen req ;; json_load j) w = (Ret (load j (heap w)).1, w') /\
    attempts (trace w') = (attempts (trace w) + S m)%nat /\
    heap w' = (load j (heap w)).2 /\ ticks w' = ticks w /\ surroundings_kept w w'.
Proof.
  revert n w. induction m as [|m IH]; intros n w Hlt Hfail Hok.
  - destruct n as [|n]; [lia|]. rewrite Nat.add_0_r in Hok.
    rewrite (retrying_step_ok _ _ _ _ _ Hok). eexists. split; [reflexivity|].
    cbn [with_heap trace heap ticks]. rewrite attempts_emit_urlopen.
    repeat split; auto with lia.
  - destruct n as [|n]; [lia|].
    destruct (Hfail 0%nat) as [err Herr]; [lia|]. rewrite Nat.add_0_r in Herr.
    rewrite (retrying_step_fail _ _ _ _ _ Herr).
    destruct (IH n (after_failure url req err w)) as (w' & Hrun & Hatt & Hh & Ht & Hs).
    { lia. }
    { intros i Hi. rewrite after_failure_attempts. simpl transport.
      destruct (Hfail (S i)) as [e He]; [lia|]. exists e. rewrite <- He. f_equal. lia. }
    { rewrite after_failure_attempts. simpl transport. rewrite <- Hok. f_equal. lia. }
    exists w'. rewrite Hrun, Hatt, after_failure_attempts, Hh, Ht.
    repeat split; auto with lia; apply Hs.
Qed.

(** ** Documents in the heap *)

Lemma dict_set_values {A} (P : A -> Prop) k v (d : list (string * A)) :
  P v -> Forall (fun kv => P kv.2) d -> Forall (fun kv => P kv.2) (dict_set k v d).
Proof.
  intros Hv. induction 1 as [|[k' v'] d Hx Hd IH]; simpl.
  - by repeat constructor.
  - destruct (String.eqb k k'); constructor; auto.
Qed.

Lemma dict_of_values {A} (P : A -> Prop) (kvs : list (string * A)) :
  Forall (fun kv => P kv.2) kvs -> Forall (fun kv => P kv.2) (dict_of kvs).
Proof.
  unfold dict_of. generalize (@nil (string * A)) (List.Forall_nil (fun kv : string * A => P kv.2)).
  induction kvs as [|[k v] kvs IH]; intros acc Hacc Hall; simpl; auto.
  inversion Hall; subst. apply IH; auto. by apply dict_set_values.
Qed.

Lemma rep_weaken h j : forall lo hi lo' hi' v,
  rep h lo hi v j -> (lo' <= lo)%nat -> (hi <= hi')%nat -> rep h lo' hi' v j.
Proof.
  induction j as [a|js IH|kvs IH] using JSON_ind'; intros lo hi lo' hi' v Hrep Hlo Hhi.
  - inversion Hrep; subst. constructor.
  - inversion Hrep as [|? ? l vs ? Hl Hlook Hall|]; subst.
    apply rep_arr with vs; [lia|done|].
    clear Hrep Hlook. revert IH. induction Hall as [|x y xs ys Hxy Hall IHall]; intros IH.
    + constructor.
    + inversion IH; subst. constructor; eauto.
  - inversion Hrep as [| |? ? l dkvs ? Hl Hlook Hall]; subst.
    apply rep_obj with dkvs; [lia|done|].
    apply (dict_of_values (fun j => forall lo hi lo' hi' v,
      rep h lo hi v j -> (lo' <= lo)%nat -> (hi <= hi')%nat -> rep h lo' hi' v j)) in IH.
    clear Hrep Hlook.
    revert IH. induction Hall as [|x y xs ys [Hk Hxy] Hall IHall]; intros IH.
    + constructor.
    + inversion IH; subst. constructor; eauto.
Qed.

(** A document does not depend on the heap outside its locations. *)
Lemma rep_frame h h' j : forall lo hi v,
  rep h lo hi v j ->
  (forall l, (lo <= l < hi)%nat -> h' !! l = h !! l) ->
  rep h' lo hi v j.
Proof.
  induction j as [a|js IH|kvs IH] using JSON_ind'; intros lo hi v Hrep Hsame.
  - inversion Hrep; subst. constructor.
  - inversion Hrep as [|? ? l vs ? Hl Hlook Hall|]; subst.
    apply rep_arr with vs; [lia|by rewrite Hsame|].
    assert (Hsame' : forall l', (lo <= l' < l)%nat -> h' !! l' = h !! l')
      by (intros; apply Hsame; lia).
    clear Hrep Hlook. revert IH. induction Hall as [|x y xs ys Hxy Hall IHall]; intros IH.
    + constructor.
    + inversion IH; subst. constructor; eauto.
  - inversion Hrep as [| |? ? l dkvs ? Hl Hlook Hall]; subst.
    apply rep_obj with dkvs; [lia|by rewrite Hsame|].
    assert (Hsame' : forall l', (lo <= l' < l)%nat -> h' !! l' = h !! l')
      by (intros; apply Hsame; lia).
    apply (dict_of_values (fun j => forall lo hi v,
      rep h lo hi v j -> (forall l, (lo <= l < hi)%nat -> h' !! l = h !! l) ->
      rep h' lo hi v j)) in IH.
    clear Hrep Hlook.
    revert IH. induction Hall as [|x y xs ys [Hk Hxy] Hall IHall]; intros IH.
    + constructor.
    + inversion IH; subst. constructor; eauto.
Qed.

(** The references of a document lie in its range. *)
Lemma rep_ref_range h lo hi l j : rep h lo hi (VRef l) j -> (lo <= l < hi)%nat.
Proof. by inversion 1. Qed.

Lemma load_arr js h :
  load (JArr js) h =
  (VRef (length (load_list js h).2), (load_list js h).2 ++ [OList (load_list js h).1]).
Proof. change (load (JArr js) h) with
  (let '(vs, h1) := load_list js h in (VRef (length h1), h1 ++ [OList vs])).
  by destruct (load_list js h).
Qed.

Lemma load_obj kvs h :
  load (JObj kvs) h =
  (VRef (length (load_members kvs h).2),
   (load_members kvs h).2 ++ [ODict (dict_of (load_members kvs h).1)]).
Proof. change (load (JObj kvs) h) with
  (let '(vs, h1) := load_members kvs h in (VRef (length h1), h1 ++ [ODict (dict_of vs)])).
  by destruct (load_members kvs h).
Qed.

Lemma Forall2_dict_set {A B} (R : A -> B -> Prop) k v j
    (d : list (string * A)) (m : list (string * B)) :
  R v j ->
  Forall2 (fun x y => x.1 = y.1 /\ R x.2 y.2) d m ->
  Forall2 (fun x y => x.1 = y.1 /\ R x.2 y.2) (dict_set k v d) (dict_set k j m).
Proof.
  intros Hvj. induction 1 as [|[k1 v1] [k2 v2] d m [Hk Hv] Hall IH]; simpl in *.
  - by repeat constructor.
  - subst k2. destruct (String.eqb k k1); constructor; auto.
Qed.

Lemma Forall2_dict_of {A B} (R : A -> B -> Prop)
    (a : list (string * A)) (b : list (string * B)) :
  Forall2 (fun x y => x.1 = y.1 /\ R x.2 y.2) a b ->
  Forall2 (fun x y => x.1 = y.1 /\ R x.2 y.2) (dict_of a) (dict_of b).
Proof.
  unfold dict_of.
  assert (Hacc : Forall2 (fun (x : string * A) (y : string * B) => x.1 = y.1 /\ R x.2 y.2) [] [])
    by constructor.
  revert Hacc. generalize (@nil (string * A)) (@nil (string * B)).
  intros d m Hacc Hall. revert d m Hacc.
  induction Hall as [|[k1 v1] [k2 v2] a b [Hk Hv] Hall IH]; intros d m Hacc; simpl in *; auto.
  subst k2. apply IH. by apply Forall2_dict_set.
Qed.

Lemma Forall2_dict_get {A B} (R : A -> B -> Prop) k
    (d : list (string * A)) (m : list (string * B)) :
  Forall2 (fun x y => x.1 = y.1 /\ R x.2 y.2) d m ->
  match dict_get k d, dict_get k m with
  | Some v, Some j => R v j
  | None, None => True
  | _, _ => False
  end.
Proof.
  induction 1 as [|[k1 v1] [k2 v2] d m [Hk Hv] Hall IH]; simpl in *; auto.
  subst k2. by destruct (String.eqb k k1).
Qed.

(** Decoding allocates above what is there and yields the document. *)
Lemma load_rep j : forall h,
  (exists ext, (load j h).2 = h ++ ext) /\
  rep (load j h).2 (length h) (length (load j h).2) (load j h).1 j.
Proof.
  induction j as [a|js IH|kvs IH] using JSON_ind'; intros h.
  - simpl. split; [exists []; by rewrite app_nil_r|constructor].
  - rewrite load_arr. cbn [fst snd].
    assert (Hl : (exists ext, (load_list js h).2 = h ++ ext) /\
                 Forall2 (rep (load_list js h).2 (length h) (length (load_list js h).2))
                   (load_list js h).1 js).
    { clear -IH. revert h. induction IH as [|j js Hj Hjs IHjs]; intros h.
      - simpl. split; [exists []; by rewrite app_nil_r|constructor].
      - cbn [load_list]. destruct (Hj h) as [[e1 He1] Hr1].
        destruct (load j h) as [v h1] eqn:Hload. cbn [fst snd] in *.
        change ((fix go (js0 : list JSON) (h0 : list obj) {struct js0} :
                   list val * list obj :=
                   match js0 with
                   | [] => ([], h0)
                   | j0 :: rest =>
                       let '(v0, h2) := load j0 h0 in
                       let '(vs, h3) := go rest h2 in (v0 :: vs, h3)
                   end) js h1) with (load_list js h1).
        destruct (IHjs h1) as [[e2 He2] Hr2].
        destruct (load_list js h1) as [vs h2]. cbn [fst snd] in *. subst h1 h2.
        split; [exists (e1 ++ e2); by rewrite app_assoc|].
        constructor.
        + apply rep_weaken with (length h) (length (h ++ e1));
            [|lia|rewrite !length_app; lia].
          apply rep_frame with (h ++ e1); [done|].
          intros l Hl. apply lookup_app_l. lia.
        + eapply Forall2_impl; [exact Hr2|]. intros x y Hxy.
          apply rep_weaken with (length (h ++ e1)) (length ((h ++ e1) ++ e2));
            [done|rewrite length_app; lia|lia]. }
    destruct Hl as [[ext Hext] Hall].
    destruct (load_list js h) as [vs h1]. cbn [fst snd] in *. subst h1.
    split; [exists (ext ++ [OList vs]); by rewrite app_assoc|].
    apply rep_arr with vs.
    + rewrite !length_app. simpl. lia.
    + by rewrite list_lookup_middle.
    + eapply Forall2_impl; [exact Hall|]. intros x y Hxy.
      apply rep_frame with (h ++ ext); [done|].
      intros l Hl. apply lookup_app_l. lia.
  - rewrite load_obj. cbn [fst snd].
    assert (Hl : (exists ext, (load_members kvs h).2 = h ++ ext) /\
                 Forall2 (fun d m => d.1 = m.1 /\
                            rep (load_members kvs h).2 (length h)
                              (length (load_members kvs h).2) d.2 m.2)
                   (load_members kvs h).1 kvs).
    { clear -IH. revert h. induction IH as [|[k j] kvs Hj Hjs IHjs]; intros h.
      - simpl. split; [exists []; by rewrite app_nil_r|constructor].
      - cbn [load_members]. cbn [snd] in Hj. destruct (Hj h) as [[e1 He1] Hr1].
        destruct (load j h) as [v h1] eqn:Hload. cbn [fst snd] in *.
        change ((fix go (kvs0 : list (string * JSON)) (h0 : list obj) {struct kvs0} :
                   list (string * val) * list obj :=
                   match kvs0 with
                   | [] => ([], h0)
                   | (k0, j0) :: rest =>
                       let '(v0, h2) := load j0 h0 in
                       let '(vs, h3) := go rest h2 in ((k0, v0) :: vs, h3)
                   end) kvs h1) with (load_members kvs h1).
        destruct (IHjs h1) as [[e2 He2] Hr2].
        destruct (load_members kvs h1) as [vs h2]. cbn [fst snd] in *. subst h1 h2.
        split; [exists (e1 ++ e2); by rewrite app_assoc|].
        constructor.
        + split; [done|]. cbn [snd].
          apply rep_weaken with (length h) (length (h ++ e1));
            [|lia|rewrite !length_app; lia].
          apply rep_frame with (h ++ e1); [done|].
          intros l Hl. apply lookup_app_l. lia.
        + eapply Forall2_impl; [exact Hr2|]. intros x y [Hk Hxy]. split; [done|].
          apply rep_weaken with (length (h ++ e1)) (length ((h ++ e1) ++ e2));
            [done|rewrite length_app; lia|lia]. }
    destruct Hl as [[ext Hext] Hall].
    destruct (load_members kvs h) as [vs h1]. cbn [fst snd] in *. subst h1.
    split; [exists (ext ++ [ODict (dict_of vs)]); by rewrite app_assoc|].
    apply rep_obj with (dict_of vs).
    + rewrite !length_app. simpl. lia.
    + by rewrite list_lookup_middle.
    + apply (Forall2_dict_of (fun v j => rep ((h ++ ext) ++ [ODict (dict_of vs)])
                                         (length h) (length (h ++ ext)) v j)).
      eapply Forall2_impl; [exact Hall|]. intros x y [Hk Hxy]. split; [done|].
      apply rep_frame with (h ++ ext); [done|].
      intros l Hl. apply lookup_app_l. lia.
Qed.

(** ** Requests of [get] and [post] *)

Lemma get_run self url params q tries w :
  query_at (heap w) params q ->
  SpotifyAPI.get self url params tries w =
  retrying (Z.to_nat tries) (with_query (prefixed url) q)
    (j <- urlopen (get_request self (with_query (prefixed url) q)) ;; json_load j) w.
Proof.
  intros Hq. unfold SpotifyAPI.get.
  by step (build_url_run w url params q Hq).
Qed.

Lemma post_run self url params q data body tries w :
  query_at (heap w) params q ->
  body_of (heap w) data = Some body ->
  SpotifyAPI.post self url params data tries w =
  retrying (Z.to_nat tries) (with_query (prefixed url) q)
    (j <- urlopen (post_request self (with_query (prefixed url) q) body) ;; json_load j) w.
Proof.
  intros Hq Hb. unfold SpotifyAPI.post.
  step (build_url_run w url params q Hq).
  assert (Hd : (match data with
                | VAtom ANone => ret None
                | _ => j <- json_dumps data ;; ret (Some j)
                end) w = (Ret body, w)).
  { unfold body_of in Hb.
    assert (Hgen : Some <$> reify (S (length (heap w))) (heap w) data = Some body ->
                   (j <- json_dumps data ;; ret (Some j)) w = (Ret body, w)).
    { unfold bind, json_dumps.
      destruct (reify (S (length (heap w))) (heap w) data); [|discriminate].
      intros [= <-]. reflexivity. }
    destruct data as [[| | |]|]; auto. by injection Hb as <-. }
  by step Hd.
Qed.

(** Whatever the network does, the retry loop only adds to the trace and to
    the heap, and every request it sends is the same one. *)
Lemma retrying_adds n url req w :
  exists tr ext k,
    trace (retrying n url (j <- urlopen req ;; json_load j) w).2 = trace w ++ tr /\
    heap (retrying n url (j <- urlopen req ;; json_load j) w).2 = heap w ++ ext /\
    requests tr = replicate k req /\ (k <= n)%nat /\ (n <> 0%nat -> k <> 0%nat) /\
    ticks (retrying n url (j <- urlopen req ;; json_load j) w).2 = ticks w /\
    surroundings_kept w (retrying n url (j <- urlopen req ;; json_load j) w).2.
Proof.
  revert w. induction n as [|n IH]; intros w.
  - exists [], [], 0%nat. simpl. rewrite !app_nil_r.
    repeat split; auto with lia.
  - destruct (transport w (attempts (trace w)) req) as [err|j] eqn:Hreply.
    + rewrite (retrying_step_fail _ _ _ _ _ Hreply).
      destruct (IH (after_failure url req err w)) as (tr & ext & k & Ht & Hh & Hr & Hk & _ & Hti & Hs).
      exists ([Urlopen req; LogInfo (CouldntLoad url err); Sleep 2; LogInfo TryingAgain] ++ tr),
        ext, (S k).
      rewrite Ht, Hh, Hti. simpl.
      repeat split; auto with lia; try apply Hs.
      * by rewrite <- !app_assoc.
      * unfold requests in *. simpl. by rewrite Hr.
    + rewrite (retrying_step_ok _ _ _ _ _ Hreply).
      destruct (load_rep j (heap w)) as [[ext Hext] _].
      exists [Urlopen req], ext, 1%nat. simpl.
      repeat split; auto with lia.
Qed.

(** ** C2: the retry bound *)

(** C2. Against a transport that fails every call, [get] and [post] send
    their request exactly [tries] times, the same request each time, and
    then end the process with exit status 1; nothing is returned to the
    caller. ([params] is a mapping of scalars, and for [post] the data is
    something [json.dumps] accepts.) *)
Theorem retry_bound (self : SpotifyAPI.t) (url : string) (params : loc)
    (q : list (string * atom)) (data : val) (body : option JSON) (tries : Z) (w : World) :
  0 <= tries ->
  query_at (heap w) params q ->
  body_of (heap w) data = Some body ->
  (forall n r, exists err, transport w n r = Failure err) ->
  (exists w' tr,
     SpotifyAPI.get self url params tries w = (Exit 1, w') /\
     Z.of_nat (attempts (trace w')) = Z.of_nat (attempts (trace w)) + tries /\
     trace w' = trace w ++ tr /\
     requests tr =
       replicate (Z.to_nat tries) (get_request self (with_query (prefixed url) q))) /\
  (exists w' tr,
     SpotifyAPI.post self url params data tries w = (Exit 1, w') /\
     Z.of_nat (attempts (trace w')) = Z.of_nat (attempts (trace w)) + tries /\
     trace w' = trace w ++ tr /\
     requests tr =
       replicate (Z.to_nat tries) (post_request self (with_query (prefixed url) q) body)).
Proof.
  intros Htries Hq Hbody Hdead. split.
  - rewrite (get_run _ _ _ _ _ _ Hq).
    destruct (retrying_all_fail (Z.to_nat tries) (with_query (prefixed url) q)
                (get_request self (with_query (prefixed url) q)) w)
      as (w' & Hrun & Hatt & _ & _ & _ & tr & Htr & Hreq); [intros; apply Hdead|].
    exists w', tr. split; [exact Hrun|]. rewrite Hatt. split; [lia|done].
  - rewrite (post_run _ _ _ _ _ _ _ _ Hq Hbody).
    destruct (retrying_all_fail (Z.to_nat tries) (with_query (prefixed url) q)
                (post_request self (with_query (prefixed url) q) body) w)
      as (w' & Hrun & Hatt & _ & _ & _ & tr & Htr & Hreq); [intros; apply Hdead|].
    exists w', tr. split; [exact Hrun|]. rewrite Hatt. split; [lia|done].
Qed.

Lemma retry_bound_witness :
  (exists w' tr,
     SpotifyAPI.get (SpotifyAPI.new "T") "me" get_params_default 3
       (boot dead_net []) = (Exit 1, w') /\
     Z.of_nat (attempts (trace w')) = 0 + 3 /\
     trace w' = [] ++ tr /\
     requests tr = replicate 3 (get_request (SpotifyAPI.new "T") "https://api.spotify.com/v1/me")) /\
  (exists w' tr,
     SpotifyAPI.post (SpotifyAPI.new "T") "me" post_params_default
       (VAtom ANone) 3 (boot dead_net []) = (Exit 1, w') /\
     Z.of_nat (attempts (trace w')) = 0 + 3 /\
     trace w' = [] ++ tr /\
     requests tr =
       replicate 3 (post_request (SpotifyAPI.new "T") "https://api.spotify.com/v1/me" None)).
Proof.
  split.
  - apply (retry_bound (SpotifyAPI.new "T") "me" get_params_default [] (VAtom ANone) None 3
             (boot dead_net [])).
    + lia.
    + exists []. split; reflexivity.
    + reflexivity.
    + intros n r. eexists. reflexivity.
  - apply (retry_bound (SpotifyAPI.new "T") "me" post_params_default [] (VAtom ANone) None 3
             (boot dead_net [])).
    + lia.
    + exists []. split; reflexivity.
    + reflexivity.
    + intros n r. eexists. reflexivity.
Defined.

(** ** C5: recovery on the last attempt *)



(** ** Encoding and decoding *)

Lemma char_in_app (c : ascii) (a b : string) :
  char_in c (a +:+ b) = char_in c a || char_in c b.
Proof.
  induction a as [|d a IH]; [done|].
  change (String d a +:+ b) with (String d (a +:+ b)). cbn [char_in].
  by rewrite IH, orb_assoc.
Qed.

Lemma unquote_percent (c : ascii) (rest : string) :
  unquote (percent c +:+ rest) = String c (unquote rest).
Proof. destruct c as [[] [] [] [] [] [] [] []]; reflexivity. Qed.

Lemma percent_has_no (c d : ascii) :
  char_in c "%0123456789ABCDEF" = false -> char_in c (percent d) = false.
Proof.
  intros Hc. destruct d as [[] [] [] [] [] [] [] []]; cbn;
    cbn in Hc; repeat (apply orb_false_iff in Hc as [? Hc]);
    repeat (apply orb_false_iff; split); done.
Qed.

Lemma quote_has_no (c : ascii) (safe s : string) :
  char_in c ALWAYS_SAFE = false -> char_in c safe = false ->
  char_in c "%0123456789ABCDEF" = false ->
  char_in c (quote safe s) = false.
Proof.
  intros Ha Hs Hp. induction s as [|d s IH]; [done|]. cbn [quote].
  rewrite char_in_app, IH, orb_false_r.
  destruct (char_in d ALWAYS_SAFE || char_in d safe) eqn:Hd; [|by apply percent_has_no].
  cbn [char_in]. rewrite orb_false_r. destruct (Ascii.eqb_spec c d) as [->|]; [|done].
  by rewrite Ha, Hs in Hd.
Qed.

Lemma unquote_quote (safe s : string) :
  char_in "%" safe = false -> unquote (quote safe s) = s.
Proof.
  intros Hs. induction s as [|d s IH]; [done|]. cbn [quote].
  destruct (char_in d ALWAYS_SAFE || char_in d safe) eqn:Hd.
  - change (String d "" +:+ quote safe s) with (String d (quote safe s)). cbn [unquote].
    destruct (Ascii.eqb_spec d "%") as [->|_]; [|by rewrite IH].
    rewrite Hs in Hd. done.
  - by rewrite unquote_percent, IH.
Qed.

Lemma replace_char_absent (a b : ascii) (s : string) :
  char_in a s = false -> replace_char a b s = s.
Proof.
  induction s as [|c s IH]; [done|]. cbn [char_in replace_char]. intros H.
  apply orb_false_iff in H as [Hc H]. rewrite (Ascii.eqb_sym c a), Hc. by rewrite IH.
Qed.

Lemma replace_char_back (a b : ascii) (s : string) :
  char_in b s = false -> replace_char b a (replace_char a b s) = s.
Proof.
  induction s as [|c s IH]; [done|]. cbn [char_in replace_char]. intros H.
  apply orb_false_iff in H as [Hc H]. rewrite IH by done. f_equal.
  destruct (Ascii.eqb_spec c a) as [->|]; [by rewrite Ascii.eqb_refl|].
  by rewrite (Ascii.eqb_sym c b), Hc.
Qed.

Lemma replace_char_has_no (c a b : ascii) (s : string) :
  char_in c s = false -> Ascii.eqb c b = false -> char_in c (replace_char a b s) = false.
Proof.
  intros H Hb. induction s as [|d s IH]; [done|]. cbn [char_in replace_char] in *.
  apply orb_false_iff in H as [Hc H]. rewrite IH by done.
  by destruct (Ascii.eqb d a); rewrite ?Hb, ?Hc.
Qed.

(** [unquote_plus] undoes [quote_plus], for every text. *)
Lemma unquote_quote_plus (s : string) : unquote_plus (quote_plus s) = s.
Proof.
  unfold unquote_plus, quote_plus. destruct (negb (str_in " " s)).
  - rewrite replace_char_absent by (by apply quote_has_no). by apply unquote_quote.
  - rewrite replace_char_back by (by apply quote_has_no). by apply unquote_quote.
Qed.

(** An encoded value holds none of the characters that structure a query. *)
Lemma quote_plus_has_no (c : ascii) (s : string) :
  char_in c "&=?#+ " = true -> c <> "+"%char -> char_in c (quote_plus s) = false.
Proof.
  intros Hc Hplus. unfold quote_plus.
  assert (char_in c ALWAYS_SAFE = false /\ char_in c "%0123456789ABCDEF" = false /\
          (c = " "%char \/ char_in c " " = false)) as (Ha & Hp & Hsp).
  { cbn in Hc. repeat (apply orb_true_iff in Hc as [Hc|Hc]);
      try (apply Ascii.eqb_eq in Hc as ->; by auto); done. }
  destruct (negb (str_in " " s)); [by apply quote_has_no|].
  destruct Hsp as [->|Hsp].
  - clear. induction (quote " " s) as [|d t IH]; [done|]. cbn [char_in replace_char].
    rewrite IH, orb_false_r.
    by destruct (Ascii.eqb_spec d " ") as [->|];
      [|rewrite Ascii.eqb_sym; apply Ascii.eqb_neq].
  - apply replace_char_has_no; [by apply quote_has_no|by apply Ascii.eqb_neq].
Qed.

Lemma split_on_absent (c : ascii) (s : string) : char_in c s = false -> split_on c s = [s].
Proof.
  induction s as [|d s IH]; [done|]. cbn [char_in split_on]. intros H.
  apply orb_false_iff in H as [Hc H]. rewrite (Ascii.eqb_sym d c), Hc, IH; done.
Qed.

Lemma split_on_app (c : ascii) (a b : string) :
  char_in c a = false -> split_on c (a +:+ String c b) = a :: split_on c b.
Proof.
  induction a as [|d a IH]; intros H.
  - change ("" +:+ String c b) with (String c b). cbn [split_on]. by rewrite Ascii.eqb_refl.
  - cbn [char_in] in H. apply orb_false_iff in H as [Hc H].
    change (String d a +:+ String c b) with (String d (a +:+ String c b)).
    cbn [split_on]. by rewrite (Ascii.eqb_sym d c), Hc, IH.
Qed.

Lemma take_until_app (c : ascii) (a rest : string) :
  char_in c a = false -> rest = "" \/ startswith rest (String c "") = true ->
  take_until c (a +:+ rest) = a.
Proof.
  intros Ha Hrest. induction a as [|d a IH].
  - destruct Hrest as [->|Hrest]; [done|]. destruct rest as [|e rest]; [done|].
    cbn [startswith] in Hrest. apply andb_true_iff in Hrest as [He _].
    apply Ascii.eqb_eq in He as <-. change ("" +:+ String c rest) with (String c rest).
    cbn [take_until]. by rewrite Ascii.eqb_refl.
  - cbn [char_in] in Ha. apply orb_false_iff in Ha as [Hd Ha].
    change (String d a +:+ rest) with (String d (a +:+ rest)). cbn [take_until].
    by rewrite (Ascii.eqb_sym d c), Hd, IH.
Qed.

Lemma drop_until_app (c : ascii) (a b : string) :
  char_in c a = false -> drop_until c (a +:+ String c b) = b.
Proof.
  induction a as [|d a IH]; intros H.
  - change ("" +:+ String c b) with (String c b). cbn [drop_until]. by rewrite Ascii.eqb_refl.
  - cbn [char_in] in H. apply orb_false_iff in H as [Hc H].
    change (String d a +:+ String c b) with (String d (a +:+ String c b)).
    cbn [drop_until]. by rewrite (Ascii.eqb_sym d c), Hc, IH.
Qed.

Lemma str_in_char (c : ascii) (s : string) : str_in (String c "") s = char_in c s.
Proof.
  induction s as [|d s IH]; [done|]. cbn [str_in startswith char_in].
  rewrite IH. by destruct s; rewrite andb_true_r.
Qed.

(** Encoded text holds unreserved characters, [%] and [+] only. *)
Lemma quote_plus_alphabet (s : string) (c : ascii) :
  char_in c (quote_plus s) = true -> char_in c (ALWAYS_SAFE +:+ "%+") = true.
Proof.
  intros Hin. destruct (char_in c (ALWAYS_SAFE +:+ "%+")) eqn:Hc; [done|].
  rewrite char_in_app in Hc. apply orb_false_iff in Hc as [Ha Hp].
  assert (char_in c "%0123456789ABCDEF" = false) as Hhex.
  { pose proof Ha as Ha'. unfold ALWAYS_SAFE in Ha'. cbn in Ha', Hp.
    repeat (apply orb_false_iff in Ha' as [? Ha']).
    apply orb_false_iff in Hp as [? Hp].
    cbn. repeat (apply orb_false_iff; split); done. }
  assert (Ascii.eqb c "+" = false) as Hplus.
  { cbn in Hp. apply orb_false_iff in Hp as [_ Hp]. by apply orb_false_iff in Hp as [? _]. }
  rewrite <- Hin. symmetry. unfold quote_plus.
  destruct (negb (str_in " " s)); [by apply quote_has_no|].
  destruct (Ascii.eqb_spec c " ") as [->|Hsp].
  - clear. induction (quote " " s) as [|d t IH]; [done|]. cbn [char_in replace_char].
    rewrite IH, orb_false_r.
    by destruct (Ascii.eqb_spec d " ") as [->|];
      [|rewrite Ascii.eqb_sym; apply Ascii.eqb_neq].
  - apply replace_char_has_no; [|done]. apply quote_has_no; [done| |done].
    cbn. rewrite orb_false_r. by apply Ascii.eqb_neq.
Qed.

Lemma encoded_field_has_no (c : ascii) (k v : string) :
  char_in c "&?#" = true -> char_in c (quote_plus k +:+ "=" +:+ quote_plus v) = false.
Proof.
  intros Hc.
  assert (char_in c "&=?#+ " = true /\ c <> "+"%char /\ Ascii.eqb c "=" = false)
    as (Hc' & Hplus & Heq).
  { cbn in Hc. repeat (apply orb_true_iff in Hc as [Hc|Hc]);
      try (apply Ascii.eqb_eq in Hc as ->; by auto); done. }
  rewrite !char_in_app, !quote_plus_has_no by done. cbn. by rewrite Heq.
Qed.

Lemma field_decodes (k v : string) :
  (unquote_plus (take_until "=" (quote_plus k +:+ "=" +:+ quote_plus v)),
   unquote_plus (drop_until "=" (quote_plus k +:+ "=" +:+ quote_plus v))) = (k, v).
Proof.
  rewrite take_until_app;
    [|by apply quote_plus_has_no|right; by destruct (quote_plus v)].
  change ("=" +:+ quote_plus v) with (String "=" (quote_plus v)).
  rewrite drop_until_app by (by apply quote_plus_has_no).
  by rewrite !unquote_quote_plus.
Qed.

(** Splitting an encoded mapping at [&] and [=] and decoding gives the keys
    and the texts of the values back, in order. *)
Lemma query_fields_urlencode (q : list (string * atom)) :
  q <> [] -> query_fields (urlencode q) = map (fun kv => (kv.1, py_str kv.2)) q.
Proof.
  intros Hq. unfold query_fields, urlencode.
  induction q as [|[k v] q IH]; [done|]. destruct q as [|x q].
  - cbn [map join fst snd]. rewrite split_on_absent by (by apply encoded_field_has_no).
    cbn [map]. by rewrite field_decodes.
  - change (join "&" (map ?f ((k, v) :: x :: q)))
      with (f (k, v) +:+ String "&" (join "&" (map f (x :: q)))).
    cbn [fst snd]. rewrite split_on_app by (by apply encoded_field_has_no).
    cbn [map fst snd] in *. rewrite field_decodes. f_equal. by apply IH.
Qed.

(** ** C4: the request URL *)

Lemma append_assoc (a b c : string) : (a +:+ b) +:+ c = a +:+ (b +:+ c).
Proof.
  induction a as [|x a IH]; [reflexivity|].
  change (String x ((a +:+ b) +:+ c) = String x (a +:+ b +:+ c)). by f_equal.
Qed.

Lemma join_app (sep : string) (a b : list string) :
  a <> [] -> b <> [] -> join sep (a ++ b) = join sep a +:+ sep +:+ join sep b.
Proof.
  intros Ha Hb. induction a as [|x a IH]; [done|].
  destruct a as [|y a].
  - simpl. by destruct b.
  - change ((x :: y :: a) ++ b) with (x :: (y :: a) ++ b).
    change (join sep (x :: (y :: a) ++ b)) with (x +:+ sep +:+ join sep ((y :: a) ++ b)).
    rewrite IH by done.
    change (join sep (x :: y :: a)) with (x +:+ sep +:+ join sep (y :: a)).
    by rewrite !append_assoc.
Qed.

(** C4. The URL [get] and [post] send to: ["me"] becomes
    ["https://api.spotify.com/v1/me"]; a path already under the base URL is
    left as it is; the items of a non-empty mapping are encoded in insertion
    order and joined on with ["?"] if the URL has none and with ["&"] if it
    has one; every request of the call goes to that URL. The encoding is
    that of a URL: a key or a value comes out in unreserved characters, [%]
    and [+] only, a space as [+] and any other reserved character as [%]
    and two hexadecimal digits, decoding gives the text back, and the query
    that was joined on splits at [&] and [=] into the keys and the texts of
    the values of the mapping, in its order. *)
Theorem url_construction (self : SpotifyAPI.t) (url : string) (params : loc)
    (q : list (string * atom)) (data : val) (body : option JSON) (tries : Z) (w : World) :
  query_at (heap w) params q ->
  body_of (heap w) data = Some body ->
  0 < tries ->
  (* the three cases of lines 33-36 *)
  (q = [] ->
     SpotifyAPI.build_url "me" params w = (Ret "https://api.spotify.com/v1/me", w) /\
     (startswith url SpotifyAPI.BASE = true ->
        SpotifyAPI.build_url url params w = (Ret url, w))) /\
  (q <> [] ->
     forall base,
       base = (if startswith url SpotifyAPI.BASE then url else SpotifyAPI.BASE +:+ url) ->
       (str_in "?" base = false ->
          SpotifyAPI.build_url url params w = (Ret (base +:+ "?" +:+ urlencode q), w)) /\
       (str_in "?" base = true ->
          SpotifyAPI.build_url url params w = (Ret (base +:+ "&" +:+ urlencode q), w))) /\
  (* insertion order *)
  (forall k v, urlencode [(k, v)] = quote_plus k +:+ "=" +:+ quote_plus (py_str v)) /\
  (forall q1 q2, q1 <> [] -> q2 <> [] ->
     urlencode (q1 ++ q2) = urlencode q1 +:+ "&" +:+ urlencode q2) /\
  (* the encoding *)
  quote_plus "AC/DC b&w=?" = "AC%2FDC+b%26w%3D%3F" /\
  quote_plus "100% a+b" = "100%25+a%2Bb" /\
  (forall s c, char_in c (quote_plus s) = true -> char_in c (ALWAYS_SAFE +:+ "%+") = true) /\
  (forall s, unquote_plus (quote_plus s) = s) /\
  (q <> [] ->
     query_fields (urlencode q) = map (fun kv => (kv.1, py_str kv.2)) q /\
     (str_in "?" (prefixed url) = false ->
      forall u, SpotifyAPI.build_url url params w = (Ret u, w) ->
        query_fields (drop_until "?" u) = map (fun kv => (kv.1, py_str kv.2)) q)) /\
  (* the requests of get and post *)
  (forall u, SpotifyAPI.build_url url params w = (Ret u, w) ->
     (exists tr k, trace (SpotifyAPI.get self url params tries w).2 = trace w ++ tr /\
                   requests tr = replicate (S k) (get_request self u)) /\
     (exists tr k, trace (SpotifyAPI.post self url params data tries w).2 = trace w ++ tr /\
                   requests tr = replicate (S k) (post_request self u body))).
Proof.
  intros Hq Hbody Htries. pose proof (build_url_run w url params q Hq) as Hrun.
  split; [|split; [|split; [|split; [|split; [|split; [|split; [|split; [|split]]]]]]]].
  - intros ->. split.
    + by rewrite (build_url_run w "me" params [] Hq).
    + intros Hpre. rewrite Hrun. unfold prefixed. by rewrite Hpre.
  - intros Hne base ->. rewrite Hrun. unfold prefixed, with_query.
    destruct q as [|x q]; [done|].
    split; intros ->; reflexivity.
  - reflexivity.
  - intros q1 q2 H1 H2. unfold urlencode. rewrite map_app.
    apply join_app; by destruct q1, q2.
  - reflexivity.
  - reflexivity.
  - apply quote_plus_alphabet.
  - apply unquote_quote_plus.
  - intros Hne. split; [by apply query_fields_urlencode|].
    intros Hbase u Hu. rewrite Hrun in Hu. injection Hu as <-.
    unfold with_query. destruct q as [|x q]; [done|]. rewrite Hbase.
    change ("?" +:+ urlencode (x :: q)) with (String "?" (urlencode (x :: q))).
    rewrite drop_until_app by (by rewrite <- str_in_char).
    by apply query_fields_urlencode.
  - intros u Hu. rewrite Hrun in Hu. injection Hu as <-. split.
    + rewrite (get_run _ _ _ _ _ _ Hq).
      destruct (retrying_adds (Z.to_nat tries) (with_query (prefixed url) q)
                  (get_request self (with_query (prefixed url) q)) w)
        as (tr & ext & k & Ht & _ & Hr & _ & Hk & _).
      destruct k as [|k]; [destruct Hk; [lia|done]|]. by exists tr, k.
    + rewrite (post_run _ _ _ _ _ _ _ _ Hq Hbody).
      destruct (retrying_adds (Z.to_nat tries) (with_query (prefixed url) q)
                  (post_request self (with_query (prefixed url) q) body) w)
        as (tr & ext & k & Ht & _ & Hr & _ & Hk & _).
      destruct k as [|k]; [destruct Hk; [lia|done]|]. by exists tr, k.
Qed.

Lemma url_construction_witness :
  SpotifyAPI.build_url "me" 3%nat (with_ab (boot dead_net [])) =
    (Ret "https://api.spotify.com/v1/me?a=1&b=2", with_ab (boot dead_net [])) /\
  SpotifyAPI.build_url "search?x=1" 3%nat (with_ab (boot dead_net [])) =
    (Ret "https://api.spotify.com/v1/search?x=1&a=1&b=2", with_ab (boot dead_net [])) /\
  SpotifyAPI.build_url "search" 3%nat (with_search_params (boot dead_net [])) =
    (Ret "https://api.spotify.com/v1/search?q=AC%2FDC+b%26w%3D%3F&limit=1",
     with_search_params (boot dead_net [])) /\
  query_fields "q=AC%2FDC+b%26w%3D%3F&limit=1" = [("q", "AC/DC b&w=?"); ("limit", "1")].
Proof.
  assert (Hq : query_at (heap (with_ab (boot dead_net []))) 3%nat
                 [("a", AInt 1); ("b", AInt 2)])
    by (eexists; split; reflexivity).
  assert (Hs : query_at (heap (with_search_params (boot dead_net []))) 3%nat
                 [("q", AStr "AC/DC b&w=?"); ("limit", AInt 1)])
    by (eexists; split; reflexivity).
  split; [|split; [|split]].
  3: { destruct (url_construction (SpotifyAPI.new "T") "search" 3%nat
                   [("q", AStr "AC/DC b&w=?"); ("limit", AInt 1)] (VAtom ANone) None 3
                   (with_search_params (boot dead_net [])) Hs eq_refl ltac:(lia))
         as (_ & Hne & _).
       apply (Hne ltac:(discriminate) _ eq_refl). reflexivity. }
  3: { destruct (url_construction (SpotifyAPI.new "T") "search" 3%nat
                   [("q", AStr "AC/DC b&w=?"); ("limit", AInt 1)] (VAtom ANone) None 3
                   (with_search_params (boot dead_net [])) Hs eq_refl ltac:(lia))
         as (_ & _ & _ & _ & _ & _ & _ & _ & Hfields & _).
       apply (Hfields ltac:(discriminate)). }
  - destruct (url_construction (SpotifyAPI.new "T") "me" 3%nat
                [("a", AInt 1); ("b", AInt 2)] (VAtom ANone) None 3
                (with_ab (boot dead_net [])) Hq eq_refl ltac:(lia))
      as (_ & Hne & _).
    apply (Hne ltac:(discriminate) _ eq_refl). reflexivity.
  - destruct (url_construction (SpotifyAPI.new "T") "search?x=1" 3%nat
                [("a", AInt 1); ("b", AInt 2)] (VAtom ANone) None 3
                (with_ab (boot dead_net [])) Hq eq_refl ltac:(lia))
      as (_ & Hne & _).
    apply (Hne ltac:(discriminate) _ eq_refl). reflexivity.
Defined.

Example url_of_me :
  SpotifyAPI.build_url "me" get_params_default (boot dead_net []) =
    (Ret "https://api.spotify.com/v1/me", boot dead_net []).
Proof. reflexivity. Qed.

Example url_under_base :
  SpotifyAPI.build_url "https://api.spotify.com/v1/me/tracks?offset=50" get_params_default
    (boot dead_net []) =
    (Ret "https://api.spotify.com/v1/me/tracks?offset=50", boot dead_net []).
Proof. reflexivity. Qed.

(** ** The login server *)

Lemma token_is_not_redirect (p : string) :
  startswith p "/token?" = true -> startswith p "/redirect" = false.
Proof.
  destruct p as [|c0 [|c1 p]]; cbn [startswith]; try discriminate.
  - by rewrite andb_false_r.
  - destruct (Ascii.eqb "/" c0); [|discriminate]. cbn [andb].
    destruct (Ascii.eqb_spec "t" c1) as [<-|]; [|discriminate]. reflexivity.
Qed.

Lemma handle_request_passes r rest w :
  incoming w = r :: rest -> stops r = false ->
  SpotifyAPI.handle_request w = (Ret tt, answered [r] rest w).
Proof.
  intros Hin Hstop. unfold SpotifyAPI.handle_request. rewrite Hin.
  unfold stops in Hstop. destruct (hangup r) as [msg|] eqn:Hh; [discriminate|].
  unfold try_except, SpotifyAPI.handle_one_request, answered, answer.
  cbn [map].
  destruct (String.eqb (command r) "GET"); cbn [negb andb] in *.
  2: { unfold respond. by rewrite Hh. }
  unfold SpotifyAPI.do_GET. rewrite Hstop.
  destruct (startswith (path r) "/redirect"); unfold respond; by rewrite Hh.
Qed.

(** A request from a client that has gone is answered by no handler: the
    first write of the response raises, whatever the route. *)
Lemma handle_one_request_hangup r msg w :
  hangup r = Some msg -> SpotifyAPI.handle_one_request r w = (Raise (OSError msg), w).
Proof.
  intros Hh. unfold SpotifyAPI.handle_one_request, SpotifyAPI.do_GET.
  destruct (String.eqb (command r) "GET"); [|unfold respond; by rewrite Hh].
  destruct (startswith (path r) "/redirect"); [unfold respond; by rewrite Hh|].
  destruct (startswith (path r) "/token?"); [|unfold respond; by rewrite Hh].
  unfold bind at 1, respond. by rewrite Hh.
Qed.

Lemma handle_request_stops r rest w :
  incoming w = r :: rest -> stops r = true ->
  SpotifyAPI.handle_request w =
  match hangup r with
  | Some msg => (Raise (OSError msg), answered [] rest w)
  | None =>
      match re_search_access_token (path r) with
      | Some access_token =>
          (Raise (_Authorization access_token),
           emit (LogInfo (ReceivedToken access_token)) (answered [r] rest w))
      | None => (Raise AttributeError, answered [r] rest w)
      end
  end.
Proof.
  intros Hin Hstop. unfold SpotifyAPI.handle_request. rewrite Hin.
  unfold stops in Hstop. destruct (hangup r) as [msg|] eqn:Hh.
  { unfold try_except. rewrite (handle_one_request_hangup r msg _ Hh).
    unfold answered, with_incoming, SpotifyAPI.handle_error, raise. cbn.
    by rewrite app_nil_r. }
  apply andb_true_iff in Hstop as [Hget Htok].
  pose proof (token_is_not_redirect _ Htok) as Hred.
  unfold try_except, SpotifyAPI.handle_one_request, answered, answer.
  cbn [map].
  rewrite Hget. unfold SpotifyAPI.do_GET. rewrite Hred, Htok. cbn [negb].
  unfold bind at 1, respond. rewrite Hh.
  destruct (re_search_access_token (path r)) as [tok|]; reflexivity.
Qed.

Lemma answered_app a b rest w :
  answered (a ++ b) rest w = answered b rest (answered a (b ++ rest) w).
Proof. unfold answered. simpl. f_equal. by rewrite map_app, app_assoc. Qed.

(** The serving loop takes the requests that do not stop it one by one. *)
Lemma while_true_passes {A} (pre rest : list HttpRequest) : forall (n : nat) (w : World),
  incoming w = pre ++ rest ->
  Forall (fun r => stops r = false) pre ->
  while_true (A := A) (length pre + n) SpotifyAPI.handle_request w =
  while_true n SpotifyAPI.handle_request (answered pre rest w).
Proof.
  induction pre as [|r pre IH]; intros n w Hin Hpre.
  - simpl in *. unfold answered. simpl. rewrite app_nil_r.
    destruct w; simpl in *; by subst.
  - inversion Hpre as [|? ? Hr Hpre']; subst.
    cbn [length Nat.add while_true].
    step (handle_request_passes r (pre ++ rest) w Hin Hr).
    rewrite IH; [|reflexivity|done].
    f_equal. symmetry. apply (answered_app [r] pre rest w).
Qed.

Lemma answered_trace rs rest w :
  trace (answered rs rest w) = trace w ++ map (fun r => Respond (answer r)) rs.
Proof. reflexivity. Qed.

Lemma responses_app t u : responses (t ++ u) = responses t ++ responses u.
Proof. apply omap_app. Qed.

Lemma responses_answers rs : responses (map (fun r => Respond (answer r)) rs) = map answer rs.
Proof. induction rs as [|r rs IH]; simpl; [done|]. unfold responses in *. simpl. by rewrite IH. Qed.

(** A list of requests either never stops the loop or has a first request
    that does. *)
Lemma first_stop (rs : list HttpRequest) :
  Forall (fun r => stops r = false) rs \/
  exists pre r post, rs = pre ++ r :: post /\
    Forall (fun r => stops r = false) pre /\ stops r = true.
Proof.
  induction rs as [|r rs [IH|(pre & x & post & -> & Hpre & Hx)]].
  - left. constructor.
  - destruct (stops r) eqn:Hr.
    + right. exists [], r, rs. repeat split; [constructor|done].
    + left. by constructor.
  - right. destruct (stops r) eqn:Hr.
    + exists [], r, (pre ++ x :: post). repeat split; [constructor|done].
    + exists (r :: pre), x, post. repeat split; [by constructor|done].
Qed.

Lemma authorize_run client_id scope w :
  SpotifyAPI.authorize client_id scope w =
  match while_true (A := SpotifyAPI.t) (S (length (incoming w))) SpotifyAPI.handle_request
          (listening client_id scope w) with
  | (Raise (_Authorization access_token), w') => (Ret (SpotifyAPI.new access_token), w')
  | r => r
  end.
Proof.
  unfold SpotifyAPI.authorize, listening.
  unfold bind at 1, logging_info at 1. unfold bind at 1, webbrowser_open at 1.
  unfold bind at 1, server_bind at 1. unfold try_except. cbn [incoming emit].
  destruct (while_true _ _ _) as [[s|[]|c| | |] w']; reflexivity.
Qed.

(** No request stops the loop: all are answered and the server waits. *)
Lemma authorize_waits client_id scope w :
  Forall (fun r => stops r = false) (incoming w) ->
  SpotifyAPI.authorize client_id scope w =
  (Blocks, answered (incoming w) [] (listening client_id scope w)).
Proof.
  intros Hall. rewrite authorize_run.
  replace (S (length (incoming w))) with (length (incoming w) + 1)%nat by lia.
  rewrite (while_true_passes (incoming w) []); [|by rewrite app_nil_r|done].
  reflexivity.
Qed.

(** The first request that stops the loop decides the outcome; the requests
    behind it are never taken. *)
Lemma authorize_stops client_id scope w pre r post :
  incoming w = pre ++ r :: post ->
  Forall (fun r => stops r = false) pre ->
  stops r = true ->
  SpotifyAPI.authorize client_id scope w =
  match hangup r with
  | Some msg => (Raise (OSError msg), answered pre post (listening client_id scope w))
  | None =>
      match re_search_access_token (path r) with
      | Some access_token =>
          (Ret (SpotifyAPI.new access_token),
           emit (LogInfo (ReceivedToken access_token))
             (answered (pre ++ [r]) post (listening client_id scope w)))
      | None =>
          (Raise AttributeError, answered (pre ++ [r]) post (listening client_id scope w))
      end
  end.
Proof.
  intros Hin Hpre Hr. rewrite authorize_run, Hin.
  replace (S (length (pre ++ r :: post))) with (length pre + S (S (length post)))%nat
    by (rewrite length_app; simpl; lia).
  rewrite (while_true_passes pre (r :: post)); [|done|done].
  cbn [while_true]. unfold bind at 1.
  rewrite (handle_request_stops r post); [|reflexivity|done].
  rewrite answered_app.
  destruct (hangup r) as [msg|].
  - replace (answered pre post (listening client_id scope w))
      with (answered [] post (answered pre ([] ++ post) (listening client_id scope w)))
      by (rewrite <- answered_app; by rewrite app_nil_r).
    reflexivity.
  - destruct (re_search_access_token (path r)); reflexivity.
Qed.

(** [authorize] returns a session, passes on the error of the token
    search or of a response that could not be written, or waits for ever;
    the bound on its loop is never reached. *)
Lemma authorize_outcomes client_id scope w :
  (exists access_token,
     (SpotifyAPI.authorize client_id scope w).1 = Ret (SpotifyAPI.new access_token)) \/
  (SpotifyAPI.authorize client_id scope w).1 = Raise AttributeError \/
  (exists msg, (SpotifyAPI.authorize client_id scope w).1 = Raise (OSError msg)) \/
  (SpotifyAPI.authorize client_id scope w).1 = Blocks.
Proof.
  destruct (first_stop (incoming w)) as [Hall|(pre & r & post & Hin & Hpre & Hr)].
  - rewrite (authorize_waits _ _ _ Hall). by right; right; right.
  - rewrite (authorize_stops _ _ _ _ _ _ Hin Hpre Hr).
    destruct (hangup r) as [msg|]; [right; right; left; by exists msg|].
    destruct (re_search_access_token (path r)) as [tok|]; [left; by exists tok|by right; left].
Qed.

Lemma strip_prefix_none (pre s : string) :
  startswith s pre = false -> strip_prefix pre s = None.
Proof.
  revert s. induction pre as [|a pre IH]; intros [|b s]; cbn [startswith strip_prefix];
    try done.
  destruct (Ascii.eqb a b); cbn [andb]; auto.
Qed.

Lemma re_search_none (s : string) :
  str_in "access_token=" s = false -> re_search_access_token s = None.
Proof.
  induction s as [|c s IH]; cbn [str_in re_search_access_token]; intros H;
    apply orb_false_iff in H as [Hpre Hrest]; rewrite (strip_prefix_none _ _ Hpre); auto.
Qed.



(** ** C3: when the serving loop ends *)

(** C3, amended. The serving loop of [authorize] ends at the first request
    that is a GET of [/token?...] or whose client has gone before the
    response is written, and every later request is left untaken. When the
    client is still there the token request is answered and [authorize]
    returns a session or passes on the error of the token search. When the
    client has gone nothing is sent and the error of the write leaves the
    loop and [authorize], whatever the route: a request for [/redirect] or
    for an unknown route is enough. From a client that stays, a request for
    [/redirect] or for an unknown route never ends the loop: the first is
    answered with the redirect page, the second with 404, and while only
    such requests come the server answers them all and waits. *)
Theorem capture_termination (client_id scope : string) (w : World) :
  (Forall (fun r => stops r = false) (incoming w) ->
     (SpotifyAPI.authorize client_id scope w).1 = Blocks /\
     incoming (SpotifyAPI.authorize client_id scope w).2 = [] /\
     responses (trace (SpotifyAPI.authorize client_id scope w).2) =
       responses (trace w) ++ map answer (incoming w)) /\
  (forall pre r post,
     incoming w = pre ++ r :: post ->
     Forall (fun r => stops r = false) pre ->
     stops r = true ->
     incoming (SpotifyAPI.authorize client_id scope w).2 = post /\
     (hangup r = None ->
        ((exists access_token,
            (SpotifyAPI.authorize client_id scope w).1 = Ret (SpotifyAPI.new access_token)) \/
         (SpotifyAPI.authorize client_id scope w).1 = Raise AttributeError) /\
        responses (trace (SpotifyAPI.authorize client_id scope w).2) =
          responses (trace w) ++ map answer (pre ++ [r])) /\
     (forall msg, hangup r = Some msg ->
        (SpotifyAPI.authorize client_id scope w).1 = Raise (OSError msg) /\
        responses (trace (SpotifyAPI.authorize client_id scope w).2) =
          responses (trace w) ++ map answer pre)) /\
  (forall r, stops r = true <->
     hangup r <> None \/ (command r = "GET" /\ startswith (path r) "/token?" = true)) /\
  (forall r, hangup r = None -> command r = "GET" ->
     startswith (path r) "/redirect" = true ->
     stops r = false /\ answer r = redirect_page) /\
  (forall r, hangup r = None -> command r = "GET" ->
     startswith (path r) "/redirect" = false ->
     startswith (path r) "/token?" = false ->
     stops r = false /\ answer r = ErrorPage 404).
Proof.
  split; [|split; [|split; [|split]]].
  - intros Hall. rewrite (authorize_waits _ _ _ Hall). cbn [fst snd]. repeat split.
    rewrite answered_trace, responses_app, responses_answers. unfold listening. simpl.
    by rewrite !responses_app, !app_nil_r.
  - intros pre r post Hin Hpre Hr. rewrite (authorize_stops _ _ _ _ _ _ Hin Hpre Hr).
    destruct (hangup r) as [msg|].
    + cbn [fst snd]. split; [reflexivity|]. split; [discriminate|].
      intros ? [= <-]. split; [reflexivity|].
      rewrite answered_trace, responses_app, responses_answers. unfold listening. simpl.
      by rewrite !responses_app, !app_nil_r.
    + destruct (re_search_access_token (path r)) as [tok|]; cbn [fst snd].
      * split; [reflexivity|]. split; [|discriminate]. intros _.
        split; [left; by exists tok|].
        cbn [emit trace]. rewrite responses_app, answered_trace, responses_app,
          responses_answers. unfold listening. simpl.
        by rewrite !responses_app, !app_nil_r.
      * split; [reflexivity|]. split; [|discriminate]. intros _.
        split; [by right|].
        rewrite answered_trace, responses_app, responses_answers. unfold listening. simpl.
        by rewrite !responses_app, !app_nil_r.
  - intros r. unfold stops. destruct (hangup r) as [msg|].
    + split; [by left|done].
    + rewrite andb_true_iff. split.
      * intros [Hget Htok]. right. by apply String.eqb_eq in Hget.
      * intros [?|[Hget Htok]]; [done|]. by apply String.eqb_eq in Hget.
  - intros r Hh Hget Hred. unfold stops, answer. rewrite Hh, Hget, Hred.
    split; [|reflexivity].
    destruct (startswith (path r) "/token?") eqn:Htok; [|reflexivity].
    apply token_is_not_redirect in Htok. congruence.
  - intros r Hh Hget Hred Htok. unfold stops, answer. by rewrite Hh, Hget, Hred, Htok.
Qed.

Lemma capture_termination_witness :
  incoming (SpotifyAPI.authorize "X" "a b" (boot dead_net login_requests)).2 = [GET "/late"] /\
  ((exists access_token,
      (SpotifyAPI.authorize "X" "a b" (boot dead_net login_requests)).1 =
        Ret (SpotifyAPI.new access_token)) \/
   (SpotifyAPI.authorize "X" "a b" (boot dead_net login_requests)).1 = Raise AttributeError) /\
  responses (trace (SpotifyAPI.authorize "X" "a b" (boot dead_net login_requests)).2) =
    [] ++ [redirect_page; ErrorPage 404; thanks_page] /\
  incoming (SpotifyAPI.authorize "X" "a b" (boot dead_net closed_tab_requests)).2 =
    [GET "/token?access_token=ABC123&token_type=Bearer"] /\
  (SpotifyAPI.authorize "X" "a b" (boot dead_net closed_tab_requests)).1 =
    Raise (OSError "Connection reset by peer") /\
  responses (trace (SpotifyAPI.authorize "X" "a b" (boot dead_net closed_tab_requests)).2) =
    [] ++ [].
Proof.
  destruct (capture_termination "X" "a b" (boot dead_net login_requests)) as (_ & H & _).
  destruct (H [GET "/redirect"; GET "/favicon.ico"]
              (GET "/token?access_token=ABC123&token_type=Bearer") [GET "/late"])
    as (Hpost & Hstay & _); [reflexivity|repeat constructor|reflexivity|].
  destruct (capture_termination "X" "a b" (boot dead_net closed_tab_requests))
    as (_ & H' & _).
  destruct (H' [] {| command := "GET"; path := "/redirect";
                     hangup := Some "Connection reset by peer" |}
              [GET "/token?access_token=ABC123&token_type=Bearer"])
    as (Hpost' & _ & Hgone); [reflexivity|constructor|reflexivity|].
  destruct (Hstay eq_refl) as [Hout Hsent].
  destruct (Hgone "Connection reset by peer" eq_refl) as [Hout' Hsent'].
  repeat split; assumption.
Defined.

(** A request for [/redirect] can end the serving loop: when its client has
    gone before the page is written, the loop ends there, with the error of
    the write and without a session, and the token request behind it is
    never taken. *)
Lemma capture_ends_on_redirect :
  (SpotifyAPI.authorize "X" "a b" (boot dead_net closed_tab_requests)).1 =
    Raise (OSError "Connection reset by peer") /\
  incoming (SpotifyAPI.authorize "X" "a b" (boot dead_net closed_tab_requests)).2 =
    [GET "/token?access_token=ABC123&token_type=Bearer"] /\
  responses (trace (SpotifyAPI.authorize "X" "a b" (boot dead_net closed_tab_requests)).2) =
    [].
Proof. repeat split. Qed.

(** ** C9: a token request without a token *)

(** C9. A GET whose path starts with [/token?] but nowhere holds the text
    [access_token=] makes the pattern search fail (the client has stayed
    for the answer, as those of the requests before it); the error leaves
    the serving loop, [authorize] does not catch it, and no session is
    made. *)
Theorem token_request_without_token (client_id scope : string) (w : World)
    (pre post : list HttpRequest) (p : string) :
  incoming w = pre ++ GET p :: post ->
  Forall (fun r => stops r = false) pre ->
  startswith p "/token?" = true ->
  str_in "access_token=" p = false ->
  (SpotifyAPI.authorize client_id scope w).1 = Raise AttributeError /\
  incoming (SpotifyAPI.authorize client_id scope w).2 = post.
Proof.
  intros Hin Hpre Htok Hnone.
  rewrite (authorize_stops _ _ _ _ _ _ Hin Hpre); [|exact Htok].
  cbn [path hangup GET]. by rewrite (re_search_none _ Hnone).
Qed.

Lemma token_request_without_token_witness :
  (SpotifyAPI.authorize "X" "a b"
     (boot dead_net [GET "/redirect"; GET "/token?error=access_denied"; GET "/late"])).1 =
    Raise AttributeError /\
  incoming (SpotifyAPI.authorize "X" "a b"
     (boot dead_net [GET "/redirect"; GET "/token?error=access_denied"; GET "/late"])).2 =
    [GET "/late"].
Proof.
  apply (token_request_without_token "X" "a b"
           (boot dead_net [GET "/redirect"; GET "/token?error=access_denied"; GET "/late"])
           [GET "/redirect"] [GET "/late"] "/token?error=access_denied").
  - reflexivity.
  - repeat constructor.
  - reflexivity.
  - reflexivity.
Defined.

(** ** C8: the token of a session *)




Example token_extraction :
  re_search_access_token "/token?access_token=ABC123&token_type=Bearer" = Some "ABC123".
Proof. reflexivity. Qed.

Example captured_session :
  (SpotifyAPI.authorize "X" "a b" (boot dead_net login_requests)).1 =
    Ret (SpotifyAPI.new "ABC123").
Proof. reflexivity. Qed.

(** ** C6: the authorization URL *)

Lemma authorize_trace client_id scope w :
  exists rest,
    trace (SpotifyAPI.authorize client_id scope w).2 =
    trace w ++ LogInfo (LoggingIn (SpotifyAPI.authorize_url client_id scope))
            :: BrowserOpen (SpotifyAPI.authorize_url client_id scope)
            :: Listen "0.0.0.0" SpotifyAPI._SERVER_PORT :: rest.
Proof.
  destruct (first_stop (incoming w)) as [Hall|(pre & r & post & Hin & Hpre & Hr)].
  - rewrite (authorize_waits _ _ _ Hall). cbn [snd]. rewrite answered_trace.
    unfold listening. cbn [trace emit]. eexists. rewrite <- !app_assoc. reflexivity.
  - rewrite (authorize_stops _ _ _ _ _ _ Hin Hpre Hr).
    destruct (hangup r); [|destruct (re_search_access_token (path r))];
      cbn [snd emit trace];
      rewrite answered_trace; unfold listening; cbn [trace emit];
      eexists; rewrite <- !app_assoc; reflexivity.
Qed.

(** C6. For client id [X] and scope [a b] the authorization URL holds the
    query [response_type=token&client_id=X&scope=a+b] and a [redirect_uri]
    whose value is [http://127.0.0.1:43019/redirect], 43019 being the fixed
    port; for every client id and scope the URL has this shape, and it is
    the URL that [authorize] logs and opens in the browser. *)
Theorem authorization_url :
  SpotifyAPI.authorize_url "X" "a b" =
    "https://accounts.spotify.com/authorize?response_type=token&client_id=X&scope=a+b&redirect_uri=http%3A%2F%2F127.0.0.1%3A43019%2Fredirect" /\
  str_in "response_type=token&client_id=X&scope=a+b" (SpotifyAPI.authorize_url "X" "a b") = true /\
  query_param "redirect_uri" (SpotifyAPI.authorize_url "X" "a b") =
    Some "http://127.0.0.1:43019/redirect" /\
  SpotifyAPI._SERVER_PORT = 43019 /\
  (forall client_id scope,
     SpotifyAPI.authorize_url client_id scope =
       "https://accounts.spotify.com/authorize?response_type=token&client_id=" +:+
       quote_plus client_id +:+ "&scope=" +:+ quote_plus scope +:+
       "&redirect_uri=" +:+ quote_plus "http://127.0.0.1:43019/redirect") /\
  (forall client_id scope w,
     exists rest,
       trace (SpotifyAPI.authorize client_id scope w).2 =
       trace w ++ LogInfo (LoggingIn (SpotifyAPI.authorize_url client_id scope))
               :: BrowserOpen (SpotifyAPI.authorize_url client_id scope)
               :: Listen "0.0.0.0" 43019 :: rest).
Proof.
  repeat split; try reflexivity.
  intros client_id scope w. apply authorize_trace.
Qed.

(** ** What a call leaves alone *)

Lemma triple_bind {A B} (P : World -> Prop) (m : M A) (k : A -> M B)
    (I : World -> Prop) (R : A -> World -> Prop) (R' : B -> World -> Prop) :
  triple P m I R -> (forall a, triple (R a) (k a) I R') -> triple P (bind m k) I R'.
Proof.
  intros Hm Hk w HP. destruct (Hm w HP) as [HI HR]. unfold bind.
  destruct (m w) as [[a|e|c| | |] w1]; cbn [fst snd] in *; try (split; [done|discriminate]).
  apply Hk. by apply HR.
Qed.

Lemma triple_ret {A} (P : World -> Prop) (a : A) (I : World -> Prop) (R : A -> World -> Prop) :
  (forall w, P w -> I w /\ R a w) -> triple P (ret a) I R.
Proof. intros H w HP. destruct (H w HP). split; [done|]. by intros ? [= <-]. Qed.

Lemma triple_stop {A} (P : World -> Prop) (m : M A) (I : World -> Prop)
    (R : A -> World -> Prop) :
  (forall w, P w -> I (m w).2 /\ forall a, (m w).1 <> Ret a) -> triple P m I R.
Proof. intros H w HP. destruct (H w HP) as [HI Hno]. split; [done|]. intros a Ha. by destruct (Hno a). Qed.

Lemma triple_weaken {A} (P P' : World -> Prop) (m : M A) (I : World -> Prop)
    (R R' : A -> World -> Prop) :
  triple P m I R -> (forall w, P' w -> P w) -> (forall a w, R a w -> R' a w) ->
  triple P' m I R'.
Proof. intros Hm HP HR w Hw. destruct (Hm w (HP w Hw)). split; auto. Qed.

Lemma kept_heap_app h0 w w' ext :
  kept h0 w -> heap w' = heap w ++ ext -> kept h0 w'.
Proof.
  intros [Hlen Hk] Hh. split; rewrite Hh.
  - rewrite length_app. lia.
  - intros l o Hl. apply lookup_app_l_Some. auto.
Qed.

Lemma kept_same_heap h0 w w' : kept h0 w -> heap w' = heap w -> kept h0 w'.
Proof. intros H Hh. apply (kept_heap_app h0 w w' []); [done|by rewrite app_nil_r]. Qed.

Lemma kept_assign h0 w l o :
  kept h0 w -> (length h0 <= l)%nat -> kept h0 (with_heap (<[l := o]> (heap w)) w).
Proof.
  intros [Hlen Hk] Hl. split; cbn [heap with_heap].
  - by rewrite length_insert.
  - intros l' o' Hl'. rewrite list_lookup_insert_ne; [auto|].
    apply lookup_lt_Some in Hl'. lia.
Qed.

Lemma reads_triple {A} (m : M A) (I : World -> Prop) :
  reads m -> triple I m I (fun _ w => I w).
Proof. intros Hm w HI. split; [by rewrite Hm|]. intros a _. by rewrite Hm. Qed.

Lemma reads_deref_bind {A} l (k : obj -> M A) : (forall o, reads (k o)) -> reads (o <- deref l ;; k o).
Proof.
  intros Hk w. unfold bind, deref. destruct (heap w !! l); [apply Hk|reflexivity].
Qed.

Lemma reads_truthy v : reads (truthy v).
Proof.
  destruct v as [[|b|z|s]|l]; try (intros w; reflexivity).
  apply reads_deref_bind. intros [xs|kvs] w; reflexivity.
Qed.

Lemma reads_getitem v key : reads (getitem v key).
Proof.
  destruct v as [a|l]; [intros w; reflexivity|].
  apply reads_deref_bind. intros [xs|kvs] w; [reflexivity|].
  by destruct (dict_get key kvs).
Qed.

Lemma reads_py_len v : reads (py_len v).
Proof.
  destruct v as [[|b|z|s]|l]; try (intros w; reflexivity).
  apply reads_deref_bind. intros [xs|kvs] w; reflexivity.
Qed.

Lemma reads_iterate v : reads (iterate v).
Proof.
  destruct v as [[|b|z|s]|l]; try (intros w; reflexivity).
  apply reads_deref_bind. intros [xs|kvs] w; reflexivity.
Qed.

Lemma reads_json_dumps v : reads (json_dumps v).
Proof. intros w. unfold json_dumps. by destruct (reify _ _ _). Qed.

Lemma reads_bind {A B} (m : M A) (k : A -> M B) :
  reads m -> (forall a, reads (k a)) -> reads (bind m k).
Proof.
  intros Hm Hk w. unfold bind. specialize (Hm w).
  destruct (m w) as [[a|e|c| | |] w1]; cbn [snd] in *; subst; auto. apply Hk.
Qed.

Lemma reads_urlencode_at params : reads (urlencode_at params).
Proof.
  apply reads_deref_bind. intros [[|x xs]|kvs] w; try reflexivity.
  by destruct (scalar_items kvs).
Qed.

Lemma reads_build_url url params : reads (SpotifyAPI.build_url url params).
Proof.
  unfold SpotifyAPI.build_url. apply reads_bind; [apply reads_truthy|].
  intros [|]; [|by intros w].
  apply reads_bind; [apply reads_urlencode_at|]. by intros q w.
Qed.

Lemma triple_time_time (I : World -> Prop) :
  (forall w, I w -> I (tick w)) -> triple I time_time I (fun _ w => I w).
Proof. intros H w HI. cbn. split; [auto|]. intros; auto. Qed.

Lemma triple_logging_info (I : World -> Prop) m :
  (forall w e, I w -> I (emit e w)) -> triple I (logging_info m) I (fun _ w => I w).
Proof. intros H w HI. cbn. split; [auto|]. intros; auto. Qed.

Lemma kept_tick h0 w : kept h0 w -> kept h0 (tick w).
Proof. intros H. by apply (kept_same_heap h0 w). Qed.

Lemma kept_emit h0 w e : kept h0 w -> kept h0 (emit e w).
Proof. intros H. by apply (kept_same_heap h0 w). Qed.

Lemma retrying_returns n url req : forall w v w',
  retrying n url (j <- urlopen req ;; json_load j) w = (Ret v, w') ->
  exists j, rep (heap w') (length (heap w)) (length (heap w')) v j.
Proof.
  induction n as [|n IH]; intros w v w' Hrun; [discriminate|].
  destruct (transport w (attempts (trace w)) req) as [err|j] eqn:Hreply.
  - rewrite (retrying_step_fail _ _ _ _ _ Hreply) in Hrun.
    apply IH in Hrun. exact Hrun.
  - rewrite (retrying_step_ok _ _ _ _ _ Hreply) in Hrun.
    injection Hrun as <- <-. exists j. apply load_rep.
Qed.

Lemma triple_retrying h0 n url req :
  triple (kept h0) (retrying n url (j <- urlopen req ;; json_load j)) (kept h0) (returned h0).
Proof.
  intros w Hk.
  destruct (retrying_adds n url req w) as (tr & ext & k & _ & Hh & _).
  assert (Hk' : kept h0 (retrying n url (j <- urlopen req;; json_load j) w).2)
    by (eapply kept_heap_app; eauto).
  split; [done|]. intros v Hv. split; [done|].
  destruct (retrying_returns n url req w v _ (eq_trans (surjective_pairing _)
              (f_equal (fun o => (o, _)) Hv))) as [j Hj].
  exists j, (length (heap w)), (length (heap (retrying n url (j <- urlopen req;; json_load j) w).2)).
  split; [done|]. apply Hk.
Qed.

Lemma triple_get h0 self url params tries :
  triple (kept h0) (SpotifyAPI.get self url params tries) (kept h0) (returned h0).
Proof.
  unfold SpotifyAPI.get.
  eapply triple_bind; [apply reads_triple, reads_build_url|].
  intros u. apply triple_retrying.
Qed.

Lemma triple_post h0 self url params data tries :
  triple (kept h0) (SpotifyAPI.post self url params data tries) (kept h0) (returned h0).
Proof.
  unfold SpotifyAPI.post.
  eapply triple_bind; [apply reads_triple, reads_build_url|]. intros u.
  eapply triple_bind with (R := fun _ w => kept h0 w).
  - destruct data as [[| | |]|]; try (apply reads_triple; apply reads_bind;
      [apply reads_json_dumps|by intros j w]).
    apply reads_triple. by intros w.
  - intros body. apply triple_retrying.
Qed.

Lemma triple_get_at h0 self v :
  triple (kept h0) (SpotifyAPI.get_at self v) (kept h0) (returned h0).
Proof.
  destruct v as [[| | |url]|l]; try (apply triple_stop; intros w Hk; by split).
  apply triple_get.
Qed.

(** [a += b] writes to [a] only, and [a] is above the old heap. *)
Lemma triple_iadd h0 a b :
  fresh h0 a ->
  triple (kept h0) (iadd a b) (kept h0) (fun v w => kept h0 w /\ fresh h0 v).
Proof.
  intros Ha. destruct a as [[|x|x|s]|l]; cbn [iadd].
  - apply triple_stop. intros w Hk. by split.
  - destruct b as [y|]; [|apply triple_stop; intros w Hk; by split].
    destruct (int_of y); cbn [int_of];
      [apply triple_ret|apply triple_stop; intros w Hk; by split]; by intros.
  - destruct b as [y|]; [|apply triple_stop; intros w Hk; by split].
    destruct (int_of y); cbn [int_of];
      [apply triple_ret|apply triple_stop; intros w Hk; by split]; by intros.
  - destruct b as [[| | |t]|]; try (apply triple_stop; intros w Hk; by split).
    apply triple_ret. by intros.
  - eapply triple_bind with (R := fun _ w => kept h0 w).
    { intros w Hk. unfold deref. destruct (heap w !! l); by split. }
    intros [xs|kvs]; [|apply triple_stop; intros w Hk; by split].
    eapply triple_bind; [apply reads_triple, reads_iterate|]. intros ys.
    eapply triple_bind with (R := fun _ w => kept h0 w).
    { intros w Hk. cbn. split; [|intros _ _]; by apply kept_assign. }
    intros u. apply triple_ret. by intros.
Qed.

(** The loop of [list] keeps the old heap, whatever the network answers. *)
Lemma triple_list_loop h0 self fuel : forall last response items,
  fresh h0 items ->
  triple (kept h0) (SpotifyAPI.list_loop fuel self last response items) (kept h0)
    (fun _ w => kept h0 w).
Proof.
  induction fuel as [|fuel IH]; intros last response items Hitems; cbn [SpotifyAPI.list_loop].
  - eapply triple_bind; [apply reads_triple, reads_getitem|]. intros next.
    eapply triple_bind; [apply reads_triple, reads_truthy|]. intros [|].
    + apply triple_stop. intros w Hk. by split.
    + apply triple_ret. by intros.
  - eapply triple_bind; [apply reads_triple, reads_getitem|]. intros next.
    eapply triple_bind; [apply reads_triple, reads_truthy|]. intros [|];
      [|apply triple_ret; by intros].
    eapply triple_bind; [apply triple_time_time, kept_tick|]. intros now.
    eapply triple_bind with (R := fun _ w => kept h0 w).
    { destruct (negb _); [|apply triple_ret; by intros].
      eapply triple_bind; [apply triple_time_time, kept_tick|]. intros t.
      eapply triple_bind; [apply reads_triple, reads_py_len|]. intros n.
      eapply triple_bind; [apply reads_triple, reads_getitem|]. intros total.
      eapply triple_bind; [apply triple_logging_info; intros; by apply kept_emit|].
      intros u. apply triple_ret. by intros. }
    intros last'.
    eapply triple_bind; [apply reads_triple, reads_getitem|]. intros next'.
    eapply triple_bind with (R := fun _ w => kept h0 w).
    { eapply triple_weaken; [apply triple_get_at|done|]. by intros v w [Hk _]. }
    intros response'.
    eapply triple_bind; [apply reads_triple, reads_getitem|]. intros page.
    eapply triple_bind; [by apply triple_iadd|]. intros items'.
    intros w [Hk Hf]. by apply IH.
Qed.

(** Reading a member of a decoded object. *)
Lemma getitem_rep_ret w lo hi v j key x :
  rep (heap w) lo hi v j -> (getitem v key w).1 = Ret x ->
  exists jx, json_get key j = Some jx /\ rep (heap w) lo hi x jx.
Proof.
  intros Hrep.
  inversion Hrep as [|? ? l vs js Hl Hlook Hall|? ? l dkvs kvs Hl Hlook Hall]; subst;
    cbv [getitem bind deref raise ret]; try rewrite Hlook; cbn [fst];
    try (intros ?; discriminate).
  pose proof (Forall2_dict_get (rep (heap w) lo l) key _ _ Hall) as Hget.
  cbn [json_get]. destruct (dict_get key dkvs) as [y|]; [|intros ?; discriminate].
  intros [= ->]. destruct (dict_get key (dict_of kvs)) as [jx|]; [|done].
  exists jx. split; [done|]. apply rep_weaken with lo l; [done|lia|lia].
Qed.

Lemma getitem_rep_some w lo hi v j key jx :
  rep (heap w) lo hi v j -> json_get key j = Some jx ->
  exists x, getitem v key w = (Ret x, w) /\ rep (heap w) lo hi x jx.
Proof.
  intros Hrep Hj. inversion Hrep as [| |? ? l dkvs kvs Hl Hlook Hall]; subst; try discriminate.
  pose proof (Forall2_dict_get (rep (heap w) lo l) key _ _ Hall) as Hget.
  cbn [json_get] in Hj. rewrite Hj in Hget.
  destruct (dict_get key dkvs) as [x|] eqn:Hx; [|done].
  exists x. split.
  - cbv [getitem bind deref raise ret]. rewrite Hlook, Hx. reflexivity.
  - apply rep_weaken with lo l; [done|lia|lia].
Qed.

Lemma triple_list h0 fuel self url params :
  triple (kept h0) (SpotifyAPI.list fuel self url params) (kept h0) (fun _ w => kept h0 w).
Proof.
  unfold SpotifyAPI.list.
  eapply triple_bind; [apply triple_time_time, kept_tick|]. intros last.
  eapply triple_bind; [apply triple_get|]. intros response.
  eapply triple_bind with (R := fun x w => kept h0 w /\ fresh h0 x).
  { intros w [Hk (j & lo & hi & Hrep & Hlo)]. split; [by rewrite reads_getitem|].
    intros x Hx. rewrite reads_getitem. split; [done|].
    destruct (getitem_rep_ret w lo hi response j "items" x Hrep Hx) as (jx & _ & Hrx).
    destruct x as [a|l]; [done|]. apply rep_ref_range in Hrx. cbn. lia. }
  intros items w [Hk Hf]. by apply triple_list_loop.
Qed.

Lemma kept_refl w : kept (heap w) w.
Proof. by split. Qed.

(** ** C10: the mapping passed as [params] is left as it was *)

(** C10. Whatever the network answers and however the call ends, after
    [get], [post] or [list] every object that was in the heap before the
    call is unchanged; so is the mapping passed as [params], and so are the
    three shared default mappings. *)
Theorem params_unchanged (self : SpotifyAPI.t) (url : string) (params : loc)
    (data : val) (tries : Z) (fuel : nat) (w : World) (o : obj) :
  heap w !! params = Some o ->
  heap (SpotifyAPI.get self url params tries w).2 !! params = Some o /\
  heap (SpotifyAPI.post self url params data tries w).2 !! params = Some o /\
  heap (SpotifyAPI.list fuel self url params w).2 !! params = Some o.
Proof.
  intros Hp. repeat split.
  - by apply (triple_get (heap w) self url params tries w (kept_refl w)).
  - by apply (triple_post (heap w) self url params data tries w (kept_refl w)).
  - by apply (triple_list (heap w) fuel self url params w (kept_refl w)).
Qed.

Lemma params_unchanged_witness :
  heap (SpotifyAPI.get (SpotifyAPI.new "T") "me" get_params_default 3
          (boot two_pages [])).2 !! get_params_default = Some (ODict []) /\
  heap (SpotifyAPI.post (SpotifyAPI.new "T") "me" get_params_default (VAtom ANone) 3
          (boot two_pages [])).2 !! get_params_default = Some (ODict []) /\
  heap (SpotifyAPI.list 5 (SpotifyAPI.new "T") "me/tracks" get_params_default
          (boot two_pages [])).2 !! get_params_default = Some (ODict []).
Proof.
  apply (params_unchanged (SpotifyAPI.new "T") "me" get_params_default (VAtom ANone) 3 5
           (boot two_pages []) (ODict [])).
  reflexivity.
Defined.

(** ** Walking the pages *)

Lemma getitem_atom w lo hi v p key a :
  rep (heap w) lo hi v p -> json_get key p = Some (JAtom a) ->
  getitem v key w = (Ret (VAtom a), w).
Proof.
  intros Hrep Hj. destruct (getitem_rep_some w lo hi v p key _ Hrep Hj) as (x & Hx & Hrx).
  by inversion Hrx; subst.
Qed.

Lemma getitem_array w lo hi v p key its :
  rep (heap w) lo hi v p -> json_get key p = Some (JArr its) ->
  exists l ys,
    getitem v key w = (Ret (VRef l), w) /\
    heap w !! l = Some (OList ys) /\
    Forall2 (rep (heap w) lo l) ys its /\ (lo <= l < hi)%nat.
Proof.
  intros Hrep Hj. destruct (getitem_rep_some w lo hi v p key _ Hrep Hj) as (x & Hx & Hrx).
  inversion Hrx; subst. eauto 10.
Qed.

Lemma iadd_lists w li lp vs ys :
  heap w !! li = Some (OList vs) -> heap w !! lp = Some (OList ys) ->
  iadd (VRef li) (VRef lp) w =
  (Ret (VRef li), with_heap (<[li := OList (vs ++ ys)]> (heap w)) w).
Proof.
  intros Hli Hlp. cbv [iadd bind deref iterate assign ret]. rewrite Hli, Hlp.
  reflexivity.
Qed.

Lemma get_answered self url params q f p w :
  query_at (heap w) params q ->
  arrives (transport w) (attempts (trace w)) f p ->
  exists w',
    SpotifyAPI.get self url params 3 w = (Ret (load p (heap w)).1, w') /\
    heap w' = (load p (heap w)).2 /\
    attempts (trace w') = (attempts (trace w) + S f)%nat /\
    surroundings_kept w w'.
Proof.
  intros Hq (Hf & Hfail & Hp). rewrite (get_run _ _ _ _ _ _ Hq).
  destruct (retrying_answered (Z.to_nat 3) f (with_query (prefixed url) q)
              (get_request self (with_query (prefixed url) q)) p w)
    as (w' & Hrun & Hatt & Hheap & _ & Hs); [simpl; lia|intros; by apply Hfail|apply Hp|].
  exists w'. repeat split; auto; apply Hs.
Qed.

Lemma arrives_moved net net' base base' f p :
  arrives net base f p -> net' = net -> base' = base -> arrives net' base' f p.
Proof. by intros H -> ->. Qed.

Lemma elem_represents li h v j : elem li h v j -> represents h v j.
Proof. intros (lo & hi & H & _). by exists lo, hi. Qed.

Lemma elem_grow li h ext v j : elem li h v j -> elem li (h ++ ext) v j.
Proof.
  intros (lo & hi & Hrep & Hhi & Hli). exists lo, hi. repeat split.
  - apply rep_frame with h; [done|]. intros l Hl. apply lookup_app_l. lia.
  - rewrite length_app. lia.
  - done.
Qed.

Lemma elem_assign li h o v j : elem li h v j -> elem li (<[li := o]> h) v j.
Proof.
  intros (lo & hi & Hrep & Hhi & Hli). exists lo, hi. repeat split.
  - apply rep_frame with h; [done|]. intros l Hl. apply list_lookup_insert_ne. lia.
  - by rewrite length_insert.
  - done.
Qed.

(** The progress line of lines 60-62, when the page has a total. *)
Lemma progress_run w lo hi response p li vs last now :
  rep (heap w) lo hi response p ->
  json_get "total" p <> None ->
  heap w !! li = Some (OList vs) ->
  exists t w',
    (if negb (Qle_bool now (last + (15 # 1)))
     then t <- time_time ;;
          n <- py_len (VRef li) ;;
          total <- getitem response "total" ;;
          logging_info (Loaded n total) ;;;
          ret t
     else ret last) w = (Ret t, w') /\
    heap w' = heap w /\ attempts (trace w') = attempts (trace w) /\
    surroundings_kept w w'.
Proof.
  intros Hrep Htotal Hli. destruct (negb _).
  - destruct (json_get "total" p) as [jt|] eqn:Hjt; [|done].
    destruct (getitem_rep_some (tick w) lo hi response p "total" jt Hrep Hjt)
      as (x & Hx & _).
    eexists _, _. split; [|split; [|split]].
    + cbv [bind time_time py_len deref ret]. cbn [heap tick]. rewrite Hli.
      fold (tick w). rewrite Hx. reflexivity.
    + reflexivity.
    + cbn [trace emit tick]. rewrite attempts_app. unfold attempts at 2. simpl. lia.
    + by repeat split.
  - exists last, w. repeat split.
Qed.

Lemma truthy_text w u : u <> "" -> truthy (VAtom (AStr u)) w = (Ret true, w).
Proof. intros Hu. cbn. by destruct (String.eqb_spec u ""). Qed.

(** One round of the loop, when the next page arrives. *)
Lemma list_loop_step self fuel last response p li acc f p' its' w :
  walking w response p li acc ->
  leads_on p ->
  json_get "items" p' = Some (JArr its') ->
  arrives (transport w) (attempts (trace w)) f p' ->
  exists last' response' w',
    SpotifyAPI.list_loop (S fuel) self last response (VRef li) w =
    SpotifyAPI.list_loop fuel self last' response' (VRef li) w' /\
    walking w' response' p' li (acc ++ its') /\
    attempts (trace w') = (attempts (trace w) + S f)%nat /\
    surroundings_kept w w'.
Proof.
  intros ((lo & hi & Hrep) & (vs & Hli & Hvs) & (q0 & kvs0 & Hq0 & Hs0))
    ((u & Hnext & Hu) & Htotal) Hitems Hnet.
  cbn [SpotifyAPI.list_loop].
  step (getitem_atom w lo hi response p "next" (AStr u) Hrep Hnext).
  step (truthy_text w u Hu).
  step_clock w.
  destruct (progress_run (tick w) lo hi response p li vs last (clock w (ticks w))
              Hrep Htotal Hli) as (t & w2 & Hlog & Hh2 & Ha2 & Hs2).
  step Hlog.
  cbn [heap tick trace] in Hh2, Ha2.
  assert (Hrep2 : rep (heap w2) lo hi response p) by (by rewrite Hh2).
  step (getitem_atom w2 lo hi response p "next" (AStr u) Hrep2 Hnext).
  cbn [SpotifyAPI.get_at].
  destruct (get_answered self u get_params_default q0 f p' w2) as (w3 & Hget & Hh3 & Ha3 & Hs3).
  { exists kvs0. by rewrite Hh2. }
  { eapply arrives_moved; [exact Hnet|apply Hs2|exact Ha2]. }
  step Hget.
  destruct (load_rep p' (heap w2)) as [[ext Hext] Hrep3]. rewrite <- Hh3 in Hrep3, Hext.
  destruct (getitem_array w3 _ _ _ p' "items" its' Hrep3 Hitems)
    as (lp & ys & Hpage & Hlp & Hys & Hrange).
  step Hpage.
  assert (Hli3 : heap w3 !! li = Some (OList vs)).
  { rewrite Hext. apply lookup_app_l_Some. by rewrite Hh2. }
  step (iadd_lists w3 li lp vs ys Hli3 Hlp).
  assert (Hlt : (li < length (heap w2))%nat).
  { rewrite Hh2. by apply lookup_lt_Some in Hli. }
  eexists t, _, _. split; [reflexivity|]. split; [|split].
  - split; [|split]; cbn [heap with_heap].
    + eexists _, _. apply rep_frame with (heap w3); [exact Hrep3|].
      intros l Hl. apply list_lookup_insert_ne. lia.
    + exists (vs ++ ys). split.
      * apply list_lookup_insert_eq. by apply lookup_lt_Some in Hli3.
      * apply Forall2_app.
        -- eapply Forall2_impl; [exact Hvs|]. intros x y Hxy.
           apply elem_assign. rewrite Hext, Hh2. by apply elem_grow.
        -- eapply Forall2_impl; [exact Hys|]. intros x y Hxy.
           apply elem_assign. exists (length (heap w2)), lp.
           repeat split; [done|lia|lia].
    + exists q0, kvs0. split; [|done].
      rewrite list_lookup_insert_ne.
      * rewrite Hext. apply lookup_app_l_Some. by rewrite Hh2.
      * intros ->. rewrite Hq0 in Hli. discriminate.
  - cbn [trace with_heap]. rewrite Ha3, Ha2. reflexivity.
  - eapply surroundings_kept_trans; [|eapply surroundings_kept_trans; [exact Hs2|]].
    + by repeat split.
    + destruct Hs3 as (?&?&?). by repeat split.
Qed.

(** The loop ends at a page whose [next] is null. *)
Lemma list_loop_end self fuel last response p li acc w :
  walking w response p li acc ->
  json_get "next" p = Some JNull ->
  SpotifyAPI.list_loop fuel self last response (VRef li) w = (Ret (VRef li), w).
Proof.
  intros ((lo & hi & Hrep) & _) Hnext.
  destruct fuel; cbn [SpotifyAPI.list_loop];
    by step (getitem_atom w lo hi response p "next" ANone Hrep Hnext).
Qed.

(** One round of the loop, when the request for the next page fails three
    times. *)
Lemma list_loop_fails self fuel last response p li acc w :
  walking w response p li acc ->
  leads_on p ->
  (forall i r, exists err, transport w (attempts (trace w) + i)%nat r = Failure err) ->
  exists w',
    SpotifyAPI.list_loop (S fuel) self last response (VRef li) w = (Exit 1, w') /\
    attempts (trace w') = (attempts (trace w) + 3)%nat.
Proof.
  intros ((lo & hi & Hrep) & (vs & Hli & Hvs) & (q0 & kvs0 & Hq0 & Hs0))
    ((u & Hnext & Hu) & Htotal) Hnet.
  cbn [SpotifyAPI.list_loop].
  step (getitem_atom w lo hi response p "next" (AStr u) Hrep Hnext).
  step (truthy_text w u Hu).
  step_clock w.
  destruct (progress_run (tick w) lo hi response p li vs last (clock w (ticks w))
              Hrep Htotal Hli) as (t & w2 & Hlog & Hh2 & Ha2 & Hs2).
  step Hlog.
  cbn [heap tick trace] in Hh2, Ha2.
  assert (Hrep2 : rep (heap w2) lo hi response p) by (by rewrite Hh2).
  step (getitem_atom w2 lo hi response p "next" (AStr u) Hrep2 Hnext).
  cbn [SpotifyAPI.get_at].
  assert (Hq2 : query_at (heap w2) get_params_default q0) by (exists kvs0; by rewrite Hh2).
  unfold bind at 1. rewrite (get_run _ _ _ _ _ _ Hq2).
  destruct (retrying_all_fail (Z.to_nat 3) (with_query (prefixed u) q0)
              (get_request self (with_query (prefixed u) q0)) w2)
    as (w3 & Hrun & Hatt & _).
  { intros i _. destruct Hs2 as (-> & _). rewrite Ha2. cbn [transport tick]. apply Hnet. }
  rewrite Hrun. exists w3. split; [reflexivity|]. rewrite Hatt, Ha2. reflexivity.
Qed.

(** The start of [list], when the first page arrives. *)
Lemma list_start self fuel url params q q0 f p its w :
  query_at (heap w) params q ->
  query_at (heap w) get_params_default q0 ->
  json_get "items" p = Some (JArr its) ->
  arrives (transport w) (attempts (trace w)) f p ->
  exists last response li w',
    SpotifyAPI.list fuel self url params w =
    SpotifyAPI.list_loop fuel self last response (VRef li) w' /\
    walking w' response p li its /\
    attempts (trace w') = (attempts (trace w) + S f)%nat /\
    surroundings_kept w w'.
Proof.
  intros Hq (kvs0 & Hq0 & Hs0) Hitems Hnet. unfold SpotifyAPI.list.
  step_clock w.
  destruct (get_answered self url params q f p (tick w)) as (w1 & Hget & Hh1 & Ha1 & Hs1);
    [done|done|].
  step Hget. cbn [heap tick trace] in Hh1, Ha1.
  destruct (load_rep p (heap w)) as [[ext Hext] Hrep1]. rewrite <- Hh1 in Hrep1, Hext.
  destruct (getitem_array w1 _ _ _ p "items" its Hrep1 Hitems)
    as (li & ys & Hpage & Hli & Hys & Hrange).
  step Hpage.
  eexists _, _, li, w1. split; [reflexivity|]. split; [|split].
  - split; [|split].
    + eauto.
    + exists ys. split; [done|]. eapply Forall2_impl; [exact Hys|]. intros x y Hxy.
      exists (length (heap w)), li. repeat split; [done|lia|lia].
    + exists q0, kvs0. split; [|done]. rewrite Hext. by apply lookup_app_l_Some.
  - exact Ha1.
  - destruct Hs1 as (?&?&?). by repeat split.
Qed.

(** The loop walks a chain of pages to its last page. *)
Lemma list_loop_chain self p later last rest :
  chain p later last rest ->
  forall sched fuel lastlog response li acc w,
    map snd sched = later ->
    walking w response p li acc ->
    serves (transport w) (attempts (trace w)) sched ->
    exists lastlog' response' w',
      SpotifyAPI.list_loop (length later + fuel) self lastlog response (VRef li) w =
      SpotifyAPI.list_loop fuel self lastlog' response' (VRef li) w' /\
      walking w' response' last li (acc ++ rest) /\
      attempts (trace w') = (attempts (trace w) + requests_for sched)%nat /\
      surroundings_kept w w'.
Proof.
  induction 1 as [p|p p' later last its' rest Hlead Hitems Hchain IH];
    intros sched fuel lastlog response li acc w Hsched Hwalk Hserves.
  - destruct sched; [|discriminate].
    exists lastlog, response, w. rewrite app_nil_r, Nat.add_0_r.
    split; [reflexivity|]. split; [exact Hwalk|]. split; [reflexivity|].
    apply surroundings_kept_refl.
  - destruct sched as [|[f q] sched]; [discriminate|]. injection Hsched as -> Hsched.
    destruct Hserves as [Harr Hserves]. cbn [length Nat.add].
    destruct (list_loop_step self (length later + fuel) lastlog response p li acc f p' its' w
                Hwalk Hlead Hitems Harr) as (l1 & r1 & w1 & Hstep & Hwalk1 & Ha1 & Hs1).
    destruct (IH sched fuel l1 r1 li (acc ++ its') w1 Hsched Hwalk1)
      as (l2 & r2 & w2 & Hrun & Hwalk2 & Ha2 & Hs2).
    { destruct Hs1 as (-> & _). by rewrite Ha1. }
    exists l2, r2, w2. rewrite Hstep, Hrun. rewrite <- app_assoc in Hwalk2.
    split; [reflexivity|]. split; [exact Hwalk2|]. split.
    + rewrite Ha2, Ha1. unfold requests_for. simpl. lia.
    + eapply surroundings_kept_trans; [exact Hs1|exact Hs2].
Qed.

Lemma paged_chain pages all :
  paged pages all ->
  exists p later last its rest,
    pages = p :: later /\ all = its ++ rest /\
    json_get "items" p = Some (JArr its) /\
    chain p later last rest /\ json_get "next" last = Some JNull.
Proof.
  induction 1 as [p its Hitems Hnext|p its pages rest Hitems Hlead Hpaged IH].
  - exists p, [], p, its, []. rewrite app_nil_r. repeat split; [done|constructor|done].
  - destruct IH as (p' & later & last & its' & rest' & -> & -> & Hitems' & Hchain & Hnext).
    exists p, (p' :: later), last, its, (its' ++ rest').
    repeat split; [done|by constructor|done].
Qed.

(** ** C1: all pages, in order *)

(** C1, amended. For pages that each hold an [items] array, whose [next] is
    a non-empty text on every page but the last and null on the last, and
    which arrive one per [get] (each after fewer than three failures), [list]
    returns the one list of all items in page order: as many items as the
    pages hold, none left out, none twice. It sends exactly the requests the
    pages take and stops at the page with the null [next]. *)
Theorem pagination_completeness (self : SpotifyAPI.t) (url : string) (params : loc)
    (q q0 : list (string * atom)) (sched : list (nat * JSON)) (all : list JSON)
    (fuel : nat) (w : World) :
  paged (map snd sched) all ->
  serves (transport w) (attempts (trace w)) sched ->
  query_at (heap w) params q ->
  query_at (heap w) get_params_default q0 ->
  (length sched <= S fuel)%nat ->
  exists li vs w',
    SpotifyAPI.list fuel self url params w = (Ret (VRef li), w') /\
    heap w' !! li = Some (OList vs) /\
    Forall2 (represents (heap w')) vs all /\
    length vs = length all /\
    attempts (trace w') = (attempts (trace w) + requests_for sched)%nat.
Proof.
  intros Hpaged Hserves Hq Hq0 Hfuel.
  destruct (paged_chain _ _ Hpaged)
    as (p & later & last & its & rest & Hpages & -> & Hitems & Hchain & Hnext).
  destruct sched as [|[f p0] sched]; [discriminate|].
  cbn [map snd] in Hpages. injection Hpages as Hp Hlater. subst p.
  destruct Hserves as [Harr Hserves].
  destruct (list_start self fuel url params q q0 f p0 its w Hq Hq0 Hitems Harr)
    as (l1 & r1 & li & w1 & Hstart & Hwalk1 & Ha1 & Hs1).
  rewrite Hstart.
  assert (Hlen : length later = length sched) by (by rewrite <- Hlater, length_map).
  replace fuel with (length later + (fuel - length later))%nat
    by (cbn [length] in Hfuel; lia).
  destruct (list_loop_chain self p0 later last rest Hchain sched (fuel - length later)%nat
              l1 r1 li its w1 Hlater Hwalk1)
    as (l2 & r2 & w2 & Hrun & Hwalk2 & Ha2 & Hs2).
  { destruct Hs1 as (-> & _). by rewrite Ha1. }
  rewrite Hrun, (list_loop_end self _ l2 r2 last li (its ++ rest) w2 Hwalk2 Hnext).
  destruct Hwalk2 as (_ & (vs & Hli & Hvs) & _).
  exists li, vs, w2. split; [reflexivity|]. split; [exact Hli|]. split; [|split].
  - eapply Forall2_impl; [exact Hvs|]. intros x y. apply elem_represents.
  - by eapply Forall2_length.
  - rewrite Ha2, Ha1. unfold requests_for. simpl. lia.
Qed.

Lemma pagination_completeness_witness :
  exists li vs w',
    SpotifyAPI.list 1 (SpotifyAPI.new "T") "me/tracks" list_params_default
      (boot two_pages []) = (Ret (VRef li), w') /\
    heap w' !! li = Some (OList vs) /\
    Forall2 (represents (heap w')) vs [JStr "a"; JStr "b"; JStr "c"] /\
    length vs = 3%nat /\
    attempts (trace w') = (0 + 2)%nat.
Proof.
  apply (pagination_completeness (SpotifyAPI.new "T") "me/tracks" list_params_default [] []
           [(0%nat, page_one); (0%nat, page_two)] [JStr "a"; JStr "b"; JStr "c"] 1
           (boot two_pages [])).
  - apply (paged_more page_one [JStr "a"; JStr "b"] [page_two] [JStr "c"]).
    + reflexivity.
    + split; [eexists; split; [reflexivity|discriminate]|discriminate].
    + apply paged_last; reflexivity.
  - simpl. repeat split; try lia; intros; lia.
  - exists []. split; reflexivity.
  - exists []. split; reflexivity.
  - simpl. lia.
Defined.

(** A last page whose [next] is absent does not end the walk, it raises
    [KeyError]; and the walk also ends at a [next] that is neither absent nor
    null, the empty text, with the second page never asked for. *)
Lemma pagination_counterexample :
  (SpotifyAPI.list 5 (SpotifyAPI.new "T") "me/tracks" list_params_default
     (boot no_next_net [])).1 = Raise (KeyError "next") /\
  (SpotifyAPI.list 5 (SpotifyAPI.new "T") "me/tracks" list_params_default
     (boot empty_next_net [])).1 = Ret (VRef 3%nat) /\
  heap (SpotifyAPI.list 5 (SpotifyAPI.new "T") "me/tracks" list_params_default
     (boot empty_next_net [])).2 !! 3%nat = Some (OList [VAtom (AStr "a")]) /\
  attempts (trace (SpotifyAPI.list 5 (SpotifyAPI.new "T") "me/tracks" list_params_default
     (boot empty_next_net [])).2) = 1%nat.
Proof. repeat split; vm_compute; reflexivity. Qed.

(** ** C7: a page that cannot be fetched *)

Lemma open_chain p later :
  open_page p -> Forall open_page later ->
  exists last rest, chain p later last rest /\ leads_on last.
Proof.
  intros Hp Hlater. revert p Hp.
  induction Hlater as [|p' later [[its' Hitems'] Hlead'] Hlater IH]; intros p [_ Hlead].
  - exists p, []. split; [constructor|done].
  - destruct (IH p') as (last & rest & Hchain & Hlast); [by split; [exists its'|]|].
    exists last, (its' ++ rest). split; [by constructor|done].
Qed.

(** C7. When the pages of [sched] have arrived and every later request
    fails, the [get] for the next page uses up its three tries and [list]
    ends the process with exit status 1: the items gathered so far are not
    returned. The same holds when the very first request cannot be
    fetched. *)
Theorem partial_pagination_failure (self : SpotifyAPI.t) (url : string) (params : loc)
    (q q0 : list (string * atom)) (sched : list (nat * JSON)) (fuel : nat) (w : World) :
  Forall open_page (map snd sched) ->
  serves (transport w) (attempts (trace w)) sched ->
  (forall i r, exists err,
     transport w (attempts (trace w) + requests_for sched + i)%nat r = Failure err) ->
  query_at (heap w) params q ->
  query_at (heap w) get_params_default q0 ->
  (length sched <= fuel)%nat ->
  exists w',
    SpotifyAPI.list fuel self url params w = (Exit 1, w') /\
    attempts (trace w') = (attempts (trace w) + requests_for sched + 3)%nat.
Proof.
  intros Hopen Hserves Hdead Hq Hq0 Hfuel.
  destruct sched as [|[f p] sched].
  - unfold SpotifyAPI.list.
    step_clock w.
    unfold bind at 1. rewrite (get_run _ _ _ _ _ (tick w) Hq).
    destruct (retrying_all_fail (Z.to_nat 3) (with_query (prefixed url) q)
                (get_request self (with_query (prefixed url) q)) (tick w))
      as (w' & Hrun & Hatt & _).
    { intros i _. cbn [transport tick trace]. destruct (Hdead i (get_request self
        (with_query (prefixed url) q))) as [err Herr]. exists err. rewrite <- Herr.
      f_equal. unfold requests_for. simpl. lia. }
    rewrite Hrun. exists w'. split; [reflexivity|]. rewrite Hatt. unfold requests_for. simpl. lia.
  - cbn [map snd] in Hopen. inversion Hopen as [|? ? Hp Hlater]; subst.
    destruct (open_chain p (map snd sched) Hp Hlater) as (last & rest & Hchain & Hlast).
    destruct Hp as [[its Hitems] _]. destruct Hserves as [Harr Hserves].
    destruct (list_start self fuel url params q q0 f p its w Hq Hq0 Hitems Harr)
      as (l1 & r1 & li & w1 & Hstart & Hwalk1 & Ha1 & Hs1).
    rewrite Hstart.
    replace fuel with (length (map snd sched) + S (fuel - S (length sched)))%nat
      by (rewrite length_map; cbn [length] in Hfuel; lia).
    destruct (list_loop_chain self p (map snd sched) last rest Hchain sched
                (S (fuel - S (length sched))) l1 r1 li its w1 eq_refl Hwalk1)
      as (l2 & r2 & w2 & Hrun & Hwalk2 & Ha2 & Hs2).
    { destruct Hs1 as (-> & _). by rewrite Ha1. }
    rewrite Hrun.
    destruct (list_loop_fails self (fuel - S (length sched)) l2 r2 last li (its ++ rest) w2
                Hwalk2 Hlast) as (w3 & Hexit & Ha3).
    { intros i r. destruct Hs2 as (-> & _). destruct Hs1 as (-> & _).
      rewrite Ha2, Ha1. destruct (Hdead i r) as [err Herr]. exists err. rewrite <- Herr.
      f_equal. unfold requests_for. simpl. lia. }
    exists w3. split; [exact Hexit|]. rewrite Ha3, Ha2, Ha1. unfold requests_for. simpl. lia.
Qed.

Lemma partial_pagination_failure_witness :
  exists w',
    SpotifyAPI.list 1 (SpotifyAPI.new "T") "me/tracks" list_params_default
      (boot one_page_net []) = (Exit 1, w') /\
    attempts (trace w') = (0 + 1 + 3)%nat.
Proof.
  apply (partial_pagination_failure (SpotifyAPI.new "T") "me/tracks" list_params_default [] []
           [(0%nat, page_one)] 1 (boot one_page_net [])).
  - repeat constructor.
    + by exists [JStr "a"; JStr "b"].
    + eexists. split; [reflexivity|discriminate].
    + discriminate.
  - simpl. repeat split; try lia; intros; lia.
  - intros i r. exists (OSError "unreachable"). reflexivity.
  - exists []. split; reflexivity.
  - exists []. split; reflexivity.
  - simpl. lia.
Defined.

(** ** Chunks and titles *)

Lemma take_min_length {A} (l : list A) (n : nat) : take (n `min` length l) l = take n l.
Proof.
  destruct (Nat.le_ge_cases n (length l)) as [H|H].
  - by rewrite Nat.min_l.
  - rewrite Nat.min_r by done. by rewrite !take_ge by lia.
Qed.

Lemma range_count (len n : Z) :
  0 <= len -> 0 < n ->
  (if 0 <? len then (len - 0 - 1) / n + 1 else 0) = (len + n - 1) / n.
Proof.
  intros Hlen Hn. destruct (Z.ltb_spec 0 len) as [H|H].
  - replace (len + n - 1) with (len - 0 - 1 + 1 * n) by lia.
    rewrite Z.div_add by lia. done.
  - replace len with 0 by lia. symmetry. apply Z.div_small. lia.
Qed.

Lemma chunk_starts_in_list (len n : Z) (k : nat) :
  0 <= len -> 0 < n -> (k < Z.to_nat ((len + n - 1) / n))%nat -> Z.of_nat k * n < len.
Proof.
  intros Hlen Hn Hk.
  assert (Z.of_nat k < (len + n - 1) / n) as Hk'.
  { assert (0 <= (len + n - 1) / n) by (apply Z.div_pos; lia). lia. }
  assert (n * ((len + n - 1) / n) <= len + n - 1) by (apply Z.mul_div_le; lia).
  nia.
Qed.

Lemma py_slice_chunk {A} (l : list A) (n : Z) (k : nat) :
  0 < n -> Z.of_nat k * n < Z.of_nat (length l) ->
  py_slice l (0 + Z.of_nat k * n) (0 + Z.of_nat k * n + n) =
  take (Z.to_nat n) (drop (k * Z.to_nat n) l).
Proof.
  intros Hn Hk. unfold py_slice, slice_index.
  destruct (Z.ltb_spec (0 + Z.of_nat k * n) 0) as [?|_]; [lia|].
  destruct (Z.ltb_spec (0 + Z.of_nat k * n + n) 0) as [?|_]; [lia|].
  rewrite (Z.min_l (0 + Z.of_nat k * n)) by lia.
  replace (Z.to_nat (0 + Z.of_nat k * n)) with (k * Z.to_nat n)%nat by lia.
  rewrite <- (take_min_length (drop _ l) (Z.to_nat n)). f_equal.
  rewrite length_drop. lia.
Qed.

(** For a positive size the chunks are the successive runs of [n] items. *)
Lemma chunks_pos {A} (l : list A) (n : Z) :
  0 < n ->
  chunks l n =
  inr (map (fun k => take (Z.to_nat n) (drop (k * Z.to_nat n) l))
         (seq 0 (Z.to_nat ((Z.of_nat (length l) + n - 1) / n)))).
Proof.
  intros Hn. unfold chunks, py_range.
  destruct (Z.eqb_spec n 0) as [?|_]; [lia|].
  destruct (Z.ltb_spec 0 n) as [_|?]; [|lia].
  rewrite range_count by lia. f_equal. rewrite map_map.
  apply map_ext_in. intros k Hk. apply in_seq in Hk.
  apply py_slice_chunk; [done|]. apply chunk_starts_in_list; lia.
Qed.

Lemma concat_runs {A} (l : list A) (n c : nat) :
  concat (map (fun k => take n (drop (k * n) l)) (seq 0 c)) = take (c * n) l.
Proof.
  induction c as [|c IH]; [done|].
  rewrite seq_S, map_app, concat_app, IH. simpl. rewrite app_nil_r.
  rewrite take_take_drop. f_equal. lia.
Qed.

Lemma chunk_count_covers (len n : Z) :
  0 <= len -> 0 < n -> len <= (len + n - 1) / n * n.
Proof.
  intros Hlen Hn.
  pose proof (Z.mul_succ_div_gt (len + n - 1) n Hn). lia.
Qed.

(** ** X1-X3: [chunks] *)

(** X1. For a positive size, [chunks] loses nothing and repeats nothing: the
    chunks, put one after the other, are the list again, items in order. *)
Theorem chunks_concat {A} (lst : list A) (n : Z) :
  0 < n -> exists cs, chunks lst n = inr cs /\ concat cs = lst.
Proof.
  intros Hn. eexists. split; [by apply chunks_pos|].
  rewrite concat_runs. apply take_ge.
  pose proof (chunk_count_covers (Z.of_nat (length lst)) n).
  assert (0 <= (Z.of_nat (length lst) + n - 1) / n) by (apply Z.div_pos; lia).
  nia.
Qed.

Lemma chunks_concat_witness :
  exists cs, chunks [1; 2; 3; 4; 5; 6; 7] 3 = inr cs /\ concat cs = [1; 2; 3; 4; 5; 6; 7].
Proof. apply (chunks_concat [1; 2; 3; 4; 5; 6; 7] 3). lia. Defined.

(** X2. For a positive size [n], a list of [len] items gives
    [(len + n - 1) // n] chunks; chunk [i] is the run of items from position
    [i * n] on; no chunk is empty or longer than [n], and every chunk but the
    last holds exactly [n] items. *)
Theorem chunks_sizes {A} (lst : list A) (n : Z) (cs : list (list A)) :
  0 < n -> chunks lst n = inr cs ->
  Z.of_nat (length cs) = (Z.of_nat (length lst) + n - 1) / n /\
  forall i c, cs !! i = Some c ->
    c = take (Z.to_nat n) (drop (i * Z.to_nat n) lst) /\
    0 < Z.of_nat (length c) <= n /\
    (S i < length cs -> Z.of_nat (length c) = n)%nat.
Proof.
  intros Hn Hcs. rewrite chunks_pos in Hcs by done. injection Hcs as <-.
  pose proof (Z.div_pos (Z.of_nat (length lst) + n - 1) n) as Hc.
  rewrite length_map, length_seq. split; [lia|].
  intros i c Hi. rewrite list_lookup_fmap in Hi.
  destruct (seq _ _ !! i) as [k|] eqn:Hk; [|done]. injection Hi as <-.
  apply lookup_seq in Hk as [-> Hk]. simpl. split; [done|].
  pose proof (chunk_starts_in_list (Z.of_nat (length lst)) n i) as Hin.
  rewrite length_take, length_drop. split; [lia|].
  intros Hnext.
  pose proof (chunk_starts_in_list (Z.of_nat (length lst)) n (S i)) as Hin'.
  lia.
Qed.

Lemma chunks_sizes_witness :
  Z.of_nat (length [[1; 2; 3]; [4; 5; 6]; [7]]) =
    (Z.of_nat (length [1; 2; 3; 4; 5; 6; 7]) + 3 - 1) / 3 /\
  forall i c, [[1; 2; 3]; [4; 5; 6]; [7]] !! i = Some c ->
    c = take (Z.to_nat 3) (drop (i * Z.to_nat 3) [1; 2; 3; 4; 5; 6; 7]) /\
    0 < Z.of_nat (length c) <= 3 /\
    ((S i < length [[1; 2; 3]; [4; 5; 6]; [7]])%nat -> Z.of_nat (length c) = 3).
Proof.
  apply (chunks_sizes [1; 2; 3; 4; 5; 6; 7] 3 [[1; 2; 3]; [4; 5; 6]; [7]]); [lia|reflexivity].
Defined.

(** X3. The sizes that [main] never passes: size 0 raises [ValueError] (the
    step of [range]); a negative size gives no chunk at all, so the items are
    dropped without an error; an empty list gives no chunk; and a list that is
    not longer than the size is one chunk. *)
Theorem chunks_edges {A} (lst : list A) (n : Z) :
  chunks lst 0 = inl ValueError /\
  (n < 0 -> chunks lst n = inr []) /\
  (n <> 0 -> chunks (@nil A) n = inr []) /\
  (lst <> [] -> Z.of_nat (length lst) <= n -> chunks lst n = inr [lst]).
Proof.
  split; [done|]. split; [|split].
  - intros Hn. unfold chunks, py_range.
    destruct (Z.eqb_spec n 0); [lia|]. destruct (Z.ltb_spec 0 n); [lia|].
    destruct (Z.ltb_spec (Z.of_nat (length lst)) 0); [lia|]. done.
  - intros Hn. unfold chunks, py_range.
    destruct (Z.eqb_spec n 0); [lia|]. simpl. by destruct (0 <? n).
  - intros Hl Hn. assert (0 < length lst)%nat by (destruct lst; [done|simpl; lia]).
    rewrite chunks_pos by lia.
    replace ((Z.of_nat (length lst) + n - 1) / n) with 1.
    + simpl. by rewrite drop_0, take_ge by lia.
    + symmetry. replace (Z.of_nat (length lst) + n - 1) with (Z.of_nat (length lst) - 1 + 1 * n) by lia.
      rewrite Z.div_add by lia. rewrite Z.div_small by lia. done.
Qed.

Example chunks_of_seven :
  chunks [1; 2; 3; 4; 5; 6; 7] 3 = inr [[1; 2; 3]; [4; 5; 6]; [7]] /\
  chunks [1; 2; 3] (-1) = inr [] /\
  py_slice [1; 2; 3; 4; 5; 6] (-2) 100 = [5; 6] /\
  py_range 10 0 (-3) = Some [10; 7; 4; 1].
Proof. repeat split. Qed.

Lemma closes_kept (s : string) : closes s = false -> closes (sub_parens false s) = false.
Proof.
  induction s as [|c r IH]; [done|]. cbn [closes sub_parens]. intros H.
  apply orb_false_iff in H as [Hc H].
  destruct (Ascii.eqb c "(" && closes r) eqn:Hm.
  - apply andb_true_iff in Hm as [Hp Hr]. rewrite Hr, andb_true_r in H.
    apply Ascii.eqb_eq in Hp as ->. done.
  - cbn [closes]. rewrite Hc. simpl. destruct (Ascii.eqb c LF); [done|]. simpl in *. auto.
Qed.

Lemma sub_parens_no_group (s : string) : forall inside, has_group (sub_parens inside s) = false.
Proof.
  induction s as [|c r IH]; intros inside; [by destruct inside|].
  cbn [sub_parens]. destruct inside; [apply IH|].
  destruct (Ascii.eqb c "(" && closes r) eqn:Hm; [apply IH|].
  cbn [has_group]. rewrite IH, orb_false_r.
  apply andb_false_iff in Hm as [Hc|Hr]; [by rewrite Hc|].
  by rewrite closes_kept, andb_false_r.
Qed.

Lemma sub_parens_fixed (s : string) : has_group s = false -> sub_parens false s = s.
Proof.
  induction s as [|c r IH]; [done|]. cbn [has_group sub_parens]. intros H.
  apply orb_false_iff in H as [-> H]. by rewrite IH.
Qed.

Lemma closes_app (a b : string) :
  closes (a +:+ b) = closes a || (negb (char_in LF a) && closes b).
Proof.
  induction a as [|c a IH]; [done|].
  change (String c a +:+ b) with (String c (a +:+ b)). cbn [closes char_in].
  rewrite IH, (Ascii.eqb_sym LF c).
  destruct (Ascii.eqb c ")"), (Ascii.eqb c LF), (closes a), (char_in LF a), (closes b); done.
Qed.

Lemma has_group_app (a b : string) :
  has_group (a +:+ b) = false -> has_group a = false /\ has_group b = false.
Proof.
  induction a as [|c a IH]; [done|].
  change (String c a +:+ b) with (String c (a +:+ b)). cbn [has_group].
  intros H. apply orb_false_iff in H as [Hc H]. destruct (IH H) as [Ha Hb].
  split; [|done]. rewrite Ha, orb_false_r.
  apply andb_false_iff in Hc as [->|Hc]; [done|].
  rewrite closes_app in Hc. apply orb_false_iff in Hc as [-> _]. by rewrite andb_false_r.
Qed.

Lemma no_group_spec (s a b c : string) :
  has_group s = false -> s = a +:+ "(" +:+ b +:+ ")" +:+ c -> char_in LF b = true.
Proof.
  intros H ->. apply has_group_app in H as [_ H].
  change ("(" +:+ b +:+ ")" +:+ c) with (String "(" (b +:+ ")" +:+ c)) in H.
  cbn [has_group] in H. apply orb_false_iff in H as [H _].
  rewrite Ascii.eqb_refl, closes_app in H. simpl in H.
  destruct (char_in LF b); [done|]. simpl in H. by rewrite orb_true_r in H.
Qed.

Lemma length_append (a b : string) :
  String.length (a +:+ b) = (String.length a + String.length b)%nat.
Proof. induction a as [|c a IH]; [done|]. simpl. by rewrite IH. Qed.

Lemma append_nil_r (a : string) : a +:+ "" = a.
Proof.
  induction a as [|c a IH]; [done|].
  change (String c (a +:+ "") = String c a). by rewrite IH.
Qed.

Lemma join_nil_cons (c : string) (cs : list string) : join "" (c :: cs) = c +:+ join "" cs.
Proof. destruct cs; [cbn [join]; by rewrite append_nil_r|done]. Qed.

Lemma join_nil_app (a b : list string) : join "" (a ++ b) = join "" a +:+ join "" b.
Proof.
  induction a as [|c a IH]; [done|].
  rewrite <- app_comm_cons, !join_nil_cons, IH. by rewrite append_assoc.
Qed.

Lemma take_continuation_spec (s : string) :
  s = (take_continuation s).1 +:+ (take_continuation s).2 /\
  continues (take_continuation s).1 = true /\
  ((take_continuation s).2 = "" \/ leading (take_continuation s).2).
Proof.
  induction s as [|c r (IH1 & IH2 & IH3)]; [by auto|].
  cbn [take_continuation]. destruct (is_continuation c) eqn:Hc.
  - destruct (take_continuation r) as [t r']. simpl in *.
    rewrite Hc, IH2. split; [|by split].
    change (String c r = String c (t +:+ r')). by f_equal.
  - simpl. split; [done|]. split; [done|]. by right.
Qed.

Lemma take_continuation_app (t r : string) :
  continues t = true -> r = "" \/ leading r -> take_continuation (t +:+ r) = (t, r).
Proof.
  intros Ht Hr. induction t as [|c t IH].
  - destruct Hr as [->|Hr]; [done|]. destruct r as [|b r]; [done|].
    simpl in *. by rewrite Hr.
  - simpl in Ht. apply andb_true_iff in Ht as [Hc Ht].
    change (String c t +:+ r) with (String c (t +:+ r)). cbn [take_continuation].
    by rewrite Hc, IH.
Qed.

Lemma chars_fuel_join (n : nat) : forall s,
  (String.length s <= n)%nat -> join "" (chars_fuel n s) = s.
Proof.
  induction n as [|n IH]; intros s Hn.
  - destruct s; [done|simpl in Hn; lia].
  - destruct s as [|c r]; [done|]. cbn [chars_fuel].
    destruct (take_continuation_spec r) as (Hr & _ & _).
    destruct (take_continuation r) as [t r']. cbn [fst snd] in Hr.
    rewrite join_nil_cons, IH.
    + change (String c (t +:+ r') = String c r). by rewrite <- Hr.
    + subst r. simpl in Hn. rewrite length_append in Hn. lia.
Qed.

Lemma chars_join (s : string) : join "" (chars s) = s.
Proof. by apply chars_fuel_join. Qed.

Lemma chars_fuel_leading (n : nat) : forall s,
  s = "" \/ leading s ->
  Forall is_char (chars_fuel n s) /\ Forall leading (chars_fuel n s).
Proof.
  induction n as [|n IH]; intros s Hs; [done|].
  destruct s as [|c r]; [done|]. cbn [chars_fuel].
  destruct (take_continuation_spec r) as (_ & Hc & Hl).
  destruct (take_continuation r) as [t r']. simpl in *.
  destruct (IH r' Hl) as [H1 H2]. destruct Hs as [?|Hs]; [done|].
  split; constructor; done.
Qed.

Lemma chars_shape (s : string) :
  Forall is_char (chars s) /\ Forall leading (tail (chars s)).
Proof.
  unfold chars. destruct s as [|c r]; [done|]. cbn [String.length chars_fuel].
  destruct (take_continuation_spec r) as (_ & Hc & Hl).
  destruct (take_continuation r) as [t r']. simpl in *.
  destruct (chars_fuel_leading (String.length r) r' Hl) as [H1 H2].
  split; [by constructor|done].
Qed.

Lemma chars_fuel_of_join (cs : list string) : forall n,
  Forall is_char cs -> Forall leading (tail cs) ->
  (String.length (join "" cs) <= n)%nat ->
  chars_fuel n (join "" cs) = cs.
Proof.
  induction cs as [|c cs IH]; intros n Hc Hl Hn; [by destruct n|].
  apply Forall_cons in Hc as [Hc Hcs]. simpl in Hl.
  rewrite join_nil_cons in *. destruct c as [|b t]; [done|]. simpl in Hc.
  change (String b t +:+ join "" cs) with (String b (t +:+ join "" cs)) in *.
  destruct n as [|n]; [simpl in Hn; lia|]. cbn [chars_fuel].
  rewrite take_continuation_app; [|done|].
  - rewrite IH; [done|done| |].
    + destruct cs; [done|]. by apply Forall_cons in Hl as [_ ?].
    + simpl in Hn. rewrite length_append in Hn. lia.
  - destruct cs as [|c' cs]; [by left|right]. apply Forall_cons in Hl as [Hl _].
    rewrite join_nil_cons. by destruct c'.
Qed.

Lemma chars_of_join (cs : list string) :
  Forall is_char cs -> Forall leading (tail cs) -> chars (join "" cs) = cs.
Proof. intros. by apply chars_fuel_of_join. Qed.

Lemma lstrip_suffix (cs : list string) : exists pre, cs = pre ++ lstrip_chars cs.
Proof.
  induction cs as [|c cs [pre IH]]; [by exists []|]. simpl.
  destruct (isspace c); [|by exists []]. exists (c :: pre). by rewrite <- app_comm_cons, <- IH.
Qed.

Lemma lstrip_head (cs : list string) (c : string) :
  head (lstrip_chars cs) = Some c -> isspace c = false.
Proof.
  induction cs as [|d cs IH]; [done|]. simpl.
  destruct (isspace d) eqn:Hd; [done|]. simpl. by intros [= <-].
Qed.

Lemma lstrip_fixed (cs : list string) :
  (forall c, head cs = Some c -> isspace c = false) -> lstrip_chars cs = cs.
Proof. destruct cs as [|c cs]; [done|]. intros H. simpl. by rewrite (H c). Qed.

Lemma strip_chars_mid (cs : list string) :
  exists pre post, cs = pre ++ strip_chars cs ++ post.
Proof.
  unfold strip_chars. destruct (lstrip_suffix cs) as [pre Hpre].
  destruct (lstrip_suffix (reverse (lstrip_chars cs))) as [post Hpost].
  exists pre, (reverse post). rewrite <- reverse_app, <- Hpost, reverse_involutive. done.
Qed.

Lemma strip_chars_ends (cs : list string) :
  (forall c, head (strip_chars cs) = Some c -> isspace c = false) /\
  (forall c, last (strip_chars cs) = Some c -> isspace c = false).
Proof.
  unfold strip_chars. split; intros c Hc.
  - destruct (lstrip_suffix (reverse (lstrip_chars cs))) as [post Hpost].
    apply (f_equal reverse) in Hpost. rewrite reverse_involutive, reverse_app in Hpost.
    apply (lstrip_head cs). rewrite Hpost, head_app. by rewrite Hc.
  - rewrite last_reverse in Hc. by apply lstrip_head in Hc.
Qed.

Lemma strip_chars_fixed (cs : list string) :
  (forall c, head cs = Some c -> isspace c = false) ->
  (forall c, last cs = Some c -> isspace c = false) ->
  strip_chars cs = cs.
Proof.
  intros Hh Hl. unfold strip_chars. rewrite (lstrip_fixed cs) by done.
  rewrite lstrip_fixed; [apply reverse_involutive|].
  intros c. rewrite head_reverse. apply Hl.
Qed.

Lemma shape_mid (pre mid post : list string) :
  Forall is_char (pre ++ mid ++ post) -> Forall leading (tail (pre ++ mid ++ post)) ->
  Forall is_char mid /\ Forall leading (tail mid).
Proof.
  intros Hc Hl. apply Forall_app in Hc as [_ Hc]. apply Forall_app in Hc as [Hc _].
  split; [done|]. destruct mid as [|m mid]; [done|]. simpl.
  destruct pre as [|p pre]; simpl in Hl.
  - by apply Forall_app in Hl as [? _].
  - apply Forall_app in Hl as [_ Hl]. apply Forall_cons in Hl as [_ Hl].
    by apply Forall_app in Hl as [? _].
Qed.

Lemma chars_py_strip (s : string) : chars (py_strip s) = strip_chars (chars s).
Proof.
  unfold py_strip. destruct (strip_chars_mid (chars s)) as (pre & post & Hmid).
  destruct (chars_shape s) as [Hc Hl]. rewrite Hmid in Hc, Hl.
  destruct (shape_mid _ _ _ Hc Hl). by apply chars_of_join.
Qed.

Lemma py_strip_within (s : string) : exists a b, s = a +:+ py_strip s +:+ b.
Proof.
  destruct (strip_chars_mid (chars s)) as (pre & post & Hmid).
  exists (join "" pre), (join "" post). unfold py_strip.
  rewrite <- !join_nil_app, <- Hmid. by rewrite chars_join.
Qed.

Lemma py_strip_fixed (s : string) : outer_space_free s -> py_strip s = s.
Proof.
  intros [Hh Hl]. unfold py_strip. rewrite strip_chars_fixed by done. apply chars_join.
Qed.

Lemma py_strip_stripped (s : string) : outer_space_free (py_strip s).
Proof. unfold outer_space_free. rewrite chars_py_strip. apply strip_chars_ends. Qed.

Lemma clean_title_has_no_group (s : string) : has_group (clean_title s) = false.
Proof.
  unfold clean_title. pose proof (sub_parens_no_group s false) as H.
  destruct (py_strip_within (re_sub_parens s)) as (a & b & Hab).
  unfold re_sub_parens in *. rewrite Hab in H.
  apply has_group_app in H as [_ H]. by apply has_group_app in H as [H _].
Qed.

Lemma clean_title_unchanged (title : string) :
  has_group title = false -> outer_space_free title -> clean_title title = title.
Proof.
  intros Hg Hs. unfold clean_title, re_sub_parens. rewrite sub_parens_fixed by done.
  by apply py_strip_fixed.
Qed.

(** ** X4-X7: the cleaned title of line 203 *)

(** X4. No parenthesised remark is left in a cleaned title: wherever it
    still holds a [(] and a later [)], a line feed lies between them (the
    pattern's [.] does not cross one). *)
Theorem clean_title_no_group (title a b c : string) :
  clean_title title = a +:+ "(" +:+ b +:+ ")" +:+ c -> char_in LF b = true.
Proof. apply no_group_spec, clean_title_has_no_group. Qed.

Lemma clean_title_no_group_witness : char_in LF (String "a" (String LF "")) = true.
Proof.
  apply (clean_title_no_group (String "(" (String "a" (String LF ")"))) ""
           (String "a" (String LF "")) "").
  reflexivity.
Defined.

(** X5. A cleaned title neither starts nor ends with a whitespace
    character, in the sense of [str.isspace] (so also no-break spaces and the
    like). *)
Theorem clean_title_stripped (title : string) : outer_space_free (clean_title title).
Proof. apply py_strip_stripped. Qed.

(** X6. Cleaning is idempotent: a cleaned title is cleaned to itself. Taking
    a remark out never brings a new one about, and stripping never uncovers
    one. *)
Theorem clean_title_idempotent (title : string) :
  clean_title (clean_title title) = clean_title title.
Proof.
  apply clean_title_unchanged; [apply clean_title_has_no_group|apply py_strip_stripped].
Qed.

(** X7. A title that holds no [(] closed on its line and has no whitespace
    at either end is searched for as it is. *)
Theorem clean_title_fixed (title : string) :
  has_group title = false -> outer_space_free title -> clean_title title = title.
Proof. apply clean_title_unchanged. Qed.

Lemma clean_title_fixed_witness : clean_title "Hey Jude" = "Hey Jude".
Proof.
  apply (clean_title_fixed "Hey Jude"); [reflexivity|].
  split; intros c Hc; vm_compute in Hc; injection Hc as <-; reflexivity.
Defined.

Example clean_title_examples :
  clean_title " Song (live)  " = "Song" /\
  clean_title "a (b (c) d) e" = "a  d) e" /\
  clean_title "A (x) B (y) C" = "A  B  C" /\
  clean_title (String "(" (String "a" (String LF ")b(c)"))) =
    String "(" (String "a" (String LF ")b")).
Proof. repeat split. Qed.

Lemma emits_reads {A} (E : Event -> Prop) (m : M A) : reads m -> emits E m.
Proof. intros H w. exists []. by rewrite H, app_nil_r. Qed.

Lemma emits_bind_ret {A B} (E : Event -> Prop) (R : A -> Prop) (m : M A) (k : A -> M B) :
  (forall w a, (m w).1 = Ret a -> R a) ->
  emits E m -> (forall a, R a -> emits E (k a)) -> emits E (bind m k).
Proof.
  intros HR Hm Hk w. unfold bind. destruct (Hm w) as (tr & Ht & HE).
  specialize (HR w). destruct (m w) as [[a|e|c| | |] w1]; cbn [fst snd] in *; eauto.
  destruct (Hk a (HR a eq_refl) w1) as (tr' & Ht' & HE').
  exists (tr ++ tr'). rewrite Ht', Ht, app_assoc. split; [done|]. by apply Forall_app.
Qed.

Lemma emits_bind {A B} (E : Event -> Prop) (m : M A) (k : A -> M B) :
  emits E m -> (forall a, emits E (k a)) -> emits E (bind m k).
Proof. intros Hm Hk. apply (emits_bind_ret E (fun _ => True)); auto. Qed.

Lemma emits_try_except {A} (E : Event -> Prop) (m : M A) (h : exn -> M A) :
  emits E m -> (forall e, emits E (h e)) -> emits E (try_except m h).
Proof.
  intros Hm Hh w. unfold try_except. destruct (Hm w) as (tr & Ht & HE).
  destruct (m w) as [[a|e|c| | |] w1]; cbn [fst snd] in *; eauto.
  destruct (Hh e w1) as (tr' & Ht' & HE').
  exists (tr ++ tr'). rewrite Ht', Ht, app_assoc. split; [done|]. by apply Forall_app.
Qed.

Lemma emits_weaken {A} (E E' : Event -> Prop) (m : M A) :
  (forall e, E e -> E' e) -> emits E m -> emits E' m.
Proof.
  intros HE Hm w. destruct (Hm w) as (tr & Ht & Htr). exists tr. split; [done|].
  eapply Forall_impl; eauto.
Qed.

Lemma emits_event {A} (E : Event -> Prop) (e : Event) (r : Outcome A) :
  E e -> emits E (fun w => (r, emit e w)).
Proof. intros He w. exists [e]. split; [done|]. by constructor. Qed.

Lemma emits_same_trace {A} (E : Event -> Prop) (m : M A) :
  (forall w, trace (m w).2 = trace w) -> emits E m.
Proof. intros H w. exists []. by rewrite H, app_nil_r. Qed.

Lemma emits_urlopen (E : Event -> Prop) (r : Request) : E (Urlopen r) -> emits E (urlopen r).
Proof.
  intros He w. exists [Urlopen r]. unfold urlopen.
  split; [by destruct (transport w _ r)|by constructor].
Qed.

Lemma emits_json_load (E : Event -> Prop) (j : JSON) : emits E (json_load j).
Proof. apply emits_same_trace. intros w. unfold json_load. by destruct (load j (heap w)). Qed.

Lemma emits_retrying (E : Event -> Prop) (n : nat) (url : string) (req : Request) :
  (forall e, loop_event e -> E e) -> E (Urlopen req) ->
  emits E (retrying n url (j <- urlopen req ;; json_load j)).
Proof.
  intros Hloop Hreq. induction n as [|n IH]; [by apply emits_reads|].
  cbn [retrying]. apply emits_try_except.
  - apply emits_bind; [by apply emits_urlopen|]. intros j. apply emits_json_load.
  - intros err. unfold logging_info, time_sleep.
    apply emits_bind; [by apply emits_event, Hloop|]. intros _.
    apply emits_bind; [by apply emits_event, Hloop|]. intros _.
    apply emits_bind; [by apply emits_event, Hloop|]. intros _. done.
Qed.

Lemma startswith_app (a b pre : string) :
  startswith a pre = true -> startswith (a +:+ b) pre = true.
Proof.
  revert a. induction pre as [|c pre IH]; intros a; [intros _; by destruct (a +:+ b)|].
  destruct a as [|d a]; [done|]. change (String d a +:+ b) with (String d (a +:+ b)).
  cbn [startswith]. intros H. apply andb_true_iff in H as [-> H]. by apply IH.
Qed.

Lemma startswith_refl_app (pre b : string) : startswith (pre +:+ b) pre = true.
Proof.
  induction pre as [|c pre IH]; [by destruct b|].
  change (String c pre +:+ b) with (String c (pre +:+ b)).
  cbn [startswith]. by rewrite Ascii.eqb_refl.
Qed.

Lemma prefixed_under_base (url : string) : startswith (prefixed url) SpotifyAPI.BASE = true.
Proof.
  unfold prefixed. destruct (startswith url SpotifyAPI.BASE) eqn:H; [done|].
  apply startswith_refl_app.
Qed.

Lemma build_url_under_base (url : string) (params : loc) (w : World) (u : string) :
  (SpotifyAPI.build_url url params w).1 = Ret u -> startswith u SpotifyAPI.BASE = true.
Proof.
  unfold SpotifyAPI.build_url.
  assert (startswith (if negb (startswith url SpotifyAPI.BASE)
                      then SpotifyAPI.BASE +:+ url else url) SpotifyAPI.BASE = true) as Hp.
  { pose proof (prefixed_under_base url) as H. unfold prefixed in H.
    by destruct (startswith url SpotifyAPI.BASE). }
  revert Hp. generalize (if negb (startswith url SpotifyAPI.BASE)
                         then SpotifyAPI.BASE +:+ url else url). intros p Hp.
  unfold bind. destruct (truthy (VRef params) w) as [[[]|e|c| | |] w1]; cbn; try done.
  - destruct (urlencode_at params w1) as [[q|e|c| | |] w2]; cbn; try done.
    intros [= <-]. by apply startswith_app.
  - by intros [= <-].
Qed.

Lemma emits_get (self : SpotifyAPI.t) (url : string) (params : loc) (tries : Z) :
  emits (api_event self false) (SpotifyAPI.get self url params tries).
Proof.
  unfold SpotifyAPI.get.
  apply (emits_bind_ret _ (fun u => startswith u SpotifyAPI.BASE = true)).
  - intros w u. apply build_url_under_base.
  - apply emits_reads, reads_build_url.
  - intros u Hu. apply emits_retrying; [by intros [] | done].
Qed.

Lemma emits_post (self : SpotifyAPI.t) (url : string) (params : loc) (data : val) (tries : Z) :
  emits (api_event self true) (SpotifyAPI.post self url params data tries).
Proof.
  unfold SpotifyAPI.post.
  apply (emits_bind_ret _ (fun u => startswith u SpotifyAPI.BASE = true)).
  - intros w u. apply build_url_under_base.
  - apply emits_reads, reads_build_url.
  - intros u Hu. apply emits_bind.
    + destruct data as [[]|]; try (apply emits_reads; intros w; reflexivity);
        (apply emits_reads, reads_bind; [apply reads_json_dumps|by intros j w]).
    + intros body. apply emits_retrying; [by intros [] | done].
Qed.

Lemma emits_get_at (self : SpotifyAPI.t) (v : val) :
  emits (api_event self false) (SpotifyAPI.get_at self v).
Proof.
  destruct v as [[]|]; try (apply emits_reads; intros w; reflexivity). apply emits_get.
Qed.

Lemma emits_iadd (E : Event -> Prop) (a b : val) : emits E (iadd a b).
Proof.
  apply emits_same_trace. intros w. unfold iadd.
  destruct a as [[|x|z|s]|l]; [done| | | |].
  1-3: by destruct b as [[]|].
  unfold bind, deref. destruct (heap w !! l) as [[xs|kvs]|]; try done.
  pose proof (reads_iterate b w) as Hb.
  destruct (iterate b w) as [[ys|e|c| | |] w1]; cbn [snd] in *; by subst.
Qed.

Lemma emits_time_time (E : Event -> Prop) : emits E time_time.
Proof. by apply emits_same_trace. Qed.

Lemma emits_list_loop (self : SpotifyAPI.t) (fuel : nat) : forall last response items,
  emits (api_event self false) (SpotifyAPI.list_loop fuel self last response items).
Proof.
  induction fuel as [|fuel IH]; intros last response items; cbn [SpotifyAPI.list_loop].
  - apply emits_bind; [apply emits_reads, reads_getitem|]. intros nxt.
    apply emits_bind; [apply emits_reads, reads_truthy|]. intros []; by apply emits_reads.
  - apply emits_bind; [apply emits_reads, reads_getitem|]. intros nxt.
    apply emits_bind; [apply emits_reads, reads_truthy|]. intros []; [|by apply emits_reads].
    apply emits_bind; [apply emits_time_time|]. intros now.
    apply emits_bind.
    { destruct (negb _); [|by apply emits_reads].
      apply emits_bind; [apply emits_time_time|]. intros t.
      apply emits_bind; [apply emits_reads, reads_py_len|]. intros n.
      apply emits_bind; [apply emits_reads, reads_getitem|]. intros total.
      apply emits_bind; [by apply emits_event|]. intros _. by apply emits_reads. }
    intros last'.
    apply emits_bind; [apply emits_reads, reads_getitem|]. intros nxt'.
    apply emits_bind; [apply emits_get_at|]. intros response'.
    apply emits_bind; [apply emits_reads, reads_getitem|]. intros page.
    apply emits_bind; [apply emits_iadd|]. intros items'. apply IH.
Qed.

Lemma emits_list (self : SpotifyAPI.t) (fuel : nat) (url : string) (params : loc) :
  emits (api_event self false) (SpotifyAPI.list fuel self url params).
Proof.
  unfold SpotifyAPI.list.
  apply emits_bind; [apply emits_time_time|]. intros last.
  apply emits_bind; [apply emits_get|]. intros response.
  apply emits_bind; [apply emits_reads, reads_getitem|]. intros items.
  apply emits_list_loop.
Qed.

(** ** X8: what [get], [list] and [post] may add to the trace *)

(** X8. Whatever the arguments, the network and the outcome, [get] and
    [list] add nothing to the trace but requests without a body, and [post]
    nothing but requests declared as JSON; each of these requests goes to a
    URL under [BASE] and carries the session's token as its bearer token.
    Besides them there are only the log lines of the retry loop and of the
    progress report, and pauses of two seconds: no browser is opened and no
    server is started. *)
Theorem api_footprint (self : SpotifyAPI.t) (url : string) (params : loc) (data : val)
    (tries : Z) (fuel : nat) :
  emits (api_event self false) (SpotifyAPI.get self url params tries) /\
  emits (api_event self false) (SpotifyAPI.list fuel self url params) /\
  emits (api_event self true) (SpotifyAPI.post self url params data tries).
Proof. split; [apply emits_get|]. split; [apply emits_list|apply emits_post]. Qed.

Lemma retrying_retried (n : nat) (url : string) (req : Request) : forall w,
  exists errs,
    retried n url req errs
      (retrying n url (j <- urlopen req ;; json_load j) w).1 w
      (retrying n url (j <- urlopen req ;; json_load j) w).2.
Proof.
  induction n as [|n IH]; intros w.
  - exists []. split; [done|]. right. cbn. by rewrite app_nil_r.
  - destruct (transport w (attempts (trace w)) req) as [err|j] eqn:Hnet.
    + rewrite (retrying_step_fail n url req err w Hnet).
      destruct (IH (after_failure url req err w)) as (errs & Herrs & Hcase).
      rewrite after_failure_attempts in Herrs, Hcase.
      change (transport (after_failure url req err w)) with (transport w) in *.
      exists (err :: errs). split.
      * intros [|i] e He; simpl in He.
        -- injection He as <-. by rewrite Nat.add_0_r.
        -- rewrite <- Nat.add_succ_comm. by apply Herrs.
      * change (trace (after_failure url req err w))
          with (((((trace w ++ [Urlopen req]) ++ [LogInfo (CouldntLoad url err)]) ++
                  [Sleep 2]) ++ [LogInfo TryingAgain])) in Hcase.
        rewrite <- !app_assoc in Hcase. cbn [app] in Hcase.
        destruct Hcase as [(v & j & Hr & Hlen & Hj & Hrep & Htr)|(Hr & Hlen & Htr)].
        -- left. exists v, j. rewrite Hr, Htr. cbn [length flat_map failed_attempt app].
           rewrite <- Nat.add_succ_comm. split; [done|]. split; [lia|]. done.
        -- right. rewrite Hr, Htr. cbn [length flat_map failed_attempt app]. by rewrite Hlen.
    + rewrite (retrying_step_ok n url req j w Hnet). exists []. split; [done|].
      left. exists (load j (heap w)).1, j. cbn [fst snd length flat_map app].
      rewrite Nat.add_0_r. split; [done|]. split; [lia|]. split; [done|]. split; [|done].
      destruct (load_rep j (heap w)) as [_ Hrep]. by eexists _, _.
Qed.

(** ** X9: the retry loop, for any network *)



Example retry_twice :
  trace (SpotifyAPI.get (SpotifyAPI.new "T") "me" get_params_default 3
           (boot (flaky_net (JObj [("id", JStr "u1")])) [])).2 =
  failed_attempt "https://api.spotify.com/v1/me"
    (get_request (SpotifyAPI.new "T") "https://api.spotify.com/v1/me") (OSError "reset") ++
  failed_attempt "https://api.spotify.com/v1/me"
    (get_request (SpotifyAPI.new "T") "https://api.spotify.com/v1/me") (OSError "reset") ++
  [Urlopen (get_request (SpotifyAPI.new "T") "https://api.spotify.com/v1/me")].
Proof. reflexivity. Qed.

Lemma authorize_url_shape (client_id scope : string) :
  SpotifyAPI.authorize_url client_id scope =
  "https://accounts.spotify.com/authorize?" +:+
  ("response_type=token" +:+ String "&"
     (("client_id=" +:+ quote_plus client_id) +:+ String "&"
        (("scope=" +:+ quote_plus scope) +:+ String "&"
           ("redirect_uri=" +:+ quote_plus "http://127.0.0.1:43019/redirect")))).
Proof.
  unfold SpotifyAPI.authorize_url, urlencode. cbn [map join fst snd py_str].
  rewrite !append_assoc. reflexivity.
Qed.

Lemma authorize_url_query (client_id scope : string) :
  split_on "&" (drop_until "?" (SpotifyAPI.authorize_url client_id scope)) =
  ["response_type=token"; "client_id=" +:+ quote_plus client_id;
   "scope=" +:+ quote_plus scope;
   "redirect_uri=" +:+ quote_plus "http://127.0.0.1:43019/redirect"].
Proof.
  rewrite authorize_url_shape.
  change (drop_until "?" ("https://accounts.spotify.com/authorize?" +:+ ?x)) with x.
  rewrite split_on_app by reflexivity.
  rewrite split_on_app
    by (rewrite char_in_app; rewrite quote_plus_has_no; [reflexivity|reflexivity|done]).
  rewrite split_on_app
    by (rewrite char_in_app; rewrite quote_plus_has_no; [reflexivity|reflexivity|done]).
  rewrite split_on_absent by reflexivity. done.
Qed.

(** ** X10: the fields of the authorization URL *)

(** X10. For every client id and scope, whatever characters they hold, the
    query of the authorization URL has exactly four fields, and decoding
    them gives back [token], the client id, the scope and the redirect URI:
    [urlencode] lets no [&] or [=] of a value through. *)
Theorem authorize_url_fields (client_id scope : string) :
  query_param "response_type" (SpotifyAPI.authorize_url client_id scope) = Some "token" /\
  query_param "client_id" (SpotifyAPI.authorize_url client_id scope) = Some client_id /\
  query_param "scope" (SpotifyAPI.authorize_url client_id scope) = Some scope /\
  query_param "redirect_uri" (SpotifyAPI.authorize_url client_id scope) =
    Some "http://127.0.0.1:43019/redirect" /\
  length (split_on "&" (drop_until "?" (SpotifyAPI.authorize_url client_id scope))) = 4%nat.
Proof.
  unfold query_param. rewrite authorize_url_query.
  split; [reflexivity|]. split; [|split; [|split; reflexivity]].
  - change (Some (unquote_plus (quote_plus client_id)) = Some client_id).
    by rewrite unquote_quote_plus.
  - change (Some (unquote_plus (quote_plus scope)) = Some scope).
    by rewrite unquote_quote_plus.
Qed.

Lemma token_path_search (tok rest : string) :
  char_in "&" tok = false -> rest = "" \/ startswith rest "&" = true ->
  re_search_access_token ("/token?access_token=" +:+ tok +:+ rest) = Some tok.
Proof.
  intros Htok Hrest.
  change (re_search_access_token ("/token?access_token=" +:+ tok +:+ rest))
    with (Some (take_until "&" (tok +:+ rest))).
  by rewrite take_until_app.
Qed.

(** ** X11: from the browser's request to the session *)

(** X11. When the first request that stops the server is a GET of
    [/token?access_token=] followed by a token without [&] and then the end
    of the path or a further field, from a client that stays for the
    answer, [authorize] returns a session with just that token (not decoded
    in any way). The last line it logs is the one
    about the token, the requests that came later are left untaken, and the
    login has sent no request to the API and changed no object. *)
Theorem login_round_trip (client_id scope tok rest : string)
    (pre post : list HttpRequest) (w : World) :
  char_in "&" tok = false ->
  rest = "" \/ startswith rest "&" = true ->
  incoming w = pre ++ GET ("/token?access_token=" +:+ tok +:+ rest) :: post ->
  Forall (fun r => stops r = false) pre ->
  exists w',
    SpotifyAPI.authorize client_id scope w = (Ret (SpotifyAPI.new tok), w') /\
    last (trace w') = Some (LogInfo (ReceivedToken tok)) /\
    incoming w' = post /\ heap w' = heap w /\ requests (trace w') = requests (trace w).
Proof.
  intros Htok Hrest Hin Hpre.
  rewrite (authorize_stops client_id scope w pre _ post Hin Hpre) by reflexivity.
  cbn [path hangup GET]. rewrite token_path_search by done.
  eexists. split; [reflexivity|]. split; [apply last_snoc|]. split; [done|]. split; [done|].
  cbn [trace emit answered listening]. rewrite !requests_app. cbn [requests omap].
  rewrite !app_nil_r.
  assert (forall rs, requests (map (fun r => Respond (answer r)) rs) = []) as ->; [|by rewrite app_nil_r].
  intros rs. by induction rs.
Qed.

Lemma login_round_trip_witness :
  exists w',
    SpotifyAPI.authorize "X" "a b" (boot dead_net login_requests) =
      (Ret (SpotifyAPI.new "ABC123"), w') /\
    last (trace w') = Some (LogInfo (ReceivedToken "ABC123")) /\
    incoming w' = [GET "/late"] /\ heap w' = heap (boot dead_net login_requests) /\
    requests (trace w') = requests (trace (boot dead_net login_requests)).
Proof.
  apply (login_round_trip "X" "a b" "ABC123" "&token_type=Bearer"
           [GET "/redirect"; GET "/favicon.ico"] [GET "/late"] (boot dead_net login_requests)).
  - reflexivity.
  - right. reflexivity.
  - reflexivity.
  - repeat constructor.
Defined.

Lemma getitem_rep_none (w : World) (lo hi : nat) (v : val) (kvs : list (string * JSON))
    (key : string) :
  rep (heap w) lo hi v (JObj kvs) -> json_get key (JObj kvs) = None ->
  getitem v key w = (Raise (KeyError key), w).
Proof.
  intros Hrep Hj. inversion Hrep as [| |? ? l dkvs ? Hl Hlook Hall]; subst.
  pose proof (Forall2_dict_get (rep (heap w) lo l) key _ _ Hall) as Hget.
  cbn [json_get] in Hj. rewrite Hj in Hget.
  destruct (dict_get key dkvs) as [x|] eqn:Hx; [done|].
  cbv [getitem bind deref raise ret]. by rewrite Hlook, Hx.
Qed.

Lemma getitem_rep_not_object (w : World) (lo hi : nat) (v : val) (j : JSON) (key : string) :
  rep (heap w) lo hi v j -> (forall kvs, j <> JObj kvs) ->
  getitem v key w = (Raise TypeError, w).
Proof.
  intros Hrep Hj. inversion Hrep as [|? ? l vs js Hl Hlook Hall|]; subst.
  - done.
  - cbv [getitem bind deref raise ret]. by rewrite Hlook.
  - by destruct (Hj kvs).
Qed.

(** ** X12: a first page without [items] *)

(** X12. When the first answer that [list] gets (after fewer than three
    failures) is a document without an [items] member, [list] raises
    [KeyError('items')] if the document is an object and [TypeError] if it is
    an array or a scalar; no further request is sent. *)
Theorem list_page_without_items (self : SpotifyAPI.t) (fuel : nat) (url : string)
    (params : loc) (q : list (string * atom)) (f : nat) (p : JSON) (w : World) :
  query_at (heap w) params q ->
  arrives (transport w) (attempts (trace w)) f p ->
  json_get "items" p = None ->
  exists w',
    SpotifyAPI.list fuel self url params w =
      (Raise (match p with JObj _ => KeyError "items" | _ => TypeError end), w') /\
    attempts (trace w') = (attempts (trace w) + S f)%nat.
Proof.
  intros Hq Harr Hitems. unfold SpotifyAPI.list. step_clock w.
  assert (query_at (heap (tick w)) params q) as Hq' by done.
  destruct (get_answered self url params q f p (tick w) Hq' Harr)
    as (w1 & Hget & Hheap & Hatt & _).
  step Hget. destruct (load_rep p (heap (tick w))) as [_ Hrep]. rewrite <- Hheap in Hrep.
  exists w1. split; [|done]. unfold bind.
  destruct p as [a|js|kvs].
  - by rewrite (getitem_rep_not_object w1 _ _ _ _ "items" Hrep).
  - by rewrite (getitem_rep_not_object w1 _ _ _ _ "items" Hrep).
  - by rewrite (getitem_rep_none w1 _ _ _ _ "items" Hrep Hitems).
Qed.

Lemma list_page_without_items_witness :
  exists w',
    SpotifyAPI.list 5 (SpotifyAPI.new "T") "me" list_params_default
      (boot (flaky_net (JObj [("id", JStr "u1")])) []) = (Raise (KeyError "items"), w') /\
    attempts (trace w') = (0 + 3)%nat.
Proof.
  apply (list_page_without_items (SpotifyAPI.new "T") 5 "me" list_params_default [] 2
           (JObj [("id", JStr "u1")]) (boot (flaky_net (JObj [("id", JStr "u1")])) [])).
  - exists []. split; reflexivity.
  - split; [lia|]. split.
    + intros i r Hi. exists (OSError "reset"). destruct i as [|[|i]]; [reflexivity|reflexivity|lia].
    + intros r. reflexivity.
  - reflexivity.
Defined.

Lemma emits_respond (r : HttpRequest) (s : Sent) : emits serving_event (respond r s).
Proof.
  unfold respond. destruct (hangup r); [by apply emits_reads|by apply emits_event].
Qed.

Lemma emits_handle_request : emits serving_event SpotifyAPI.handle_request.
Proof.
  intros w. unfold SpotifyAPI.handle_request.
  destruct (incoming w) as [|r rest]; [exists []; by rewrite app_nil_r|].
  assert (emits serving_event
            (try_except (SpotifyAPI.handle_one_request r) SpotifyAPI.handle_error)) as H.
  { apply emits_try_except; [|intros e; by apply emits_reads].
    unfold SpotifyAPI.handle_one_request, SpotifyAPI.do_GET, logging_info.
    destruct (String.eqb (command r) "GET"); [|apply emits_respond].
    destruct (startswith (path r) "/redirect"); [apply emits_respond|].
    destruct (startswith (path r) "/token?"); [|apply emits_respond].
    apply emits_bind; [apply emits_respond|]. intros _.
    destruct (re_search_access_token (path r)); [|by apply emits_reads].
    apply emits_bind; [by apply emits_event|]. intros _. by apply emits_reads. }
  apply (H (with_incoming rest w)).
Qed.

Lemma emits_while_true {A} (E : Event -> Prop) (body : M unit) (n : nat) :
  emits E body -> emits E (while_true (A := A) n body).
Proof.
  intros Hb. induction n as [|n IH]; [by apply emits_reads|].
  cbn [while_true]. apply emits_bind; [done|]. intros _. apply IH.
Qed.

Lemma authorize_adds (client_id scope : string) (w : World) :
  exists served,
    trace (SpotifyAPI.authorize client_id scope w).2 =
      trace w ++ [LogInfo (LoggingIn (SpotifyAPI.authorize_url client_id scope));
                  BrowserOpen (SpotifyAPI.authorize_url client_id scope);
                  Listen "0.0.0.0" 43019] ++ served /\
    Forall serving_event served /\
    heap (SpotifyAPI.authorize client_id scope w).2 = heap w.
Proof.
  rewrite authorize_run.
  destruct (emits_while_true (A := SpotifyAPI.t) serving_event SpotifyAPI.handle_request
              (S (length (incoming w))) emits_handle_request (listening client_id scope w))
    as (served & Htr & Hs).
  assert (heap (while_true (A := SpotifyAPI.t) (S (length (incoming w)))
                  SpotifyAPI.handle_request (listening client_id scope w)).2 = heap w) as Hh.
  { change (heap w) with (heap (listening client_id scope w)).
    generalize (listening client_id scope w). generalize (S (length (incoming w))).
    intros n. induction n as [|n IH]; intros w0; [done|].
    cbn [while_true]. unfold bind at 1, SpotifyAPI.handle_request at 1.
    destruct (incoming w0) as [|r rest]; [done|].
    assert (forall w1, heap (try_except (SpotifyAPI.handle_one_request r)
                               SpotifyAPI.handle_error w1).2 = heap w1) as Hstep.
    { intros w1.
      unfold try_except, SpotifyAPI.handle_one_request, SpotifyAPI.do_GET, respond.
      destruct (String.eqb (command r) "GET"); [|by destruct (hangup r)].
      destruct (startswith (path r) "/redirect"); [by destruct (hangup r)|].
      destruct (startswith (path r) "/token?"); [|by destruct (hangup r)].
      unfold bind at 1. destruct (hangup r); [done|].
      cbn. by destruct (re_search_access_token (path r)). }
    specialize (Hstep (with_incoming rest w0)).
    destruct (try_except _ _ (with_incoming rest w0)) as [[[]|e|c| | |] w1];
      cbn [snd] in *; try done. by rewrite IH. }
  exists served. split; [|split; [done|]].
  - destruct (while_true _ _ _) as [[s|[]|c| | |] w1]; cbn [snd] in *; rewrite Htr;
      cbn [listening emit trace]; by rewrite <- !app_assoc.
  - by destruct (while_true _ _ _) as [[s|[]|c| | |] w1].
Qed.

(** ** X13: what a login adds to the trace *)


Lemma emits_authorize (client_id scope : string) :
  emits no_body (SpotifyAPI.authorize client_id scope).
Proof.
  intros w. destruct (authorize_adds client_id scope w) as (served & Htr & Hs & _).
  eexists. split; [exact Htr|]. repeat (constructor; [done|]).
  eapply Forall_impl; [exact Hs|]. by intros [].
Qed.

Lemma emits_main_login (token : option string) : emits no_body (main_login token).
Proof.
  unfold main_login. destruct token as [tok|]; [|apply emits_authorize].
  destruct (negb (String.eqb tok "")); [by apply emits_reads|apply emits_authorize].
Qed.

Lemma api_get_no_body (self : SpotifyAPI.t) (e : Event) : api_event self false e -> no_body e.
Proof. destruct e; try done. intros (_ & _ & H). by apply H. Qed.

Lemma Emits_run {A} (E : Event -> Prop) (m : M A) : emits E m -> Emits E (run m).
Proof. intros H p. apply (H (world p)). Qed.

Lemma Emits_pure {A} (E : Event -> Prop) (a : A) : Emits E (pure a).
Proof. intros p. exists []. by rewrite app_nil_r. Qed.

Lemma Emits_write (E : Event -> Prop) (o : Output) : Emits E (write o).
Proof. intros p. exists []. by rewrite app_nil_r. Qed.

Lemma Emits_and_then {A B} (E : Event -> Prop) (m : Prog A) (k : A -> Prog B) :
  Emits E m -> (forall a, Emits E (k a)) -> Emits E (and_then m k).
Proof.
  intros Hm Hk p. unfold and_then. destruct (Hm p) as (tr & Ht & HE).
  destruct (m p) as [[a|e|c| | |] p1]; cbn [fst snd] in *; eauto.
  destruct (Hk a p1) as (tr' & Ht' & HE').
  exists (tr ++ tr'). rewrite Ht', Ht, app_assoc. split; [done|]. by apply Forall_app.
Qed.

Lemma emits_alloc (E : Event -> Prop) (o : obj) : emits E (alloc o).
Proof. by apply emits_same_trace. Qed.

Lemma reads_format_value (isprintable : N -> bool) (v : val) :
  reads (format_value isprintable v).
Proof.
  destruct v as [a|l]; [done|]. intros w. unfold format_value.
  by destruct (py_repr _ _ _ _ _).
Qed.

Lemma reads_getitem_0 (v : val) : reads (getitem_0 v).
Proof.
  intros w. destruct v as [[| | |s]|l]; try done.
  - cbn. by destruct (chars s).
  - unfold getitem_0, bind, deref. by destruct (heap w !! l) as [[[]|]|].
Qed.

Lemma reads_clean (v : val) : reads (clean v).
Proof. by destruct v as [[]|]. Qed.

Lemma reads_Levenshtein_distance (title : string) (v : val) :
  reads (Levenshtein_distance title v).
Proof. by destruct v as [[]|]. Qed.

Lemma reads_format_logged_in (isprintable : N -> bool) (me : val) :
  reads (format_logged_in isprintable me).
Proof.
  destruct me as [a|l]; [done|]. unfold format_logged_in.
  apply reads_deref_bind. intros [xs|kvs]; [done|].
  apply reads_bind; [apply reads_getitem|]. intros dn.
  apply reads_bind; [apply reads_format_value|]. intros a.
  apply reads_bind; [apply reads_getitem|]. intros id.
  apply reads_bind; [apply reads_format_value|]. by intros b w.
Qed.

Lemma emits_search (isprintable : N -> bool) (spotify : SpotifyAPI.t) (song : val)
    (title : string) :
  emits no_body (search isprintable spotify song title).
Proof.
  unfold search.
  apply emits_bind; [apply emits_reads, reads_getitem|]. intros artist.
  apply emits_bind; [apply emits_reads, reads_format_value|]. intros a.
  apply emits_bind; [apply emits_alloc|]. intros params.
  eapply emits_weaken; [apply api_get_no_body|apply emits_get].
Qed.

Lemma Emits_record_track (E : Event -> Prop) (song : val) (title : string) (res : val) :
  Emits E (record_track song title res).
Proof.
  unfold record_track. apply Emits_and_then.
  { apply Emits_run, emits_reads, reads_bind; [apply reads_getitem|]. intros tracks.
    apply reads_bind; [apply reads_getitem|apply reads_truthy]. }
  intros found. destruct (negb found).
  - apply Emits_and_then; [apply Emits_run, emits_reads, reads_getitem|]. intros artist.
    apply Emits_and_then; [apply Emits_write|]. intros _. apply Emits_pure.
  - apply Emits_and_then.
    { apply Emits_run, emits_reads, reads_bind; [apply reads_getitem|]. intros tracks.
      apply reads_bind; [apply reads_getitem|apply reads_getitem_0]. }
    intros track. apply Emits_and_then.
    { apply Emits_run, emits_reads.
      apply reads_bind; [apply reads_getitem|]. intros artist.
      apply reads_bind; [apply reads_getitem|]. intros name.
      apply reads_bind; [apply reads_getitem|]. intros artists.
      apply reads_bind; [apply reads_getitem_0|]. intros first.
      apply reads_bind; [apply reads_getitem|]. intros artist_name.
      apply reads_bind; [apply reads_getitem|]. intros name'.
      apply reads_bind; [apply reads_Levenshtein_distance|]. by intros d w. }
    intros row. apply Emits_and_then; [apply Emits_write|]. intros _.
    apply Emits_and_then; [apply Emits_run, emits_reads, reads_getitem|]. intros uri.
    apply Emits_pure.
Qed.

Lemma Emits_import_song (isprintable : N -> bool) (spotify : SpotifyAPI.t) (song : val) :
  Emits no_body (import_song isprintable spotify song).
Proof.
  unfold import_song.
  apply Emits_and_then.
  { apply Emits_run, emits_reads, reads_bind; [apply reads_getitem|apply reads_clean]. }
  intros title. apply Emits_and_then; [apply Emits_run, emits_search|]. intros res.
  apply Emits_record_track.
Qed.

Lemma Emits_search_all (isprintable : N -> bool) (spotify : SpotifyAPI.t)
    (songs : list val) : forall to_import,
  Emits no_body (search_all isprintable spotify songs to_import).
Proof.
  induction songs as [|song rest IH]; intros to_import; [apply Emits_pure|].
  cbn [search_all]. apply Emits_and_then; [apply Emits_import_song|]. intros uri. apply IH.
Qed.

(** ** X14, X15: a dry run, and a file that is not JSON *)

(** X14. Without [--import], [main] never sends a request with a body: all
    that a dry run asks of the API are GETs, whatever the file holds and
    whatever the browser and the network do. *)
Theorem dry_run_never_posts (isprintable : N -> bool) (args : Args) :
  import args = false -> Emits no_body (main isprintable args).
Proof.
  intros Himport. unfold main. rewrite Himport.
  apply Emits_and_then.
  { destruct (file args) as [j|]; [apply Emits_run, emits_json_load|].
    apply Emits_and_then; [apply Emits_write|]. intros _. by apply Emits_run, emits_reads. }
  intros data. apply Emits_and_then; [apply Emits_run, emits_main_login|]. intros spotify.
  apply Emits_and_then; [apply Emits_write|]. intros _.
  apply Emits_and_then.
  { eapply Emits_run, emits_weaken; [apply api_get_no_body|apply emits_get]. }
  intros me. apply Emits_and_then; [apply Emits_run, emits_reads, reads_format_logged_in|].
  intros line. apply Emits_and_then; [apply Emits_write|]. intros _.
  apply Emits_and_then; [apply Emits_run, emits_reads, reads_iterate|]. intros songs.
  apply Emits_and_then; [apply Emits_search_all|]. intros to_import. apply Emits_pure.
Qed.

Lemma dry_run_never_posts_witness :
  exists tr,
    trace (world (main ascii_only dry_args at_start).2) = trace (world at_start) ++ tr /\
    Forall no_body tr.
Proof. apply (dry_run_never_posts ascii_only dry_args eq_refl at_start). Defined.

(** X15. When the file cannot be read as JSON, [main] logs the error and
    ends the process with exit status 1 before anything else happens: no
    login, no browser, no request, and no row. *)
Theorem main_invalid_file (isprintable : N -> bool) (args : Args) (p : Process) :
  file args = None ->
  main isprintable args p =
    (Exit 1, {| world := world p;
                console := console p ++ [LogError "Invalid JSON file provided."] |}).
Proof. intros Hfile. unfold main. by rewrite Hfile. Qed.

Lemma main_invalid_file_witness :
  main ascii_only no_file at_start =
    (Exit 1, {| world := world at_start;
                console := console at_start ++ [LogError "Invalid JSON file provided."] |}).
Proof. apply (main_invalid_file ascii_only no_file at_start). reflexivity. Defined.

Lemma process_eta (p : Process) : {| world := world p; console := console p |} = p.
Proof. by destruct p. Qed.







Lemma rep_atom_inv (h : list obj) (lo hi : nat) (v : val) (a : atom) :
  rep h lo hi v (JAtom a) -> v = VAtom a.
Proof. by inversion 1. Qed.



Lemma getitem_same (w : World) (lo hi : nat) (v x : val) (j : JSON) (key : string) (a : atom) :
  rep (heap w) lo hi v j -> json_get key j = Some (JAtom a) ->
  getitem v key w = (Ret x, w) -> x = VAtom a.
Proof.
  intros Hrep Hj Hx. destruct (getitem_rep_ret w lo hi v j key x Hrep) as (jx & Hjx & Hx').
  - by rewrite Hx.
  - rewrite Hj in Hjx. injection Hjx as <-. by apply rep_atom_inv in Hx'.
Qed.







(** ** [format] is total *)

Lemma not_visiting (l : nat) (visiting : list nat) (n : nat) :
  Forall (fun l' => (n <= l')%nat) visiting -> (l < n)%nat ->
  existsb (Nat.eqb l) visiting = false.
Proof.
  intros Hv Hl. induction Hv as [|x xs Hx Hxs IH]; [done|]. cbn [existsb].
  rewrite IH, orb_false_r. apply Nat.eqb_neq. lia.
Qed.

(** A decoded document is written out in full: its objects lie below one
    another, so none is met twice and the depth of the walk is enough. *)
Lemma py_repr_rep (isprintable : N -> bool) (h : list obj) (j : JSON) :
  forall lo hi v fuel visiting,
    rep h lo hi v j -> (hi `min` length h <= fuel)%nat ->
    Forall (fun l => (hi <= l)%nat) visiting ->
    is_Some (py_repr isprintable fuel h visiting v).
Proof.
  induction j as [a|js IH|kvs IH] using JSON_ind'; intros lo hi v fuel visiting Hrep Hf Hv.
  - inversion Hrep; subst. destruct fuel; by eexists.
  - inversion Hrep as [|? ? l vs ? Hl Hlook Hall|]; subst.
    pose proof (lookup_lt_Some _ _ _ Hlook) as Hlt.
    destruct fuel as [|fuel]; [lia|].
    cbn [py_repr]. rewrite Hlook, (not_visiting l visiting hi) by (done || lia).
    apply fmap_is_Some, mapM_is_Some_2.
    clear Hrep Hlook. revert IH. induction Hall as [|x y xs ys Hxy Hall IHall]; intros IH.
    + constructor.
    + inversion IH as [|? ? Hy IH']; subst. constructor; [|by apply IHall].
      apply (Hy lo l); [done|lia|]. constructor; [done|].
      eapply Forall_impl; [exact Hv|]. intros l' Hl'. cbn in Hl'. lia.
  - inversion Hrep as [| |? ? l dkvs ? Hl Hlook Hall]; subst.
    pose proof (lookup_lt_Some _ _ _ Hlook) as Hlt.
    destruct fuel as [|fuel]; [lia|].
    cbn [py_repr]. rewrite Hlook, (not_visiting l visiting hi) by (done || lia).
    apply fmap_is_Some, mapM_is_Some_2.
    apply (dict_of_values (fun j => forall lo hi v fuel visiting,
      rep h lo hi v j -> (hi `min` length h <= fuel)%nat ->
      Forall (fun l => (hi <= l)%nat) visiting ->
      is_Some (py_repr isprintable fuel h visiting v))) in IH.
    clear Hrep Hlook. revert IH. induction Hall as [|x y xs ys [Hk Hxy] Hall IHall]; intros IH.
    + constructor.
    + inversion IH as [|? ? Hy IH']; subst. constructor; [|by apply IHall].
      cbn. apply fmap_is_Some. apply (Hy lo l); [done|lia|]. constructor; [done|].
      eapply Forall_impl; [exact Hv|]. intros l' Hl'. cbn in Hl'. lia.
Qed.

(** [format] gives a text for every value that a decoded document holds. *)
Lemma format_value_represented (isprintable : N -> bool) (v : val) (j : JSON) (w : World) :
  represents (heap w) v j -> exists text, format_value isprintable v w = (Ret text, w).
Proof.
  intros (lo & hi & Hrep). destruct v as [a|l]; [by eexists|].
  destruct (py_repr_rep isprintable (heap w) j lo hi (VRef l) (S (length (heap w))) [] Hrep)
    as [text Htext]; [lia|constructor|].
  exists text. unfold format_value. by rewrite Htext.
Qed.

Lemma short_list (ls : list nat) (n : nat) :
  NoDup ls -> Forall (fun l => (l < n)%nat) ls -> (length ls <= n)%nat.
Proof.
  intros Hnd Hall. rewrite <- (length_seq n 0). apply submseteq_length.
  apply NoDup_submseteq; [done|]. intros x Hx. apply elem_of_seq.
  rewrite Forall_forall in Hall. specialize (Hall x Hx). lia.
Qed.

Lemma py_repr_some (isprintable : N -> bool) (h : list obj) :
  closed h -> forall fuel visiting v,
    in_heap h v -> NoDup visiting -> Forall (fun l => (l < length h)%nat) visiting ->
    (length h < fuel + length visiting)%nat ->
    is_Some (py_repr isprintable fuel h visiting v).
Proof.
  intros Hclosed fuel. induction fuel as [|fuel IH]; intros visiting v Hv Hnd Hlt Hfuel.
  - pose proof (short_list visiting (length h) Hnd Hlt). lia.
  - destruct v as [a|l]; [by eexists|]. cbn [py_repr]. cbn in Hv.
    destruct (lookup_lt_is_Some_2 h l Hv) as [o Ho]. rewrite Ho.
    destruct (existsb (Nat.eqb l) visiting) eqn:Hin; [by eexists|].
    assert (~ elem_of l visiting) as Hnot.
    { clear -Hin. induction visiting as [|x xs IHxs]; [by apply not_elem_of_nil|].
      cbn [existsb] in Hin. apply orb_false_iff in Hin as [Hx Hxs].
      apply not_elem_of_cons. split; [by apply Nat.eqb_neq|by apply IHxs]. }
    assert (forall x, in_heap h x ->
              is_Some (py_repr isprintable fuel h (l :: visiting) x)) as Hx.
    { intros x Hxh. apply IH; [done|by constructor|by constructor|cbn; lia]. }
    specialize (Hclosed l o Ho). destruct o as [xs|kvs].
    + apply fmap_is_Some, mapM_is_Some_2. eapply Forall_impl; [exact Hclosed|]. exact Hx.
    + apply fmap_is_Some, mapM_is_Some_2. eapply Forall_impl; [exact Hclosed|].
      intros kv Hkv. cbn. apply fmap_is_Some. by apply Hx.
Qed.

(** In a heap whose references all stay within it, circular or not,
    [format] gives a text for every value: the depth of the walk is never
    used up. *)
Lemma format_value_total (isprintable : N -> bool) (v : val) (w : World) :
  closed (heap w) -> in_heap (heap w) v ->
  exists text, format_value isprintable v w = (Ret text, w).
Proof.
  intros Hc Hv. destruct v as [a|l]; [by eexists|].
  destruct (py_repr_some isprintable (heap w) Hc (S (length (heap w))) [] (VRef l) Hv)
    as [text Htext]; [constructor|constructor|cbn; lia|].
  exists text. unfold format_value. by rewrite Htext.
Qed.

(** ** X16: the rows of a run that ends *)



(** A song whose artist is a list is searched for by the text that [str]
    makes of the list, and its row holds the list. *)
Example list_artist_run :
  map req_url (requests (trace (world (main ascii_only band_args at_start).2))) =
    ["https://api.spotify.com/v1/me";
     "https://api.spotify.com/v1/search?q=%5B%27The+Beatles%27%2C+%22Paul%27s+band%22%5D+Hey+Jude&type=track&limit=1"] /\
  console (main ascii_only band_args at_start).2 =
    [Info "Loading user info..."; Info "Logged in as Ann (ann)";
     Row [VAtom (AStr "Hey Jude"); VRef 3%nat; VAtom (AStr "Hey Jude");
          VAtom (AStr "Beatles"); VAtom (AInt 0)]] /\
  heap (world (main ascii_only band_args at_start).2) !! 3%nat =
    Some (OList [VAtom (AStr "The Beatles"); VAtom (AStr "Paul's band")]).
Proof. vm_compute. repeat split. Qed.

Lemma and_then_run_ret {A B} (m : M A) (k : A -> Prog B) (p : Process) (a : A) (w' : World) :
  m (world p) = (Ret a, w') ->
  and_then (run m) k p = k a {| world := w'; console := console p |}.
Proof. intros H. unfold and_then, run. by rewrite H. Qed.

Lemma Emits_nothing {A} (m : Prog A) (p : Process) :
  Emits (fun _ => False) m -> trace (world (m p).2) = trace (world p).
Proof.
  intros H. destruct (H p) as (tr & -> & Htr). destruct tr as [|e tr]; [by rewrite app_nil_r|].
  by apply Forall_cons in Htr as [[] _].
Qed.

Lemma search_query (artist title : string) :
  with_query (prefixed "search")
    [("q", AStr (artist +:+ " " +:+ title)); ("type", AStr "track"); ("limit", AInt 1)] =
  search_url artist title.
Proof.
  unfold search_url, with_query, urlencode. cbn [map join fst snd py_str].
  change (prefixed "search") with "https://api.spotify.com/v1/search".
  change (str_in "?" "https://api.spotify.com/v1/search") with false. cbv iota.
  rewrite !append_assoc. reflexivity.
Qed.

Lemma search_url_q (artist title : string) :
  query_param "q" (search_url artist title) = Some (artist +:+ " " +:+ title).
Proof.
  unfold query_param, search_url.
  change (drop_until "?" ("https://api.spotify.com/v1/search?q=" +:+ ?x)) with ("q=" +:+ x).
  rewrite <- append_assoc.
  change ("&type=track&limit=1") with (String "&" "type=track&limit=1").
  rewrite split_on_app
    by (rewrite char_in_app; rewrite quote_plus_has_no; [reflexivity|reflexivity|done]).
  change (Some (unquote_plus (quote_plus (artist +:+ " " +:+ title))) =
          Some (artist +:+ " " +:+ title)).
  by rewrite unquote_quote_plus.
Qed.

Lemma search_run (isprintable : N -> bool) (spotify : SpotifyAPI.t) (song : val) (j : JSON)
    (lo hi : nat) (title : string) (a : atom) (w : World) :
  rep (heap w) lo hi song j -> json_get "artist" j = Some (JAtom a) ->
  search isprintable spotify song title w =
  retrying 3 (search_url (py_str a) title)
    (j <- urlopen (get_request spotify (search_url (py_str a) title)) ;; json_load j)
    (with_heap (heap w ++ [ODict [("q", VAtom (AStr (py_str a +:+ " " +:+ title)));
                                  ("type", VAtom (AStr "track"));
                                  ("limit", VAtom (AInt 1))]]) w).
Proof.
  intros Hrep Ha. unfold search.
  step (getitem_atom w lo hi song j "artist" a Hrep Ha).
  unfold bind at 1, format_value at 1, ret at 1. unfold bind at 1, alloc at 1.
  rewrite <- search_query.
  apply (get_run spotify "search" (length (heap w))
           [("q", AStr (py_str a +:+ " " +:+ title)); ("type", AStr "track"); ("limit", AInt 1)]).
  eexists. cbn [heap with_heap]. split; [apply list_lookup_middle; done|done].
Qed.

(** ** X17: the request of a search *)

(** X17. For a song with a text title and a scalar artist, the body of the
    loop sends its request to [BASE + 'search'] with the query
    [q=...&type=track&limit=1], where [q] is the artist, a space and the
    cleaned title; the same request is sent one to three times (the retries)
    and nothing else is requested. Decoding the [q] field of that URL gives
    the artist, a space and the cleaned title again, whatever characters
    they hold. *)
Theorem search_request (isprintable : N -> bool) (spotify : SpotifyAPI.t) (song : val)
    (j : JSON) (lo hi : nat) (title : string) (artist : atom) (p : Process) :
  rep (heap (world p)) lo hi song j ->
  json_get "title" j = Some (JStr title) ->
  json_get "artist" j = Some (JAtom artist) ->
  (exists k,
     (1 <= k <= 3)%nat /\
     requests (trace (world (import_song isprintable spotify song p).2)) =
       requests (trace (world p)) ++
       replicate k (get_request spotify (search_url (py_str artist) (clean_title title)))) /\
  query_param "q" (search_url (py_str artist) (clean_title title)) =
    Some (py_str artist +:+ " " +:+ clean_title title).
Proof.
  intros Hrep Ht Ha. split; [|apply search_url_q].
  unfold import_song.
  rewrite (and_then_run_ret _ _ p (clean_title title) (world p)).
  2: { by step (getitem_atom (world p) lo hi song j "title" (AStr title) Hrep Ht). }
  rewrite process_eta. unfold and_then at 1, run at 1.
  rewrite (search_run isprintable spotify song j lo hi (clean_title title) artist (world p)
             Hrep Ha).
  set (url := search_url (py_str artist) (clean_title title)).
  set (w0 := with_heap _ (world p)).
  destruct (retrying_adds 3 url (get_request spotify url) w0)
    as (tr & ext & k & Htr & _ & Hreq & Hk & Hk0 & _).
  exists k. split; [lia|].
  assert (requests (trace (retrying 3 url
            (j <- urlopen (get_request spotify url) ;; json_load j) w0).2) =
          requests (trace (world p)) ++ replicate k (get_request spotify url)) as Hsent.
  { by rewrite Htr, requests_app, Hreq. }
  destruct (retrying 3 url _ w0) as [[res|e|c| | |] w1]; cbn [fst snd] in *; try done.
  by rewrite (Emits_nothing _ _ (Emits_record_track _ song (clean_title title) res)).
Qed.

Lemma search_request_witness :
  (exists k,
     (1 <= k <= 3)%nat /\
     requests (trace (world (import_song ascii_only (SpotifyAPI.new "T") (VRef 3%nat)
                               {| world := (json_load (JObj [("title", JStr "Nope (live)");
                                                             ("artist", JStr "No body")])
                                              (boot dead_net [])).2;
                                  console := [] |}).2)) =
       requests (trace (world {| world := (json_load (JObj [("title", JStr "Nope (live)");
                                                            ("artist", JStr "No body")])
                                             (boot dead_net [])).2;
                                 console := [] |})) ++
       replicate k (get_request (SpotifyAPI.new "T")
                      (search_url (py_str (AStr "No body")) (clean_title "Nope (live)")))) /\
  query_param "q" (search_url (py_str (AStr "No body")) (clean_title "Nope (live)")) =
    Some (py_str (AStr "No body") +:+ " " +:+ clean_title "Nope (live)").
Proof.
  apply (search_request ascii_only (SpotifyAPI.new "T") (VRef 3%nat)
           (JObj [("title", JStr "Nope (live)"); ("artist", JStr "No body")]) 3 4
           "Nope (live)" (AStr "No body")).
  - apply (load_rep (JObj [("title", JStr "Nope (live)"); ("artist", JStr "No body")])
             boot_heap).
  - reflexivity.
  - reflexivity.
Defined.

Example search_url_of_song :
  search_url "The Beatles" (clean_title "Hey Jude (Remastered) ") =
  "https://api.spotify.com/v1/search?q=The+Beatles+Hey+Jude&type=track&limit=1".
Proof. reflexivity. Qed.

Lemma py_slice_map {A B} (f : A -> B) (l : list A) (i j : Z) :
  py_slice (map f l) i j = map f (py_slice l i j).
Proof. unfold py_slice. by rewrite length_map, skipn_map, firstn_map. Qed.

Lemma chunks_map {A B} (f : A -> B) (l : list A) (n : Z) :
  chunks (map f l) n =
  match chunks l n with
  | inl err => inl err
  | inr cs => inr (map (map f) cs)
  end.
Proof.
  unfold chunks. rewrite length_map.
  destruct (py_range 0 (Z.of_nat (length l)) n) as [starts|]; [|done].
  f_equal. rewrite map_map. apply map_ext. intros i. apply py_slice_map.
Qed.

Lemma mapM_atoms (f : val -> option JSON) (c : list atom) :
  (forall a, f (VAtom a) = Some (JAtom a)) -> mapM f (map VAtom c) = Some (map JAtom c).
Proof.
  intros Hf. induction c as [|a c IH]; [done|]. cbn [map mapM]. by rewrite IH, Hf.
Qed.

Lemma requests_failed (url : string) (req : Request) (errs : list exn) :
  requests (flat_map (failed_attempt url req) errs) = replicate (length errs) req.
Proof. induction errs as [|e errs IH]; [done|]. cbn. by rewrite <- IH. Qed.

Lemma query_at_app (h ext : list obj) (params : loc) (q : list (string * atom)) :
  query_at h params q -> query_at (h ++ ext) params q.
Proof. intros (kvs & Hl & Hq). exists kvs. split; [by apply lookup_app_l_Some|done]. Qed.

Lemma tracks_prefixed (playlist : string) :
  prefixed ("playlists/" +:+ playlist +:+ "/tracks") =
  "https://api.spotify.com/v1/playlists/" +:+ playlist +:+ "/tracks".
Proof. reflexivity. Qed.

(** One round of the loop of lines 224-225: two new objects, then the retry
    loop of [post]. *)
Lemma post_chunk_posts (spotify : SpotifyAPI.t) (playlist : string) (q : list (string * atom))
    (c : list atom) (rest : list (list val)) (w : World) :
  query_at (heap w) post_params_default q ->
  exists w2,
    post_chunks spotify playlist (map VAtom c :: rest) w =
      (retrying 3 (tracks_url playlist q)
         (j <- urlopen (tracks_request spotify playlist q c) ;; json_load j) ;;;
       post_chunks spotify playlist rest) w2 /\
    (exists ext, heap w2 = heap w ++ ext) /\
    trace w2 = trace w /\ transport w2 = transport w.
Proof.
  intros Hq.
  set (w2 := with_heap ((heap w ++ [OList (map VAtom c)]) ++
                        [ODict [("uris", VRef (length (heap w)))]])
               (with_heap (heap w ++ [OList (map VAtom c)]) w)).
  assert (post_chunks spotify playlist (map VAtom c :: rest) w =
          (SpotifyAPI.post spotify ("playlists/" +:+ playlist +:+ "/tracks")
             post_params_default (VRef (length (heap w ++ [OList (map VAtom c)]))) 3 ;;;
           post_chunks spotify playlist rest) w2) as -> by reflexivity.
  assert (heap w2 = heap w ++ [OList (map VAtom c);
                               ODict [("uris", VRef (length (heap w)))]]) as Hh2.
  { subst w2. cbn [heap with_heap]. by rewrite <- app_assoc. }
  assert (query_at (heap w2) post_params_default q) as Hq2.
  { rewrite Hh2. by apply query_at_app. }
  assert (body_of (heap w2) (VRef (length (heap w ++ [OList (map VAtom c)]))) =
          Some (Some (JObj [("uris", JArr (map JAtom c))]))) as Hbody.
  { unfold body_of. rewrite Hh2. rewrite !length_app. cbn [length].
    replace (S (length (heap w) + 2)) with (S (S (S (length (heap w))))) by lia.
    cbn [reify].
    replace (length (heap w) + 1)%nat with (S (length (heap w))) by lia.
    rewrite (lookup_app_r (heap w)) by lia.
    replace (S (length (heap w)) - length (heap w))%nat with 1%nat by lia.
    cbn [lookup list_lookup mapM fst snd reify].
    rewrite (list_lookup_middle (heap w) _ _ (length (heap w))) by done.
    by rewrite mapM_atoms. }
  exists w2. split; [|split; [by eexists|done]].
  unfold bind.
  rewrite (post_run spotify _ post_params_default q _ _ 3 w2 Hq2 Hbody).
  by rewrite tracks_prefixed.
Qed.

Lemma post_chunk_run (spotify : SpotifyAPI.t) (playlist : string) (q : list (string * atom))
    (c : list atom) (rest : list (list val)) (w : World) :
  query_at (heap w) post_params_default q ->
  exists k w',
    (1 <= k <= 3)%nat /\
    requests (trace w') = requests (trace w) ++
                          replicate k (tracks_request spotify playlist q c) /\
    query_at (heap w') post_params_default q /\
    (post_chunks spotify playlist (map VAtom c :: rest) w = post_chunks spotify playlist rest w' \/
     post_chunks spotify playlist (map VAtom c :: rest) w = (Exit 1, w') /\ k = 3%nat).
Proof.
  intros Hq.
  destruct (post_chunk_posts spotify playlist q c rest w Hq) as (w2 & -> & [ext2 Hh2] & Ht2 & _).
  unfold bind.
  destruct (retrying_retried 3 (tracks_url playlist q)
              (tracks_request spotify playlist q c) w2) as (errs & _ & Hcase).
  destruct (retrying_adds 3 (tracks_url playlist q)
              (tracks_request spotify playlist q c) w2) as (_ & ext & _ & _ & Hheap & _).
  set (r := retrying _ _ _ w2) in *.
  assert (query_at (heap r.2) post_params_default q) as Hq'.
  { rewrite Hheap, Hh2. by apply query_at_app, query_at_app. }
  rewrite Ht2 in Hcase.
  destruct Hcase as [(v & j & Hr & Hlen & _ & _ & Htr)|(Hr & Hlen & Htr)].
  - exists (S (length errs)), r.2. split; [lia|]. split; [|split; [done|left]].
    + rewrite Htr, !requests_app, requests_failed. f_equal.
      change (requests [Urlopen (tracks_request spotify playlist q c)])
        with (replicate 1 (tracks_request spotify playlist q c)).
      rewrite <- replicate_add. f_equal. lia.
    + destruct r as [r1 r2]. cbn [fst snd] in *. by rewrite Hr.
  - exists 3%nat, r.2. split; [lia|]. split; [|split; [done|right]].
    + rewrite Htr, requests_app, requests_failed. by rewrite Hlen.
    + split; [|done]. destruct r as [r1 r2]. cbn [fst snd] in *. by rewrite Hr.
Qed.

Lemma post_chunks_requests (spotify : SpotifyAPI.t) (playlist : string)
    (q : list (string * atom)) (acs : list (list atom)) : forall w,
  query_at (heap w) post_params_default q ->
  exists ks,
    Forall (fun k => (1 <= k <= 3)%nat) ks /\
    requests (trace (post_chunks spotify playlist (map (map VAtom) acs) w).2) =
      requests (trace w) ++
      concat (zip_with replicate ks (map (tracks_request spotify playlist q) acs)) /\
    ((post_chunks spotify playlist (map (map VAtom) acs) w).1 = Ret tt /\
     length ks = length acs \/
     (post_chunks spotify playlist (map (map VAtom) acs) w).1 = Exit 1 /\
     (length ks <= length acs)%nat /\ last ks = Some 3%nat).
Proof.
  induction acs as [|c acs IH]; intros w Hq.
  - exists []. split; [done|]. split; [by rewrite app_nil_r|by left].
  - cbn [map].
    destruct (post_chunk_run spotify playlist q c (map (map VAtom) acs) w Hq)
      as (k & w' & Hk & Hreq & Hq' & [Hgo|[Hstop ->]]).
    + rewrite Hgo. destruct (IH w' Hq') as (ks & Hks & Hreqs & Hcase).
      exists (k :: ks). split; [by constructor|]. split.
      * rewrite Hreqs, Hreq. cbn [zip_with concat]. by rewrite <- app_assoc.
      * destruct Hcase as [[Hr Hlen]|(Hr & Hlen & Hlast)]; [left|right].
        -- split; [done|]. cbn [length]. by rewrite Hlen.
        -- split; [done|]. split; [cbn [length]; lia|]. by rewrite last_cons, Hlast.
    + rewrite Hstop. exists [3%nat]. split; [by repeat constructor|]. split.
      * cbn [fst snd zip_with concat]. rewrite Hreq. by rewrite app_nil_r.
      * right. split; [done|]. split; [cbn [length]; lia|done].
Qed.

(** ** X18: the requests of an import *)

(** X18. With the default [params] of [post] a mapping of scalars, lines
    224-225 send the URIs (here: scalars) in the chunks that [chunks] makes
    of them, in order: for each chunk one request to
    [BASE + 'playlists/<playlist>/tracks'] whose body is [{'uris': chunk}],
    repeated one to three times by the retries. The outcome is a return after
    the last chunk, or exit status 1 after a chunk whose three attempts all
    failed, in which case no later chunk is sent. *)
Theorem import_requests (spotify : SpotifyAPI.t) (playlist : string) (uris : list atom)
    (q : list (string * atom)) (w : World) :
  query_at (heap w) post_params_default q ->
  exists acs, chunks uris 100 = inr acs /\ exists ks,
    Forall (fun k => (1 <= k <= 3)%nat) ks /\
    requests (trace (import_tracks spotify playlist (map VAtom uris) w).2) =
      requests (trace w) ++
      concat (zip_with replicate ks (map (tracks_request spotify playlist q) acs)) /\
    ((import_tracks spotify playlist (map VAtom uris) w).1 = Ret tt /\
     length ks = length acs \/
     (import_tracks spotify playlist (map VAtom uris) w).1 = Exit 1 /\
     (length ks <= length acs)%nat /\ last ks = Some 3%nat).
Proof.
  intros Hq. unfold import_tracks. rewrite chunks_map.
  rewrite (chunks_pos uris 100) by lia. eexists. split; [reflexivity|].
  apply (post_chunks_requests spotify playlist q _ w Hq).
Qed.

Lemma import_requests_witness :
  exists acs, chunks [AStr "u1"; AStr "u2"] 100 = inr acs /\ exists ks,
    Forall (fun k => (1 <= k <= 3)%nat) ks /\
    requests (trace (import_tracks (SpotifyAPI.new "T") "PL"
                       (map VAtom [AStr "u1"; AStr "u2"]) (boot dead_net [])).2) =
      requests (trace (boot dead_net [])) ++
      concat (zip_with replicate ks
                (map (tracks_request (SpotifyAPI.new "T") "PL" []) acs)) /\
    ((import_tracks (SpotifyAPI.new "T") "PL"
        (map VAtom [AStr "u1"; AStr "u2"]) (boot dead_net [])).1 = Ret tt /\
     length ks = length acs \/
     (import_tracks (SpotifyAPI.new "T") "PL"
        (map VAtom [AStr "u1"; AStr "u2"]) (boot dead_net [])).1 = Exit 1 /\
     (length ks <= length acs)%nat /\ last ks = Some 3%nat).
Proof.
  apply (import_requests (SpotifyAPI.new "T") "PL" [AStr "u1"; AStr "u2"] []
           (boot dead_net [])).
  exists []. split; reflexivity.
Defined.

Lemma run_reads_ret {A B} (m : M A) (k : A -> Prog B) (p : Process) (a : A) :
  m (world p) = (Ret a, world p) -> and_then (run m) k p = k a p.
Proof. intros H. rewrite (and_then_run_ret m k p a (world p) H). by rewrite process_eta. Qed.

Lemma truthy_list (w : World) (l : loc) (xs : list val) :
  heap w !! l = Some (OList xs) -> truthy (VRef l) w = (Ret (negb (Nat.eqb (length xs) 0)), w).
Proof. intros H. cbv [truthy bind deref ret]. by rewrite H. Qed.

Lemma getitem_0_list (w : World) (l : loc) (x : val) (xs : list val) :
  heap w !! l = Some (OList (x :: xs)) -> getitem_0 (VRef l) w = (Ret x, w).
Proof. intros H. cbv [getitem_0 bind deref ret]. by rewrite H. Qed.

Lemma record_track_result (song res : val) (j doc : JSON) (s : string * atom) (hit : Hit)
    (lo hi lo' hi' : nat) (p : Process) :
  rep (heap (world p)) lo hi song j -> is_song j s ->
  rep (heap (world p)) lo' hi' res doc -> result doc hit ->
  record_track song (clean_title s.1) res p =
  (Ret (match hit with Some (_, _, uri) => Some (VAtom uri) | None => None end),
   {| world := world p; console := console p ++ [Row (row_for s hit)] |}).
Proof.
  intros Hsong [_ Ha] Hres (tracks & Htracks & Hhit). unfold record_track.
  destruct (getitem_rep_some (world p) lo' hi' res doc "tracks" tracks Hres Htracks)
    as (tv & Htv & Hrt).
  destruct hit as [[[name artist_name] uri]|].
  - destruct Hhit as (track & rest & artist & others & Hitems & Hname & Hartists & Han & Huri).
    destruct (getitem_array (world p) lo' hi' tv tracks "items" _ Hrt Hitems)
      as (l & ys & Hl & Hlook & Hys & Hrange).
    apply Forall2_cons_inv_r in Hys as (y & ys' & Hy & _ & ->).
    rewrite (run_reads_ret _ _ p true).
    2: { step Htv. step Hl. by rewrite (truthy_list _ _ _ Hlook). }
    cbn [negb]. rewrite (run_reads_ret _ _ p y).
    2: { step Htv. step Hl. by rewrite (getitem_0_list _ _ _ _ Hlook). }
    destruct (getitem_array (world p) lo' l y track "artists" _ Hy Hartists)
      as (la & zs & Hla & Hlooka & Hzs & Hrange').
    apply Forall2_cons_inv_r in Hzs as (z & zs' & Hz & _ & ->).
    rewrite (run_reads_ret _ _ p (row_for s (Some (name, artist_name, uri)))).
    2: { step (getitem_atom (world p) lo hi song j "artist" s.2 Hsong Ha).
         step (getitem_atom (world p) lo' l y track "name" (AStr name) Hy Hname).
         step Hla. step (getitem_0_list _ _ _ _ Hlooka).
         step (getitem_atom (world p) lo' la z artist "name" artist_name Hz Han).
         step (getitem_atom (world p) lo' l y track "name" (AStr name) Hy Hname).
         reflexivity. }
    unfold and_then at 1, write at 1.
    rewrite (run_reads_ret _ _ _ (VAtom uri)); [done|].
    apply (getitem_atom _ lo' l y track "uri" uri Hy Huri).
  - destruct (getitem_array (world p) lo' hi' tv tracks "items" _ Hrt Hhit)
      as (l & ys & Hl & Hlook & Hys & Hrange).
    apply Forall2_nil_inv_r in Hys as ->.
    rewrite (run_reads_ret _ _ p false).
    2: { step Htv. step Hl. by rewrite (truthy_list _ _ _ Hlook). }
    cbn [negb]. rewrite (run_reads_ret _ _ p (VAtom s.2)); [done|].
    apply (getitem_atom (world p) lo hi song j "artist" s.2 Hsong Ha).
Qed.

Lemma rep_grown (h ext : list obj) (lo hi : nat) (v : val) (j : JSON) :
  rep h lo hi v j -> (hi <= length h)%nat -> rep (h ++ ext) lo hi v j.
Proof.
  intros Hrep Hhi. apply (rep_frame h); [done|]. intros l Hl. apply lookup_app_l. lia.
Qed.

Lemma load_grows (j : JSON) (h : list obj) : exists ext, (load j h).2 = h ++ ext.
Proof. by destruct (load_rep j h) as [? _]. Qed.

Lemma import_song_answered (isprintable : N -> bool) (spotify : SpotifyAPI.t) (song : val)
    (j doc : JSON) (s : string * atom) (hit : Hit) (lo hi : nat) (p : Process) :
  rep (heap (world p)) lo hi song j -> (hi <= length (heap (world p)))%nat ->
  is_song j s -> result doc hit ->
  (forall r, transport (world p) (attempts (trace (world p))) r = Document doc) ->
  exists p',
    import_song isprintable spotify song p =
      (Ret (match hit with Some (_, _, uri) => Some (VAtom uri) | None => None end), p') /\
    console p' = console p ++ [Row (row_for s hit)] /\
    trace (world p') = trace (world p) ++ [Urlopen (search_for spotify s)] /\
    (exists ext, heap (world p') = heap (world p) ++ ext) /\
    transport (world p') = transport (world p).
Proof.
  intros Hsong Hhi Hs Hdoc Hnet. pose proof Hs as [Ht Ha]. unfold import_song.
  rewrite (run_reads_ret _ _ p (clean_title s.1)).
  2: { by step (getitem_atom (world p) lo hi song j "title" (AStr s.1) Hsong Ht). }
  set (w0 := with_heap (heap (world p) ++
                        [ODict [("q", VAtom (AStr (py_str s.2 +:+ " " +:+ clean_title s.1)));
                                ("type", VAtom (AStr "track"));
                                ("limit", VAtom (AInt 1))]]) (world p)).
  set (h1 := (load doc (heap w0)).2).
  rewrite (and_then_run_ret _ _ p (load doc (heap w0)).1
             (with_heap h1 (emit (Urlopen (search_for spotify s)) w0))).
  2: { rewrite (search_run isprintable spotify song j lo hi (clean_title s.1) s.2 (world p)
                  Hsong Ha).
       apply (retrying_step_ok 2 _ (search_for spotify s) doc w0). apply Hnet. }
  destruct (load_grows doc (heap w0)) as [ext Hext]. fold h1 in Hext.
  destruct (load_rep doc (heap w0)) as [_ Hres]. fold h1 in Hres.
  assert (heap w0 = heap (world p) ++
                    [ODict [("q", VAtom (AStr (py_str s.2 +:+ " " +:+ clean_title s.1)));
                            ("type", VAtom (AStr "track")); ("limit", VAtom (AInt 1))]])
    as Hh0 by done.
  assert (rep h1 lo hi song j) as Hsong1.
  { rewrite Hext, Hh0, <- app_assoc. by apply rep_grown. }
  eexists. split.
  - apply (record_track_result song _ j doc s hit lo hi (length (heap w0)) (length h1)
             {| world := with_heap h1 (emit (Urlopen (search_for spotify s)) w0);
                console := console p |}); done.
  - cbn [world console]. split; [done|]. split; [done|]. split; [|done].
    exists ([ODict [("q", VAtom (AStr (py_str s.2 +:+ " " +:+ clean_title s.1)));
                    ("type", VAtom (AStr "track")); ("limit", VAtom (AInt 1))]] ++ ext).
    cbn [heap with_heap]. by rewrite Hext, Hh0, <- app_assoc.
Qed.

Lemma search_all_answered (isprintable : N -> bool) (spotify : SpotifyAPI.t) (lo hi : nat) :
  forall (vs : list val) (js docs : list JSON) (songs : list (string * atom))
         (hits : list Hit) (to_import : list val) (p : Process),
    Forall2 (rep (heap (world p)) lo hi) vs js -> (hi <= length (heap (world p)))%nat ->
    Forall2 is_song js songs -> Forall2 result docs hits -> length docs = length js ->
    (forall i doc r, docs !! i = Some doc ->
       transport (world p) (attempts (trace (world p)) + i)%nat r = Document doc) ->
    exists p',
      search_all isprintable spotify vs to_import p =
        (Ret (to_import ++ map VAtom (found_uris hits)), p') /\
      console p' = console p ++ map Row (zip_with row_for songs hits) /\
      trace (world p') = trace (world p) ++ map (fun s => Urlopen (search_for spotify s)) songs /\
      (exists ext, heap (world p') = heap (world p) ++ ext) /\
      transport (world p') = transport (world p).
Proof.
  induction vs as [|v vs IH]; intros js docs songs hits to_import p Hvs Hhi Hsongs Hdocs Hlen Hnet.
  - apply Forall2_nil_inv_l in Hvs as ->. apply Forall2_nil_inv_l in Hsongs as ->.
    destruct docs; [|done]. apply Forall2_nil_inv_l in Hdocs as ->.
    exists p. cbn. rewrite !app_nil_r. repeat split; try done.
    exists []. by rewrite app_nil_r.
  - apply Forall2_cons_inv_l in Hvs as (j & js' & Hv & Hvs & ->).
    apply Forall2_cons_inv_l in Hsongs as (s & songs' & Hs & Hsongs & ->).
    destruct docs as [|doc docs]; [done|].
    apply Forall2_cons_inv_l in Hdocs as (hit & hits' & Hdoc & Hdocs & ->).
    destruct (import_song_answered isprintable spotify v j doc s hit lo hi p Hv Hhi Hs Hdoc)
      as (p1 & Hrun & Hc1 & Ht1 & [ext1 Hh1] & Hn1).
    { intros r. specialize (Hnet 0%nat doc r eq_refl). by rewrite Nat.add_0_r in Hnet. }
    cbn [search_all]. unfold and_then at 1. rewrite Hrun.
    set (to_import' := match hit with
                       | Some (_, _, uri) => to_import ++ [VAtom uri]
                       | None => to_import
                       end).
    assert (match match hit with Some (_, _, uri) => Some (VAtom uri) | None => None end with
            | Some uri => to_import ++ [uri]
            | None => to_import
            end = to_import') as -> by (by destruct hit as [[[? ?] ?]|]).
    destruct (IH js' docs songs' hits' to_import' p1)
      as (p' & Hrun' & Hc' & Ht' & [ext' Hh'] & Hn').
    + rewrite Hh1. eapply Forall2_impl; [exact Hvs|]. intros x y Hxy. by apply rep_grown.
    + rewrite Hh1, length_app. lia.
    + done.
    + done.
    + simpl in Hlen. lia.
    + intros i d r Hd. rewrite Hn1, Ht1. unfold attempts. rewrite filter_app, length_app.
      cbn. rewrite <- Nat.add_assoc. apply (Hnet (S i)). done.
    + exists p'. split.
      * rewrite Hrun'. f_equal. f_equal. subst to_import'.
        destruct hit as [[[name an] uri]|]; cbn; [by rewrite <- app_assoc|done].
      * split; [rewrite Hc', Hc1; cbn; by rewrite <- app_assoc|].
        split; [rewrite Ht', Ht1; cbn; by rewrite <- app_assoc|].
        split; [|by rewrite Hn', Hn1].
        exists (ext1 ++ ext'). by rewrite Hh', Hh1, <- app_assoc.
Qed.

Lemma format_logged_in_run (isprintable : N -> bool) (w : World) (lo hi : nat) (me : val)
    (doc : JSON) (display_name id : atom) :
  rep (heap w) lo hi me doc ->
  json_get "display_name" doc = Some (JAtom display_name) ->
  json_get "id" doc = Some (JAtom id) ->
  format_logged_in isprintable me w = (Ret (logged_in_as display_name id), w).
Proof.
  intros Hrep Hdn Hid. pose proof (getitem_atom w lo hi me doc _ _ Hrep Hdn) as H1.
  pose proof (getitem_atom w lo hi me doc _ _ Hrep Hid) as H2.
  inversion Hrep as [| |? ? l dkvs kvs Hl Hlook Hall]; subst; try done.
  unfold format_logged_in. unfold bind at 1, deref at 1. rewrite Hlook.
  step H1. unfold bind at 1, format_value at 1, ret at 1. by step H2.
Qed.

Lemma get_answered_now (self : SpotifyAPI.t) (url : string) (params : loc)
    (q : list (string * atom)) (doc : JSON) (w : World) :
  query_at (heap w) params q ->
  transport w (attempts (trace w)) (get_request self (with_query (prefixed url) q)) =
    Document doc ->
  SpotifyAPI.get self url params 3 w =
  (Ret (load doc (heap w)).1,
   with_heap (load doc (heap w)).2
     (emit (Urlopen (get_request self (with_query (prefixed url) q))) w)).
Proof.
  intros Hq Hnet. rewrite (get_run self url params q 3 w Hq).
  by apply (retrying_step_ok 2).
Qed.

Lemma post_chunks_answered (spotify : SpotifyAPI.t) (playlist : string)
    (q : list (string * atom)) (acs : list (list atom)) : forall w,
  query_at (heap w) post_params_default q ->
  (forall i r, exists doc, transport w (attempts (trace w) + i)%nat r = Document doc) ->
  exists w',
    post_chunks spotify playlist (map (map VAtom) acs) w = (Ret tt, w') /\
    trace w' = trace w ++ map (fun c => Urlopen (tracks_request spotify playlist q c)) acs.
Proof.
  induction acs as [|c acs IH]; intros w Hq Hnet.
  - exists w. by rewrite app_nil_r.
  - cbn [map].
    destruct (post_chunk_posts spotify playlist q c (map (map VAtom) acs) w Hq)
      as (w2 & -> & [ext2 Hh2] & Ht2 & Hn2).
    destruct (Hnet 0%nat (tracks_request spotify playlist q c)) as [doc Hdoc].
    rewrite Nat.add_0_r, <- Ht2, <- Hn2 in Hdoc.
    unfold bind at 1.
    rewrite (retrying_step_ok 2 _ _ doc w2 Hdoc).
    destruct (load_grows doc (heap w2)) as [ext Hext].
    destruct (IH (with_heap (load doc (heap w2)).2
                    (emit (Urlopen (tracks_request spotify playlist q c)) w2)))
      as (w' & Hrun & Htr).
    + cbn [heap with_heap]. rewrite Hext, Hh2. by apply query_at_app, query_at_app.
    + intros i r. cbn [transport with_heap emit trace]. rewrite attempts_app, Ht2, Hn2. cbn.
      rewrite <- Nat.add_assoc. apply (Hnet (S i)).
    + exists w'. split; [done|]. rewrite Htr. cbn [trace with_heap emit map].
      by rewrite Ht2, <- app_assoc.
Qed.

Lemma json_load_run (j : JSON) (w : World) :
  json_load j w = (Ret (load j (heap w)).1, with_heap (load j (heap w)).2 w).
Proof. unfold json_load. by destruct (load j (heap w)). Qed.

Lemma attempts_urlopens {A} (f : A -> Request) (xs : list A) :
  attempts (map (fun x => Urlopen (f x)) xs) = length xs.
Proof.
  induction xs as [|x xs IH]; [done|].
  change (attempts ([Urlopen (f x)] ++ map (fun x => Urlopen (f x)) xs) = S (length xs)).
  by rewrite attempts_app, IH.
Qed.

(** ** X19: a whole run of [main] *)

(** X19. A run with a token, on a network that answers every request at
    once: the file is an array of songs (objects with a text title and a
    scalar artist), the first answer is the user with a display name and an
    id, and the answer to the search for each song holds under
    [tracks.items] either nothing or a first track with a text name, a
    first artist with a name, and a URI. Then [main] returns. It has logged
    its two lines and written one row per song; and it has sent, in this
    order and nothing else, the request for the user, one search per song
    and, with [--import] only, one request per chunk of a hundred of the
    URIs that were found. *)
Theorem main_run (isprintable : N -> bool) (args : Args) (tok : string) (js : list JSON)
    (songs : list (string * atom)) (hits : list Hit) (answers : nat -> JSON)
    (display_name id : atom) (p : Process) :
  token args = Some tok -> tok <> "" ->
  file args = Some (JArr js) ->
  query_at (heap (world p)) get_params_default [] ->
  query_at (heap (world p)) post_params_default [] ->
  (forall i r,
     transport (world p) (attempts (trace (world p)) + i)%nat r = Document (answers i)) ->
  json_get "display_name" (answers 0%nat) = Some (JAtom display_name) ->
  json_get "id" (answers 0%nat) = Some (JAtom id) ->
  Forall2 is_song js songs ->
  Forall2 result (map answers (seq 1 (length js))) hits ->
  exists p' acs,
    main isprintable args p = (Ret tt, p') /\
    console p' =
      console p ++ Info "Loading user info..." :: Info (logged_in_as display_name id) ::
      map Row (zip_with row_for songs hits) /\
    chunks (found_uris hits) 100 = inr acs /\
    trace (world p') =
      trace (world p) ++
      Urlopen (get_request (SpotifyAPI.new tok) "https://api.spotify.com/v1/me") ::
      map (fun s => Urlopen (search_for (SpotifyAPI.new tok) s)) songs ++
      (if import args
       then map (fun c => Urlopen (tracks_request (SpotifyAPI.new tok) (playlist args) [] c)) acs
       else []).
Proof.
  intros Htok Hne Hfile Hq0 Hq2 Hnet Hdn Hid Hsongs Hhits.
  set (w := world p) in *. set (spotify := SpotifyAPI.new tok).
  unfold main. rewrite Hfile.
  (* the file *)
  pose proof (json_load_run (JArr js) w) as Hload.
  destruct (load_grows (JArr js) (heap w)) as [ext1 Hh1].
  destruct (load_rep (JArr js) (heap w)) as [_ Hdata].
  destruct (load (JArr js) (heap w)) as [data h1]. cbn [fst snd] in *.
  rewrite (and_then_run_ret _ _ p _ _ Hload). clear Hload.
  inversion Hdata as [|? ? l vs ? Hl Hlook Hvs|]; subst data.
  (* the session *)
  rewrite (and_then_run_ret _ _ _ spotify (with_heap h1 w)).
  2: { unfold main_login. rewrite Htok. apply String.eqb_neq in Hne. by rewrite Hne. }
  unfold and_then at 1, write at 1. cbn [world console].
  (* the user *)
  set (h3 := (load (answers 0%nat) h1).2).
  rewrite (and_then_run_ret _ _ _ (load (answers 0%nat) h1).1
             (with_heap h3 (emit (Urlopen (get_request spotify "https://api.spotify.com/v1/me"))
                              (with_heap h1 w)))).
  2: { apply (get_answered_now spotify "me" get_params_default [] (answers 0%nat)
                (with_heap h1 w)).
       - cbn [heap with_heap]. rewrite Hh1. by apply query_at_app.
       - specialize (Hnet 0%nat). rewrite Nat.add_0_r in Hnet. apply Hnet. }
  destruct (load_grows (answers 0%nat) h1) as [ext3 Hh3]. fold h3 in Hh3.
  destruct (load_rep (answers 0%nat) h1) as [_ Hme]. fold h3 in Hme.
  cbn [world console].
  rewrite (run_reads_ret _ _ _ (logged_in_as display_name id)).
  2: { by apply (format_logged_in_run isprintable _ (length h1) (length h3) _ (answers 0%nat)). }
  unfold and_then at 1, write at 1. cbn [world console].
  (* the songs *)
  rewrite (run_reads_ret _ _ _ vs).
  2: { cbv [iterate bind deref ret world heap with_heap].
       by rewrite Hh3, (lookup_app_l_Some _ _ _ _ Hlook). }
  set (p7 := {| world := _; console := _ |}).
  assert (length songs = length js) as Hlen by (symmetry; by eapply Forall2_length).
  destruct (search_all_answered isprintable spotify (length (heap w)) l vs js
              (map answers (seq 1 (length js))) songs hits [] p7)
    as (p8 & Hall & Hc8 & Ht8 & [ext8 Hh8] & Hn8).
  { subst p7. cbn [world heap with_heap]. rewrite Hh3.
    eapply Forall2_impl; [exact Hvs|]. intros x y Hxy. apply rep_grown; [|lia].
    apply rep_weaken with (length (heap w)) l; [done|lia|lia]. }
  { subst p7. cbn [world heap with_heap]. rewrite Hh3, length_app. lia. }
  { done. }
  { done. }
  { by rewrite length_map, length_seq. }
  { intros i doc r Hdoc. rewrite list_lookup_fmap in Hdoc.
    destruct (seq 1 (length js) !! i) as [k|] eqn:Hk; [|done]. injection Hdoc as <-.
    apply lookup_seq in Hk as [-> _].
    subst p7. cbn [world transport trace with_heap emit]. rewrite attempts_app. cbn.
    rewrite <- Nat.add_assoc. apply Hnet. }
  unfold and_then at 1. rewrite Hall. cbn [app].
  assert (chunks (found_uris hits) 100 =
          inr (map (fun k => take (Z.to_nat 100) (drop (k * Z.to_nat 100) (found_uris hits)))
                 (seq 0 (Z.to_nat ((Z.of_nat (length (found_uris hits)) + 100 - 1) / 100)))))
    as Hchunks by (apply chunks_pos; lia).
  set (acs := map _ (seq 0 _)) in Hchunks.
  assert (trace (world p8) =
          trace w ++ Urlopen (get_request spotify "https://api.spotify.com/v1/me") ::
          map (fun s => Urlopen (search_for spotify s)) songs) as Ht8'.
  { rewrite Ht8. subst p7. cbn [world trace with_heap emit]. by rewrite <- app_assoc. }
  assert (console p8 =
          console p ++ Info "Loading user info..." :: Info (logged_in_as display_name id) ::
          map Row (zip_with row_for songs hits)) as Hc8'.
  { rewrite Hc8. subst p7. cbn [console]. by rewrite <- !app_assoc. }
  destruct (import args).
  - destruct (post_chunks_answered spotify (playlist args) [] acs (world p8))
      as (w9 & Hposts & Ht9).
    { rewrite Hh8. subst p7. cbn [world heap with_heap]. rewrite Hh3, Hh1.
      by apply query_at_app, query_at_app, query_at_app. }
    { intros i r. exists (answers (1 + length js + i)%nat). rewrite Hn8, Ht8'.
      subst p7. cbn [world transport with_heap emit].
      rewrite attempts_app.
      change (attempts (?e :: map ?f songs)) with (attempts ([e] ++ map f songs)).
      rewrite attempts_app, (attempts_urlopens (search_for spotify) songs), Hlen.
      change (attempts [Urlopen _]) with 1%nat.
      replace (attempts (trace w) + (1 + length js) + i)%nat
        with (attempts (trace w) + (1 + length js + i))%nat by lia.
      apply Hnet. }
    exists {| world := w9; console := console p8 |}, acs.
    split; [|split; [done|split; [done|]]].
    + unfold run, import_tracks. rewrite chunks_map, Hchunks. by rewrite Hposts.
    + cbn [world]. rewrite Ht9, Ht8', <- app_assoc. done.
  - exists p8, acs. split; [done|]. split; [done|]. split; [done|].
    by rewrite Ht8', app_nil_r.
Qed.

Lemma main_run_witness :
  exists p' acs,
    main ascii_only import_args at_start = (Ret tt, p') /\
    console p' =
      console at_start ++ Info "Loading user info..." ::
      Info (logged_in_as (AStr "Ann") (AStr "ann")) ::
      map Row (zip_with row_for
                 [("Hey Jude (Remastered) ", AStr "The Beatles"); ("Nope", AStr "No body")]
                 [Some ("Hey Jude", AStr "Beatles", AStr "spotify:track:1"); None]) /\
    chunks (found_uris [Some ("Hey Jude", AStr "Beatles", AStr "spotify:track:1"); None]) 100 =
      inr acs /\
    trace (world p') =
      trace (world at_start) ++
      Urlopen (get_request (SpotifyAPI.new "T") "https://api.spotify.com/v1/me") ::
      map (fun s => Urlopen (search_for (SpotifyAPI.new "T") s))
        [("Hey Jude (Remastered) ", AStr "The Beatles"); ("Nope", AStr "No body")] ++
      (if import import_args
       then map (fun c => Urlopen (tracks_request (SpotifyAPI.new "T")
                                     (playlist import_args) [] c)) acs
       else []).
Proof.
  apply (main_run ascii_only import_args "T" two_songs
           [("Hey Jude (Remastered) ", AStr "The Beatles"); ("Nope", AStr "No body")]
           [Some ("Hey Jude", AStr "Beatles", AStr "spotify:track:1"); None]
           shop (AStr "Ann") (AStr "ann") at_start).
  - reflexivity.
  - discriminate.
  - reflexivity.
  - exists []. split; reflexivity.
  - exists []. split; reflexivity.
  - reflexivity.
  - reflexivity.
  - reflexivity.
  - repeat constructor.
  - repeat constructor.
    + exists (JObj [("items", JArr [
        JObj [("name", JStr "Hey Jude");
              ("artists", JArr [JObj [("name", JStr "Beatles")]]);
              ("uri", JStr "spotify:track:1")]])]).
      split; [reflexivity|]. eexists _, _, _, _. repeat split; reflexivity.
    + exists (JObj [("items", JArr [])]). split; reflexivity.
Defined.

Example main_run_output :
  console (main ascii_only import_args at_start).2 =
    [Info "Loading user info..."; Info "Logged in as Ann (ann)";
     Row [VAtom (AStr "Hey Jude"); VAtom (AStr "The Beatles"); VAtom (AStr "Hey Jude");
          VAtom (AStr "Beatles"); VAtom (AInt 0)];
     Row [VAtom (AStr "Nope"); VAtom (AStr "No body"); VAtom (AStr ""); VAtom (AStr "")]] /\
  map req_url (requests (trace (world (main ascii_only import_args at_start).2))) =
    ["https://api.spotify.com/v1/me";
     "https://api.spotify.com/v1/search?q=The+Beatles+Hey+Jude&type=track&limit=1";
     "https://api.spotify.com/v1/search?q=No+body+Nope&type=track&limit=1";
     "https://api.spotify.com/v1/playlists/PL/tracks"] /\
  map req_data (requests (trace (world (main ascii_only import_args at_start).2))) =
    [None; None; None; Some (JObj [("uris", JArr [JStr "spotify:track:1"])])].
Proof. repeat split. Qed.

Lemma requests_of_others (tr : list Event) :
  Forall (fun e => is_urlopen e = false) tr -> requests tr = [].
Proof.
  induction 1 as [|e tr He _ IH]; [done|]. destruct e; try done. 
Qed.

Lemma progress_requests (response : val) (li : loc) (last now : Q) (w : World) :
  requests (trace
    ((if negb (Qle_bool now (last + (15 # 1)))
      then t <- time_time ;;
           n <- py_len (VRef li) ;;
           total <- getitem response "total" ;;
           logging_info (Loaded n total) ;;;
           ret t
      else ret last) w).2) = requests (trace w).
Proof.
  assert (emits (fun e => is_urlopen e = false)
            (if negb (Qle_bool now (last + (15 # 1)))
             then t <- time_time ;;
                  n <- py_len (VRef li) ;;
                  total <- getitem response "total" ;;
                  logging_info (Loaded n total) ;;;
                  ret t
             else ret last)) as H.
  { destruct (negb _); [|by apply emits_reads].
    apply emits_bind; [apply emits_time_time|]. intros t.
    apply emits_bind; [apply emits_reads, reads_py_len|]. intros n.
    apply emits_bind; [apply emits_reads, reads_getitem|]. intros total.
    apply emits_bind; [by apply emits_event|]. intros _. by apply emits_reads. }
  destruct (H w) as (tr & -> & Htr).
  by rewrite requests_app, (requests_of_others tr Htr), app_nil_r.
Qed.

(** The walk over the pages that follow, on a server that answers by the
    URL. *)
Lemma list_loop_follows (site : string -> option JSON) (self : SpotifyAPI.t)
    (p : JSON) (urls : list string) (rest : list JSON) :
  follows site p urls rest ->
  forall fuel last response li acc w lo hi vs,
    rep (heap w) lo hi response p ->
    heap w !! li = Some (OList vs) -> Forall2 (elem li (heap w)) vs acc ->
    query_at (heap w) get_params_default [] ->
    (forall n r d, site (req_url r) = Some d -> transport w n r = Document d) ->
    exists vs' w',
      SpotifyAPI.list_loop (length urls + fuel) self last response (VRef li) w =
        (Ret (VRef li), w') /\
      heap w' !! li = Some (OList vs') /\
      Forall2 (elem li (heap w')) vs' (acc ++ rest) /\
      requests (trace w') = requests (trace w) ++ map (get_request self) urls.
Proof.
  induction 1 as [p Hnext|p v p' its' urls rest Hnext Hv Htotal Hsite Hitems Hrest IH];
    intros fuel last response li acc w lo hi vs Hrep Hli Hvs (kvs0 & Hq0 & Hs0) Hnet.
  - exists vs, w. rewrite !app_nil_r. split; [|done].
    destruct fuel; cbn [length Nat.add SpotifyAPI.list_loop];
      by step (getitem_atom w lo hi response p "next" ANone Hrep Hnext).
  - cbn [length Nat.add SpotifyAPI.list_loop].
    step (getitem_atom w lo hi response p "next" (AStr v) Hrep Hnext).
    step (truthy_text w v Hv).
    step_clock w.
    destruct (progress_run (tick w) lo hi response p li vs last (clock w (ticks w))
                Hrep Htotal Hli) as (t & w2 & Hlog & Hh2 & _ & Hs2).
    pose proof (progress_requests response li last (clock w (ticks w)) (tick w)) as Hr2.
    rewrite Hlog in Hr2. cbn [snd trace tick] in Hr2.
    step Hlog. cbn [heap tick] in Hh2.
    assert (Hrep2 : rep (heap w2) lo hi response p) by (by rewrite Hh2).
    step (getitem_atom w2 lo hi response p "next" (AStr v) Hrep2 Hnext).
    cbn [SpotifyAPI.get_at].
    assert (SpotifyAPI.get self v get_params_default 3 w2 =
            (Ret (load p' (heap w2)).1,
             with_heap (load p' (heap w2)).2
               (emit (Urlopen (get_request self (prefixed v))) w2))) as Hget.
    { apply (get_answered_now self v get_params_default [] p' w2).
      - exists kvs0. by rewrite Hh2.
      - destruct Hs2 as (-> & _). by apply Hnet. }
    step Hget. set (w3 := with_heap _ (emit _ w2)) in *.
    destruct (load_rep p' (heap w2)) as [[ext Hext] Hrep3].
    change (load p' (heap w2)).2 with (heap w3) in Hext, Hrep3.
    destruct (getitem_array w3 _ _ _ p' "items" its' Hrep3 Hitems)
      as (lp & ys & Hpage & Hlp & Hys & Hrange).
    step Hpage.
    assert (Hli3 : heap w3 !! li = Some (OList vs)).
    { rewrite Hext. apply lookup_app_l_Some. by rewrite Hh2. }
    step (iadd_lists w3 li lp vs ys Hli3 Hlp).
    assert (Hlt : (li < length (heap w2))%nat).
    { rewrite Hh2. by apply lookup_lt_Some in Hli. }
    set (w4 := with_heap _ w3).
    destruct (IH fuel t (load p' (heap w2)).1 li (acc ++ its') w4
                (length (heap w2)) (length (heap w3)) (vs ++ ys))
      as (vs' & w' & Hrun & Hli' & Hvs' & Hreq).
    + subst w4. cbn [heap with_heap]. apply rep_frame with (heap w3); [exact Hrep3|].
      intros l Hl. apply list_lookup_insert_ne. lia.
    + subst w4. cbn [heap with_heap]. apply list_lookup_insert_eq.
      by apply lookup_lt_Some in Hli3.
    + subst w4. cbn [heap with_heap]. apply Forall2_app.
      * eapply Forall2_impl; [exact Hvs|]. intros x y Hxy.
        apply elem_assign. rewrite Hext, Hh2. by apply elem_grow.
      * eapply Forall2_impl; [exact Hys|]. intros x y Hxy.
        apply elem_assign. exists (length (heap w2)), lp.
        repeat split; [done|lia|lia].
    + exists kvs0. split; [|done]. subst w4. cbn [heap with_heap].
      rewrite list_lookup_insert_ne.
      * rewrite Hext. apply lookup_app_l_Some. by rewrite Hh2.
      * intros ->. rewrite Hq0 in Hli. discriminate.
    + intros n r d Hd. subst w4 w3. cbn [transport with_heap emit].
      destruct Hs2 as (-> & _). by apply Hnet.
    + exists vs', w'. rewrite Hrun. split; [done|]. split; [done|].
      split; [by rewrite <- app_assoc in Hvs'|].
      rewrite Hreq. subst w4 w3. cbn [trace with_heap emit].
      rewrite requests_app, Hr2. cbn [map]. by rewrite <- app_assoc.
Qed.

(** ** X20: [list] follows the links *)

(** X20. On a server that answers by the URL alone, with the default
    [params] of [get] left empty: if the first URL holds a page with an
    [items] array and the listing goes on from it through the [next] links
    to a page whose [next] is null, then [list] returns the items of all
    these pages, in page order, and the requests it has sent are the first
    URL and then, for each page, the [next] of the page before, prefixed with
    [BASE] unless it lies under it already. The [params] of the call go into
    the first URL only. *)
Theorem list_follows_links (self : SpotifyAPI.t) (url : string) (params : loc)
    (q : list (string * atom)) (site : string -> option JSON) (p : JSON)
    (its rest : list JSON) (urls : list string) (fuel : nat) (w : World) :
  query_at (heap w) params q ->
  query_at (heap w) get_params_default [] ->
  (forall n r d, site (req_url r) = Some d -> transport w n r = Document d) ->
  site (with_query (prefixed url) q) = Some p ->
  json_get "items" p = Some (JArr its) ->
  follows site p urls rest ->
  (length urls <= fuel)%nat ->
  exists li vs w',
    SpotifyAPI.list fuel self url params w = (Ret (VRef li), w') /\
    heap w' !! li = Some (OList vs) /\
    Forall2 (represents (heap w')) vs (its ++ rest) /\
    requests (trace w') =
      requests (trace w) ++
      map (get_request self) (with_query (prefixed url) q :: urls).
Proof.
  intros Hq (kvs0 & Hq0 & Hs0) Hnet Hsite Hitems Hfollows Hfuel.
  unfold SpotifyAPI.list. step_clock w.
  assert (SpotifyAPI.get self url params 3 (tick w) =
          (Ret (load p (heap w)).1,
           with_heap (load p (heap w)).2
             (emit (Urlopen (get_request self (with_query (prefixed url) q))) (tick w))))
    as Hget.
  { apply (get_answered_now self url params q p (tick w)); [done|]. by apply Hnet. }
  step Hget. set (w1 := with_heap _ (emit _ (tick w))) in *.
  destruct (load_rep p (heap w)) as [[ext Hext] Hrep1].
  change (load p (heap w)).2 with (heap w1) in Hext, Hrep1.
  destruct (getitem_array w1 _ _ _ p "items" its Hrep1 Hitems)
    as (li & ys & Hpage & Hli & Hys & Hrange).
  step Hpage.
  replace fuel with (length urls + (fuel - length urls))%nat by lia.
  destruct (list_loop_follows site self p urls rest Hfollows (fuel - length urls)%nat
              (clock w (ticks w)) (load p (heap w)).1 li its w1
              (length (heap w)) (length (heap w1)) ys)
    as (vs' & w' & Hrun & Hli' & Hvs' & Hreq).
  - done.
  - done.
  - eapply Forall2_impl; [exact Hys|]. intros x y Hxy.
    exists (length (heap w)), li. repeat split; [done|lia|lia].
  - exists kvs0. split; [|done]. rewrite Hext. by apply lookup_app_l_Some.
  - intros n r d Hd. by apply Hnet.
  - exists li, vs', w'. split; [done|]. split; [done|]. split.
    + eapply Forall2_impl; [exact Hvs'|]. intros x y. apply elem_represents.
    + rewrite Hreq. subst w1. cbn [trace with_heap emit tick].
      rewrite requests_app. cbn [map]. by rewrite <- app_assoc.
Qed.

Lemma list_follows_links_witness :
  exists li vs w',
    SpotifyAPI.list 1 (SpotifyAPI.new "T") "me/tracks" list_params_default
      (boot (site_net two_page_site) []) = (Ret (VRef li), w') /\
    heap w' !! li = Some (OList vs) /\
    Forall2 (represents (heap w')) vs ([JStr "a"; JStr "b"] ++ [JStr "c"] ++ []) /\
    requests (trace w') =
      requests (trace (boot (site_net two_page_site) [])) ++
      map (get_request (SpotifyAPI.new "T"))
        (with_query (prefixed "me/tracks") [] ::
         [prefixed "me/tracks?offset=2"]).
Proof.
  apply (list_follows_links (SpotifyAPI.new "T") "me/tracks" list_params_default []
           two_page_site
           (JObj [("items", JArr [JStr "a"; JStr "b"]); ("next", JStr "me/tracks?offset=2");
                  ("total", JInt 3)])
           [JStr "a"; JStr "b"] [JStr "c"] [prefixed "me/tracks?offset=2"] 1
           (boot (site_net two_page_site) [])).
  - exists []. split; reflexivity.
  - exists []. split; reflexivity.
  - intros n r d Hd. cbn. unfold site_net. by rewrite Hd.
  - reflexivity.
  - reflexivity.
  - apply (follows_next two_page_site _ "me/tracks?offset=2"
             (JObj [("items", JArr [JStr "c"]); ("next", JNull); ("total", JInt 3)])
             [JStr "c"] [] []); try reflexivity; try discriminate.
    by apply follows_end.
  - simpl. lia.
Defined.
